(** * kanzo: the phase runner and the deployment executor

    A shallow embedding of [kanzo/core/controller.py]: the cooperative
    scheduler primitive [wait_for_runners], the [Controller] class with its
    plan bookkeeping, the phase runner [_run_phase] and the deployment
    executor [run_deployment]; at the end of the file, of the string
    helpers of [kanzo/utils/strings.py] and of the processor and the
    validator of the example plugin [tests/plugins/sql.py].

    Python objects are modelled as the code uses them: the plan is the
    dictionary built in [__init__] (with the keys that are there), sets of
    markers are duplicate-free lists of hashable Python values, greenlets
    live in a heap of resumable tasks, and every exception leaves the state
    changes made before it in place. *)

From stdpp Require Import base list countable strings.
From Stdlib Require Import ZArith String Ascii Lia.

#[local] Open Scope string_scope.
#[local] Open Scope list_scope.

(** ** Python values *)

Module Py.

(** Hashable values that can serve as markers and dictionary keys. *)
#[warnings="-register-all"]
Inductive pyval : Type :=
| PNone
| PInt (z : Z)
| PStr (s : string)
| PTuple (items : list pyval).

Fixpoint pyval_to_tree (v : pyval) : gen_tree (unit + Z + string) :=
  match v with
  | PNone => GenLeaf (inl (inl tt))
  | PInt z => GenLeaf (inl (inr z))
  | PStr s => GenLeaf (inr s)
  | PTuple l => GenNode 0 (map pyval_to_tree l)
  end.

Fixpoint pyval_of_tree (t : gen_tree (unit + Z + string)) : pyval :=
  match t with
  | GenLeaf (inl (inl _)) => PNone
  | GenLeaf (inl (inr z)) => PInt z
  | GenLeaf (inr s) => PStr s
  | GenNode _ l => PTuple (map pyval_of_tree l)
  end.

Lemma pyval_tree_inv v : pyval_of_tree (pyval_to_tree v) = v.
Proof.
  revert v. fix IH 1. intros [| z | s | l]; simpl; try reflexivity.
  f_equal. induction l as [|x l IHl]; simpl; [reflexivity|].
  rewrite IH, IHl. reflexivity.
Qed.

Lemma pyval_to_tree_inj x y : pyval_to_tree x = pyval_to_tree y -> x = y.
Proof.
  intros H. rewrite <- (pyval_tree_inv x), <- (pyval_tree_inv y).
  congruence.
Qed.

#[global] Instance pyval_eq_dec : EqDecision pyval.
Proof.
  refine (fun x y =>
    match decide (pyval_to_tree x = pyval_to_tree y) with
    | left H => left (pyval_to_tree_inj x y H)
    | right H => right (fun E => H (f_equal pyval_to_tree E))
    end).
Defined.

(** Exceptions.  [ExternalError] stands for whatever a plugin step, a
    drone operation or a callback raises. *)
Inductive exn : Type :=
| AttributeError (name : string)
| KeyError (key : pyval)
| ValueError (msg : string)
| TypeError (msg : string)
| ExternalError (msg : string).

(** [iter(v)]: tuples yield their items, strings their characters, the
    other values are not iterable. *)
Definition chars (s : string) : list pyval :=
  map (fun c => PStr (String c EmptyString)) (list_ascii_of_string s).

Definition py_iter (v : pyval) : exn + list pyval :=
  match v with
  | PTuple l => inr l
  | PStr s => inr (chars s)
  | PNone => inl (TypeError "'NoneType' object is not iterable")
  | PInt _ => inl (TypeError "'int' object is not iterable")
  end.

(** [a, b = v]: tuple unpacking into exactly two targets. *)
Definition unpack2 (v : pyval) : exn + (pyval * pyval) :=
  match py_iter v with
  | inl e => inl e
  | inr [a; b] => inr (a, b)
  | inr (_ :: _ :: _ :: _) => inl (ValueError "too many values to unpack")
  | inr _ => inl (ValueError "need more values to unpack")
  end.

(** Python [set] of hashable values: a list without repetitions. *)
Definition pyset := list pyval.

Definition set_in (x : pyval) (s : pyset) : bool := bool_decide (x ∈ s).

Definition set_add (x : pyval) (s : pyset) : pyset :=
  if set_in x s then s else s ++ [x].

(** [s.remove(x)] raises [KeyError] when [x] is absent. *)
Definition set_remove (x : pyval) (s : pyset) : exn + pyset :=
  if set_in x s then inr (filter (λ y, y ≠ x) s) else inl (KeyError x).

(** [a - b] *)
Definition set_diff (a b : pyset) : pyset := filter (λ y, y ∉ b) a.

(** [s.update(it)] *)
Definition set_update (s : pyset) (it : list pyval) : pyset :=
  foldl (λ acc x, set_add x acc) s it.

(** A [dict] (insertion ordered where the code uses [OrderedDict]). *)
Definition dict (V : Type) := list (pyval * V).

Fixpoint dict_get {V} (d : dict V) (k : pyval) : option V :=
  match d with
  | [] => None
  | (k', v) :: d' => if decide (k' = k) then Some v else dict_get d' k
  end.

(** [d[k] = v]: replaces in place, or appends a new key. *)
Fixpoint dict_set {V} (d : dict V) (k : pyval) (v : V) : dict V :=
  match d with
  | [] => [(k, v)]
  | (k', v') :: d' =>
      if decide (k' = k) then (k', v) :: d' else (k', v') :: dict_set d' k v
  end.

Definition dict_keys {V} (d : dict V) : list pyval := map fst d.

End Py.
Export Py.

(** ** Cooperative tasks (greenlets) *)

Definition host := string.
Definition facts := string.
Abbreviation gid := nat.

(** What a running task does to the world besides yielding. *)
Inductive action : Type :=
| SetInfo (h : host) (f : facts)     (* [self._info[h] = f] *)
| Effect (what : string).            (* an external effect, kept in the log *)

(** The body of a greenlet, as a resumable computation: it returns,
    raises, hands control back to its parent ([parent.switch()]), or acts
    and goes on. *)
Inductive task (A : Type) : Type :=
| Ret (a : A)
| Raise (e : exn)
| Yield (k : task A)
| Act (a : action) (k : task A).
Arguments Ret {A} a.
Arguments Raise {A} e.
Arguments Yield {A} k.
Arguments Act {A} a k.

Fixpoint task_bind {A B} (t : task A) (f : A -> task B) : task B :=
  match t with
  | Ret a => f a
  | Raise e => Raise e
  | Yield k => Yield (task_bind k f)
  | Act a k => Act a (task_bind k f)
  end.

Definition task_seq {A B} (t : task A) (u : task B) : task B :=
  task_bind t (fun _ => u).

(** How control comes back from [run.switch()]. *)
Inductive outcome : Type :=
| Yielded
| Died
| Raised (e : exn).

(** ** The data model of the controller *)

(** One record returned by a plan step:
    [(host, manifest, marker, prereqs)]; [prereqs] may be [None]. *)
Record PlanRecord : Type := {
  r_host : host;
  r_manifest : string;
  r_marker : pyval;
  r_prereqs : option (list pyval);
}.

(** A plugin step.  The same callable is called per host inside a
    greenlet ([host_call]) or once, directly, in the plan phase
    ([plan_call], whose result is the returned record list, possibly
    [None], or the exception raised). *)
Record Step : Type := {
  func_name : string;
  host_call : host -> task unit;
  plan_call : list (host * facts) -> exn + option (list PlanRecord);
}.

Record PluginData : Type := {
  name : string;
  modules : list string;
  resources : list string;
  init_steps : list Step;
  prep_steps : list Step;
  plan_steps : list Step;
  clean_steps : list Step;
}.

(** Modelled from the spec: the Host Agent interface ([drones.Drone] is
    not part of the sources): [init_host()], [discover() -> info],
    [configure()], [make_build()], [deploy(manifest, timeout, debug)] and
    [clean()], each with the behaviour the agent gives it. *)
Record Drone : Type := {
  init_host : task unit;
  discover : task facts;
  configure : task unit;
  make_build : task unit;
  deploy : pyval -> option Z -> bool -> task unit;
  clean : option exn;
}.

(** [self._plan].  [__init__] creates the key ['dependecy']; the methods
    read the key ['dependency'], which is [None] here while the dictionary
    has no such key. *)
Record Plan : Type := {
  manifests : dict (list (host * string));
  dependecy : dict pyset;
  dependency : option (dict pyset);
  waiting : pyset;
  in_progress : pyset;
  finished : pyset;
}.

(** A status event [(unit_type, unit_name, unit_status)]. *)
Definition event : Type := string * string * string.

(** What a greenlet was created for. *)
Inductive label : Type :=
| LStep (step : string) (h : host)
| LInstallPuppet (h : host)
| LMakeBuild (h : host)
| LDeploy (marker host manifest : pyval).

(** The interactions of the controller with its environment, in the
    order they happen. *)
Inductive entry : Type :=
| Status (e : event)
| AddManifest (h : host) (manifest : string)
| Spawn (g : gid) (l : label)
| Switch (g : gid) (o : outcome)
| Did (g : gid) (what : string)
| Clean (h : host).

(** The controller with its surroundings: the attributes that the
    methods use, the greenlets that exist, and the interactions so far. *)
Record World : Type := {
  _callbacks : option (event -> option exn);
  _plugins : list PluginData;
  _drones : list (host * Drone);
  _info : list (host * facts);
  _plan : Plan;
  heap : list (option (task unit));
  log : list (entry * Plan);
}.

Definition with_plan (p : Plan) (w : World) : World :=
  {| _callbacks := _callbacks w; _plugins := _plugins w; _drones := _drones w;
     _info := _info w; _plan := p; heap := heap w; log := log w |}.

Definition with_heap (h : list (option (task unit))) (w : World) : World :=
  {| _callbacks := _callbacks w; _plugins := _plugins w; _drones := _drones w;
     _info := _info w; _plan := _plan w; heap := h; log := log w |}.

Definition with_info (i : list (host * facts)) (w : World) : World :=
  {| _callbacks := _callbacks w; _plugins := _plugins w; _drones := _drones w;
     _info := i; _plan := _plan w; heap := heap w; log := log w |}.

(** Every logged interaction carries the plan as it is at that moment:
    these are the points where the plan can be observed from outside. *)
Definition logged (e : entry) (w : World) : World :=
  {| _callbacks := _callbacks w; _plugins := _plugins w; _drones := _drones w;
     _info := _info w; _plan := _plan w; heap := heap w;
     log := log w ++ [(e, _plan w)] |}.

Definition with_waiting (s : pyset) (p : Plan) : Plan :=
  {| manifests := manifests p; dependecy := dependecy p;
     dependency := dependency p; waiting := s;
     in_progress := in_progress p; finished := finished p |}.

Definition with_in_progress (s : pyset) (p : Plan) : Plan :=
  {| manifests := manifests p; dependecy := dependecy p;
     dependency := dependency p; waiting := waiting p;
     in_progress := s; finished := finished p |}.

Definition with_finished (s : pyset) (p : Plan) : Plan :=
  {| manifests := manifests p; dependecy := dependecy p;
     dependency := dependency p; waiting := waiting p;
     in_progress := in_progress p; finished := s |}.

Definition with_manifests (m : dict (list (host * string))) (p : Plan) : Plan :=
  {| manifests := m; dependecy := dependecy p;
     dependency := dependency p; waiting := waiting p;
     in_progress := in_progress p; finished := finished p |}.

Definition with_dependency (d : dict pyset) (p : Plan) : Plan :=
  {| manifests := manifests p; dependecy := dependecy p;
     dependency := Some d; waiting := waiting p;
     in_progress := in_progress p; finished := finished p |}.

(** ** A state and exception monad

    A computation runs on the world and ends with a value, with an
    exception, or (only for the [while] loop of [run_deployment]) without
    an end within the given number of iterations.  The world reached is
    returned in every case. *)

Inductive res (A : Type) : Type :=
| Val (a : A)
| Exc (e : exn)
| Fuel.
Arguments Val {A} a.
Arguments Exc {A} e.
Arguments Fuel {A}.

Definition M (A : Type) : Type := World -> res A * World.

Definition ret {A} (a : A) : M A := fun w => (Val a, w).
Definition raise {A} (e : exn) : M A := fun w => (Exc e, w).

Definition bind {A B} (m : M A) (f : A -> M B) : M B := fun w =>
  match m w with
  | (Val a, w') => f a w'
  | (Exc e, w') => (Exc e, w')
  | (Fuel, w') => (Fuel, w')
  end.

Declare Scope m_scope.
Delimit Scope m_scope with M.
Notation "x <- m ;; k" := (bind m (fun x => k))
  (at level 100, m at next level, right associativity) : m_scope.
Notation "m ;; k" := (bind m (fun _ => k))
  (at level 100, right associativity) : m_scope.
#[local] Open Scope m_scope.

Definition lift {A} (r : exn + A) : M A :=
  match r with
  | inl e => raise e
  | inr a => ret a
  end.

Definition get_plan : M Plan := fun w => (Val (_plan w), w).
Definition set_plan (p : Plan) : M unit := fun w => (Val tt, with_plan p w).
Definition emit (e : entry) : M unit := fun w => (Val tt, logged e w).

(** [for x in l: acc = body(acc, x)] *)
Fixpoint foldM {A B} (body : B -> A -> M B) (l : list A) (acc : B) : M B :=
  match l with
  | [] => ret acc
  | x :: l' => acc' <- body acc x ;; foldM body l' acc'
  end.

(** [for x in l: body(x)] *)
Definition forM {A} (body : A -> M unit) (l : list A) : M unit :=
  foldM (fun _ x => body x) l tt.

(** ** Greenlets in the heap

    The greenlet library gives every greenlet a parent, the greenlet that
    created it: [parent.switch()] inside the greenlet and the end of its
    function both give control back to the [switch] call of the parent,
    and an exception that leaves the function is raised there.  All
    greenlets of the controller are created by the method that switches
    to them. *)

Fixpoint info_set (i : list (host * facts)) (h : host) (f : facts)
  : list (host * facts) :=
  match i with
  | [] => [(h, f)]
  | (h', f') :: i' =>
      if String.eqb h' h then (h', f) :: i' else (h', f') :: info_set i' h f
  end.

Definition do_action (g : gid) (a : action) (w : World) : World :=
  match a with
  | SetInfo h f => with_info (info_set (_info w) h f) w
  | Effect what => logged (Did g what) w
  end.

(** Runs greenlet [g], whose remaining body is [t], until it hands
    control back. *)
Fixpoint resume (g : gid) (t : task unit) (w : World) : res unit * World :=
  match t with
  | Ret _ => (Val tt, logged (Switch g Died) (with_heap (<[g := None]> (heap w)) w))
  | Raise e => (Exc e, logged (Switch g (Raised e)) (with_heap (<[g := None]> (heap w)) w))
  | Yield k => (Val tt, logged (Switch g Yielded) (with_heap (<[g := Some k]> (heap w)) w))
  | Act a k => resume g k (do_action g a w)
  end.

(** [greenlet.greenlet(f)] together with the arguments its first
    [switch] passes: a new live cell. *)
Definition spawn (l : label) (t : task unit) : M gid := fun w =>
  let g := List.length (heap w) in
  (Val g, logged (Spawn g l) (with_heap (heap w ++ [Some t]) w)).

(** [run.dead] *)
Definition is_dead (g : gid) : M bool := fun w =>
  (Val (match heap w !! g with Some (Some _) => false | _ => true end), w).

(** [run.switch(...)]: an exception of the greenlet is raised in the
    parent, here the caller.  Switching to a dead greenlet comes straight
    back. *)
Definition switch (g : gid) : M unit := fun w =>
  match heap w !! g with
  | Some (Some t) => resume g t w
  | _ => (Val tt, w)
  end.

(** ** [wait_for_runners] (controller.py, lines 35-41)

    One pass over a snapshot of the set: a runner found dead is removed,
    a live one is resumed once.  The set, which the code changes in
    place, is a list here, visited in the order of insertion, and the
    changed set is the result. *)
Fixpoint wait_pass (snapshot : list gid) (runners : list gid) : M (list gid) :=
  match snapshot with
  | [] => ret runners
  | run :: rest =>
      d <- is_dead run ;;
      if (d : bool) then wait_pass rest (filter (λ r, r ≠ run) runners)
      else switch run ;; wait_pass rest runners
  end.

Definition wait_for_runners (runners : list gid) : M (list gid) :=
  wait_pass runners runners.

(** ** The controller *)

Module Controller.

Definition empty_plan : Plan :=
  {| manifests := []; dependecy := []; dependency := None;
     waiting := []; in_progress := []; finished := [] |}.

(** The resource registration loop of [__init__] (lines 89-94) iterates
    the keys of [self._drones], the hosts, and calls [add_resource] and
    [add_module] on them. *)
Definition register_resources (ps : list PluginData) (hosts : list host)
  : exn + unit :=
  foldl (fun acc plug =>
    match acc with
    | inl e => inl e
    | inr _ =>
        match hosts, resources plug, modules plug with
        | [], _, _ => inr tt
        | _ :: _, _ :: _, _ => inl (AttributeError "add_resource")
        | _ :: _, [], _ :: _ => inl (AttributeError "add_module")
        | _ :: _, [], [] => inr tt
        end
    end) (inr tt) ps.

(** [Controller.__init__], given the plugins that were loaded and the
    drone made for each deploy host. *)
Definition __init__ (ps : list PluginData) (ds : list (host * Drone))
  : exn + World :=
  match register_resources ps (map fst ds) with
  | inl e => inl e
  | inr _ =>
      inr {| _callbacks := None; _plugins := ps; _drones := ds; _info := [];
             _plan := empty_plan; heap := []; log := [] |}
  end.

Definition register_status_callback (cb : event -> option exn) (w : World)
  : World :=
  {| _callbacks := Some cb; _plugins := _plugins w; _drones := _drones w;
     _info := _info w; _plan := _plan w; heap := heap w; log := log w |}.

(** [self._callbacks['status'](unit_type, unit_name, unit_status)] *)
Definition status (ty nm st : string) : M unit := fun w =>
  match _callbacks w with
  | None => (Exc (KeyError (PStr "status")), w)
  | Some cb =>
      match cb (ty, nm, st) with
      | None => (Val tt, logged (Status (ty, nm, st)) w)
      | Some e => (Exc e, logged (Status (ty, nm, st)) w)
      end
  end.

(** [getattr(plugin, '{}_steps'.format(phase))] *)
Definition phase_steps (phase : string) (plug : PluginData) : exn + list Step :=
  if String.eqb phase "init" then inr (init_steps plug)
  else if String.eqb phase "prep" then inr (prep_steps plug)
  else if String.eqb phase "plan" then inr (plan_steps plug)
  else if String.eqb phase "clean" then inr (clean_steps plug)
  else inl (AttributeError (phase ++ "_steps")%string).

Fixpoint drone_get (ds : list (host * Drone)) (h : host) : option Drone :=
  match ds with
  | [] => None
  | (h', d) :: ds' => if String.eqb h' h then Some d else drone_get ds' h
  end.

(** [self._drones[host]] *)
Definition drone_of (h : host) : M Drone := fun w =>
  match drone_get (_drones w) h with
  | Some d => (Val d, w)
  | None => (Exc (KeyError (PStr h)), w)
  end.

(** [d.setdefault(marker, []).append(pair)] on the ordered dictionary. *)
Definition manifests_append (d : dict (list (host * string)))
    (marker : pyval) (pair : host * string) : dict (list (host * string)) :=
  match dict_get d marker with
  | Some l => dict_set d marker (l ++ [pair])
  | None => dict_set d marker [pair]
  end.

(** [d.setdefault(marker, set()).update(prereqs)] *)
Definition dependency_update (d : dict pyset) (marker : pyval)
    (prereqs : list pyval) : dict pyset :=
  match dict_get d marker with
  | Some s => dict_set d marker (set_update s prereqs)
  | None => dict_set d marker (set_update [] prereqs)
  end.

(** The body of the record loop of the plan phase (lines 132-140). *)
Definition plan_record (r : PlanRecord) : M unit :=
  _ <- drone_of (r_host r) ;;
  emit (AddManifest (r_host r) (r_manifest r)) ;;
  p <- get_plan ;;
  set_plan (with_waiting (set_add (r_marker r) (waiting p)) p) ;;
  p <- get_plan ;;
  set_plan (with_manifests
    (manifests_append (manifests p) (r_marker r) (r_host r, r_manifest r)) p) ;;
  p <- get_plan ;;
  match dependency p with
  | None => raise (KeyError (PStr "dependency"))
  | Some d =>
      set_plan (with_dependency
        (dependency_update d (r_marker r)
           (match r_prereqs r with Some l => l | None => [] end)) p)
  end.

(** The local function [_install_puppet] of [_run_phase]. *)
Definition _install_puppet (h : host) (d : Drone) : task unit :=
  task_seq (init_host d)
    (Yield
      (task_bind (discover d) (fun f =>
         Act (SetInfo h f)
           (Yield (configure d))))).

(** Lines 142-152: one greenlet per drone, each switched to once, then
    one call of [wait_for_runners]. *)
Definition run_step_on_hosts (step : Step) : M unit :=
  ds <- (fun w => (Val (_drones w), w)) ;;
  runners <- foldM (fun runners (hd : host * Drone) =>
      run <- spawn (LStep (func_name step) (fst hd)) (host_call step (fst hd)) ;;
      let runners := runners ++ [run] in
      switch run ;;
      ret runners) ds [] ;;
  _ <- wait_for_runners runners ;;
  ret tt.

Definition run_plan_step (step : Step) : M unit :=
  i <- (fun w => (Val (_info w), w)) ;;
  records <- lift (plan_call step i) ;;
  forM plan_record (match records with Some l => l | None => [] end).

Definition run_step (phase : string) (step : Step) : M unit :=
  status "step" (func_name step) "start" ;;
  (if String.eqb phase "plan" then run_plan_step step
   else run_step_on_hosts step) ;;
  status "step" (func_name step) "end".

(** The post-run loop (lines 155-166); [break] leaves it at the first
    drone of a phase that is neither ['init'] nor ['plan']. *)
Fixpoint post_run (phase : string) (ds : list (host * Drone))
    (runners : list gid) : M (list gid) :=
  match ds with
  | [] => ret runners
  | (h, d) :: ds' =>
      if String.eqb phase "init" then
        run <- spawn (LInstallPuppet h) (_install_puppet h d) ;;
        let runners := runners ++ [run] in
        switch run ;;
        post_run phase ds' runners
      else if String.eqb phase "plan" then
        run <- spawn (LMakeBuild h) (make_build d) ;;
        let runners := runners ++ [run] in
        switch run ;;
        post_run phase ds' runners
      else ret runners
  end.

(** [_iter_phase] is a generator: the steps of a plugin are looked up
    when the loop reaches that plugin. *)
Definition _run_phase (phase : string) : M unit :=
  status "phase" phase "start" ;;
  ps <- (fun w => (Val (_plugins w), w)) ;;
  forM (fun plug =>
    steps <- lift (phase_steps phase plug) ;;
    forM (run_step phase) steps) ps ;;
  ds <- (fun w => (Val (_drones w), w)) ;;
  runners <- post_run phase ds [] ;;
  _ <- wait_for_runners runners ;;
  status "phase" phase "end".

(** [self.<attr>(phase, ...)]: the attribute is looked up on the
    instance, then called.  Of the attributes of a [Controller] only
    [_run_phase] runs a phase; a name that neither [__init__] nor the
    class defines raises [AttributeError]. *)
Definition call_phase_method (attr : string) (phase : string) : M unit :=
  if String.eqb attr "_run_phase" then _run_phase phase
  else raise (AttributeError attr).

Definition run_init : M unit :=
  call_phase_method "run_phase" "init" ;;
  call_phase_method "run_phase" "prep" ;;
  call_phase_method "run_phase" "plan".

(** ** The deployment executor (lines 182-218) *)

(** [self._drones[host]] for a [host] taken out of a tuple. *)
Definition drone_of_val (h : pyval) : M Drone :=
  match h with
  | PStr s => drone_of s
  | _ => raise (KeyError h)
  end.

(** The body of [for host, manifest in manifests] (lines 209-212). *)
Definition start_deploy (marker : pyval) (timeout : option Z) (debug : bool)
    (runners : dict (list gid)) (item : pyval) : M (dict (list gid)) :=
  hm <- lift (unpack2 item) ;;
  d <- drone_of_val (fst hm) ;;
  run <- spawn (LDeploy marker (fst hm) (snd hm))
               (deploy d (snd hm) timeout debug) ;;
  let runners :=
    dict_set runners marker
      (match dict_get runners marker with
       | Some s => s ++ [run]
       | None => [run]
       end) in
  switch run ;;
  ret runners.

(** [self._plan['dependency'][marker]] *)
Definition dependency_of (marker : pyval) : M pyset :=
  p <- get_plan ;;
  match dependency p with
  | None => raise (KeyError (PStr "dependency"))
  | Some d =>
      match dict_get d marker with
      | Some s => ret s
      | None => raise (KeyError marker)
      end
  end.

(** Lines 207-212: the marker leaves [waiting], enters [in-progress] and
    its deploy tasks are started. *)
Definition initiate (marker manifests : pyval) (timeout : option Z)
    (debug : bool) (runners : dict (list gid)) : M (dict (list gid)) :=
  p <- get_plan ;;
  wt <- lift (set_remove marker (waiting p)) ;;
  set_plan (with_waiting wt p) ;;
  p <- get_plan ;;
  set_plan (with_in_progress (set_add marker (in_progress p)) p) ;;
  items <- lift (py_iter manifests) ;;
  foldM (start_deploy marker timeout debug) items runners.

(** Lines 215-217. *)
Definition check_end (marker : pyval) (rs : list gid) : M unit :=
  match rs with
  | _ :: _ => ret tt
  | [] =>
      p <- get_plan ;;
      set_plan (with_finished (set_add marker (finished p)) p) ;;
      p <- get_plan ;;
      ip <- lift (set_remove marker (in_progress p)) ;;
      set_plan (with_in_progress ip p)
  end.

(** Lines 201-217: a marker that is not finished and has no unfinished
    prerequisite is initiated unless it is tracked already, its runners
    get one pass of [wait_for_runners], and its end is checked. *)
Definition scan_ready (marker manifests : pyval) (timeout : option Z)
    (debug : bool) (runners : dict (list gid)) : M (dict (list gid)) :=
  runners <- match dict_get runners marker with
             | Some _ => ret runners
             | None => initiate marker manifests timeout debug runners
             end ;;
  rs <- match dict_get runners marker with
        | Some rs => ret rs
        | None => raise (KeyError marker)
        end ;;
  rs <- wait_for_runners rs ;;
  check_end marker rs ;;
  ret (dict_set runners marker rs).

(** The body of [for marker, manifests in self._plan['manifests']]: the
    loop variable is a key of the dictionary, unpacked into two names. *)
Definition scan (timeout : option Z) (debug : bool)
    (runners : dict (list gid)) (key : pyval) : M (dict (list gid)) :=
  mm <- lift (unpack2 key) ;;
  let marker := fst mm in
  let manifests := snd mm in
  p <- get_plan ;;
  if set_in marker (finished p) then ret runners
  else
    deps <- dependency_of marker ;;
    p <- get_plan ;;
    match set_diff deps (finished p) with
    | _ :: _ => ret runners
    | [] => scan_ready marker manifests timeout debug runners
    end.

(** The [while] loop, run for at most [fuel] scans. *)
Fixpoint deployment_loop (fuel : nat) (timeout : option Z) (debug : bool)
    (runners : dict (list gid)) : M unit :=
  p <- get_plan ;;
  match waiting p, in_progress p with
  | [], [] => ret tt
  | _, _ =>
      match fuel with
      | O => fun w => (Fuel, w)
      | S fuel' =>
          runners <- foldM (scan timeout debug) (dict_keys (manifests p)) runners ;;
          deployment_loop fuel' timeout debug runners
      end
  end.

Definition run_deployment (fuel : nat) (timeout : option Z) (debug : bool)
  : M unit :=
  status "phase" "deployment" "start" ;;
  deployment_loop fuel timeout debug [] ;;
  status "phase" "deployment" "end".

(** [drone.clean()] *)
Definition clean_drone (hd : host * Drone) : M unit :=
  emit (Clean (fst hd)) ;;
  match clean (snd hd) with
  | None => ret tt
  | Some e => raise e
  end.

Definition run_cleanup : M unit :=
  status "phase" "cleanup" "start" ;;
  call_phase_method "run_phase" "clean" ;;
  ds <- (fun w => (Val (_drones w), w)) ;;
  forM clean_drone ds ;;
  status "phase" "cleanuo" "end".

End Controller.
Export Controller.

(** * Reasoning about computations *)

(** A triple with one postcondition per way of ending.  No method of the
    controller catches an exception, so an exception (or running out of
    iterations) passes through every continuation untouched. *)
Definition triple {A} (P : World -> Prop) (m : M A)
    (Q : A -> World -> Prop) (E : exn -> World -> Prop) (F : World -> Prop)
  : Prop :=
  forall w, P w ->
    match m w with
    | (Val a, w') => Q a w'
    | (Exc e, w') => E e w'
    | (Fuel, w') => F w'
    end.

Lemma triple_ret {A} (P : World -> Prop) (a : A) (Q : A -> World -> Prop)
    (E : exn -> World -> Prop) (F : World -> Prop) :
  (forall w, P w -> Q a w) -> triple P (ret a) Q E F.
Proof. intros H w Hw. simpl. auto. Qed.

Lemma triple_raise {A} (P : World -> Prop) (e : exn) (Q : A -> World -> Prop)
    (E : exn -> World -> Prop) (F : World -> Prop) :
  (forall w, P w -> E e w) -> triple P (raise e) Q E F.
Proof. intros H w Hw. simpl. auto. Qed.

Lemma triple_bind {A B} (P : World -> Prop) (m : M A) (f : A -> M B)
    (Q1 : A -> World -> Prop) (Q : B -> World -> Prop)
    (E : exn -> World -> Prop) (F : World -> Prop) :
  triple P m Q1 E F ->
  (forall a, triple (Q1 a) (f a) Q E F) ->
  triple P (bind m f) Q E F.
Proof.
  intros Hm Hf w Hw. unfold bind. specialize (Hm w Hw).
  destruct (m w) as [[a | e |] w']; auto.
  apply (Hf a w' Hm).
Qed.

(** The loop rule: [I] holds of the accumulator before each iteration. *)
Lemma triple_foldM {A B} (I : B -> World -> Prop) (body : B -> A -> M B)
    (E : exn -> World -> Prop) (F : World -> Prop) l :
  (forall b x, x ∈ l -> triple (I b) (body b x) I E F) ->
  forall b, triple (I b) (foldM body l b) I E F.
Proof.
  induction l as [|x l IH]; intros Hbody b.
  - simpl. apply triple_ret. auto.
  - simpl. eapply triple_bind.
    + apply Hbody. left.
    + intros b'. apply IH. intros b0 y Hy. apply Hbody. right. exact Hy.
Qed.

(** ** The primitive operations *)

(** How the first segment of a task ends, and what is left of it. *)
Fixpoint segment (t : task unit) : outcome * option (task unit) :=
  match t with
  | Ret _ => (Died, None)
  | Raise e => (Raised e, None)
  | Yield k => (Yielded, Some k)
  | Act _ k => segment k
  end.

(** The entries a segment leaves in the log before control comes back. *)
Fixpoint segment_log (g : gid) (t : task unit) : list entry :=
  match t with
  | Act (Effect what) k => Did g what :: segment_log g k
  | Act (SetInfo _ _) k => segment_log g k
  | _ => []
  end.

Definition stamp (p : Plan) (l : list entry) : list (entry * Plan) :=
  map (fun e => (e, p)) l.

Lemma resume_spec g t w :
  let w' := snd (resume g t w) in
  fst (resume g t w) =
    match fst (segment t) with
    | Raised e => Exc e
    | _ => Val tt
    end /\
  _plan w' = _plan w /\
  _callbacks w' = _callbacks w /\
  _plugins w' = _plugins w /\
  _drones w' = _drones w /\
  heap w' = <[g := snd (segment t)]> (heap w) /\
  log w' = log w ++ stamp (_plan w)
             (segment_log g t ++ [Switch g (fst (segment t))]).
Proof.
  revert w. induction t as [a | e | k IH | a k IH]; intros w; simpl.
  - repeat split; reflexivity.
  - repeat split; reflexivity.
  - repeat split; reflexivity.
  - specialize (IH (do_action g a w)). simpl in IH.
    destruct IH as (H1 & H2 & H3 & H4 & H5 & H6 & H7).
    rewrite H1, H2, H3, H4, H5, H6, H7.
    destruct a as [h f | what]; simpl; repeat split; try reflexivity.
    rewrite <- app_assoc. reflexivity.
Qed.

Lemma status_spec ty nm st w :
  status ty nm st w =
    match _callbacks w with
    | None => (Exc (KeyError (PStr "status")), w)
    | Some cb =>
        (match cb (ty, nm, st) with None => Val tt | Some e => Exc e end,
         logged (Status (ty, nm, st)) w)
    end.
Proof.
  unfold status. destruct (_callbacks w) as [cb|]; [|reflexivity].
  destruct (cb _); reflexivity.
Qed.

(** ** Properties of the world that every scheduling step keeps *)

Section Preserved.

(** A property that survives one more log entry and does not depend on
    the heap or on the host facts. *)
Variable I : World -> Prop.
Hypothesis I_logged : forall e w, I w -> I (logged e w).
Hypothesis I_heap : forall h w, I w -> I (with_heap h w).
Hypothesis I_info : forall i w, I w -> I (with_info i w).

Definition preserved {A} (m : M A) : Prop := forall w, I w -> I (snd (m w)).

Lemma preserved_ret {A} (a : A) : preserved (ret a).
Proof. intros w H. exact H. Qed.

Lemma preserved_lift {A} (r : exn + A) : preserved (lift r).
Proof. intros w H. destruct r; exact H. Qed.

Lemma preserved_read {A} (f : World -> A) : preserved (fun w => (Val (f w), w)).
Proof. intros w H. exact H. Qed.

Lemma preserved_bind {A B} (m : M A) (k : A -> M B) :
  preserved m -> (forall a, preserved (k a)) -> preserved (bind m k).
Proof.
  intros Hm Hk w Hw. unfold bind. specialize (Hm w Hw).
  destruct (m w) as [[a | e |] w']; simpl in *; auto.
  apply Hk, Hm.
Qed.

Lemma preserved_foldM {A B} (body : B -> A -> M B) l :
  (forall b x, preserved (body b x)) -> forall b, preserved (foldM body l b).
Proof.
  intros Hb. induction l as [|x l IH]; intros b; simpl.
  - apply preserved_ret.
  - apply preserved_bind; auto.
Qed.

Lemma preserved_status ty nm st : preserved (status ty nm st).
Proof.
  intros w H. rewrite status_spec.
  destruct (_callbacks w) as [cb|]; [|exact H]. apply I_logged, H.
Qed.

Lemma preserved_spawn l t : preserved (spawn l t).
Proof. intros w H. apply I_logged, I_heap, H. Qed.

Lemma preserved_resume g t : forall w, I w -> I (snd (resume g t w)).
Proof.
  induction t as [a | e | k IH | a k IH]; intros w H; simpl;
    try (apply I_logged, I_heap, H).
  apply IH. destruct a; simpl; [apply I_info, H | apply I_logged, H].
Qed.

Lemma preserved_switch g : preserved (switch g).
Proof.
  intros w H. unfold switch.
  destruct (heap w !! g) as [[t|]|]; try exact H.
  apply preserved_resume, H.
Qed.

Lemma preserved_wait_pass snapshot :
  forall runners, preserved (wait_pass snapshot runners).
Proof.
  induction snapshot as [|run rest IH]; intros runners; simpl.
  - apply preserved_ret.
  - apply preserved_bind; [apply preserved_read|].
    intros [|]; [apply IH|].
    apply preserved_bind; [apply preserved_switch | intros _; apply IH].
Qed.

Lemma preserved_run_step_on_hosts step : preserved (run_step_on_hosts step).
Proof.
  unfold run_step_on_hosts.
  apply preserved_bind; [apply preserved_read|]. intros ds.
  apply preserved_bind.
  - apply preserved_foldM. intros b x.
    apply preserved_bind; [apply preserved_spawn|]. intros run.
    apply preserved_bind; [apply preserved_switch|]. intros _.
    apply preserved_ret.
  - intros rs. apply preserved_bind; [apply preserved_wait_pass|].
    intros _. apply preserved_ret.
Qed.



End Preserved.

(** * Concrete controllers *)

(** A status callback that accepts every event. *)
Definition quiet : event -> option exn := fun _ => None.

(** A host agent whose operations leave a mark in the log; its deploy
    task yields once before it completes. *)
Definition agent : Drone :=
  {| init_host := Act (Effect "init_host") (Ret tt);
     discover := Act (Effect "discover") (Ret "facts");
     configure := Act (Effect "configure") (Ret tt);
     make_build := Act (Effect "make_build") (Ret tt);
     deploy := fun _ _ _ =>
       Act (Effect "deploy:1") (Yield (Act (Effect "deploy:2") (Ret tt)));
     clean := None |}.

(** A step that hands control back twice before it completes. *)
Definition slow_task : task unit :=
  Act (Effect "slow:1")
    (Yield (Act (Effect "slow:2")
      (Yield (Act (Effect "slow:3") (Ret tt))))).

Definition slow_step : Step :=
  {| func_name := "slow"; host_call := fun _ => slow_task;
     plan_call := fun _ => inr None |}.

Definition quick_step : Step :=
  {| func_name := "quick";
     host_call := fun _ => Act (Effect "quick:1") (Ret tt);
     plan_call := fun _ => inr None |}.

(** The plan step of the scenario of the specification. *)
Definition scenario_step : Step :=
  {| func_name := "scenario"; host_call := fun _ => Ret tt;
     plan_call := fun _ => inr (Some
       [ {| r_host := "host1"; r_manifest := "m1";
            r_marker := PStr "markerA"; r_prereqs := None |};
         {| r_host := "host2"; r_manifest := "m2";
            r_marker := PStr "markerB";
            r_prereqs := Some [PStr "markerA"] |} ]) |}.

Definition sample_plugin : PluginData :=
  {| name := "sample"; modules := []; resources := [];
     init_steps := [slow_step; quick_step]; prep_steps := [];
     plan_steps := [scenario_step]; clean_steps := [quick_step] |}.

Definition sample_drones : list (host * Drone) :=
  [("host1", agent); ("host2", agent)].

(** The controller right after construction: no callback yet. *)
Definition fresh_controller : World :=
  {| _callbacks := None; _plugins := [sample_plugin];
     _drones := sample_drones; _info := [];
     _plan := empty_plan; heap := []; log := [] |}.

Lemma fresh_controller_init :
  __init__ [sample_plugin] sample_drones = inr fresh_controller.
Proof. reflexivity. Qed.

Definition sample_controller : World :=
  register_status_callback quiet fresh_controller.

Definition entries (w : World) : list entry := map fst (log w).

(** The status events among the log entries, in order. *)
Fixpoint statuses (l : list entry) : list event :=
  match l with
  | [] => []
  | Status e :: l' => e :: statuses l'
  | _ :: l' => statuses l'
  end.

(** * The plan phase *)

(** What the record loop does before it reaches the dependency map: the
    manifest is registered, the marker is in [waiting] and the pair is
    appended to [manifests[marker]]. *)
Definition recorded (r : PlanRecord) (w : World) : World :=
  let w1 := logged (AddManifest (r_host r) (r_manifest r)) w in
  with_plan
    (with_manifests
       (manifests_append (manifests (_plan w)) (r_marker r)
          (r_host r, r_manifest r))
       (with_waiting (set_add (r_marker r) (waiting (_plan w))) (_plan w)))
    w1.

Lemma plan_record_without_key r w :
  dependency (_plan w) = None ->
  is_Some (drone_get (_drones w) (r_host r)) ->
  plan_record r w = (Exc (KeyError (PStr "dependency")), recorded r w).
Proof.
  intros Hdep [d Hd]. unfold plan_record, bind, drone_of.
  rewrite Hd. simpl. rewrite Hdep. reflexivity.
Qed.

(** With the key ['dependency'] in the dictionary the loop body goes
    through and unions the prerequisites into [dependency[marker]]. *)
Lemma plan_record_with_key r w deps :
  dependency (_plan w) = Some deps ->
  is_Some (drone_get (_drones w) (r_host r)) ->
  plan_record r w =
    (Val tt,
     with_plan
       (with_dependency
          (dependency_update deps (r_marker r)
             (match r_prereqs r with Some l => l | None => [] end))
          (_plan (recorded r w)))
       (recorded r w)).
Proof.
  intros Hdep [d Hd]. unfold plan_record, bind, drone_of.
  rewrite Hd. simpl. rewrite Hdep. reflexivity.
Qed.

(** C3 (the code departs from the claim): on a controller built by
    [__init__], the plan phase of the scenario of the specification
    registers the first manifest, puts [markerA] in [waiting] and appends
    the pair to [manifests], and then raises [KeyError] on the key
    ['dependency'], which [__init__] spelt ['dependecy']: no prerequisite
    is ever recorded and the second record is never reached. *)
Theorem C3_plan_phase_stops_at_dependency :
  let out := _run_phase "plan" sample_controller in
  fst out = Exc (KeyError (PStr "dependency")) /\
  entries (snd out) =
    [Status ("phase", "plan", "start"); Status ("step", "scenario", "start");
     AddManifest "host1" "m1"] /\
  _plan (snd out) =
    {| manifests := [(PStr "markerA", [("host1", "m1")])];
       dependecy := []; dependency := None;
       waiting := [PStr "markerA"]; in_progress := []; finished := [] |}.
Proof. vm_compute. repeat split; reflexivity. Qed.

(** * The draining primitive *)

(** A started greenlet of [slow_step], as line 146 leaves it. *)
Definition slow_started : World :=
  snd ((run <- spawn (LStep "slow" "host1") slow_task ;; switch run)
         sample_controller).

(** C4 (the code departs from the claim): [wait_for_runners] makes one
    pass.  A runner that yields twice is resumed once and is still alive,
    and still in the set, when the call returns; in the init phase the
    step [quick] starts while the tasks of [slow] are suspended before
    their last action, which never runs, and [_install_puppet] never
    reaches [configure]. *)
Theorem C4_wait_for_runners_single_pass :
  let out := wait_for_runners [0] slow_started in
  fst out = Val [0] /\
  heap (snd out) !! 0 = Some (Some (Act (Effect "slow:3") (Ret tt))) /\
  let ph := _run_phase "init" sample_controller in
  fst ph = Val tt /\
  entries (snd ph) =
    [Status ("phase", "init", "start");
     Status ("step", "slow", "start");
     Spawn 0 (LStep "slow" "host1"); Did 0 "slow:1"; Switch 0 Yielded;
     Spawn 1 (LStep "slow" "host2"); Did 1 "slow:1"; Switch 1 Yielded;
     Did 0 "slow:2"; Switch 0 Yielded;
     Did 1 "slow:2"; Switch 1 Yielded;
     Status ("step", "slow", "end");
     Status ("step", "quick", "start");
     Spawn 2 (LStep "quick" "host1"); Did 2 "quick:1"; Switch 2 Died;
     Spawn 3 (LStep "quick" "host2"); Did 3 "quick:1"; Switch 3 Died;
     Status ("step", "quick", "end");
     Spawn 4 (LInstallPuppet "host1"); Did 4 "init_host"; Switch 4 Yielded;
     Spawn 5 (LInstallPuppet "host2"); Did 5 "init_host"; Switch 5 Yielded;
     Did 4 "discover"; Switch 4 Yielded;
     Did 5 "discover"; Switch 5 Yielded;
     Status ("phase", "init", "end")] /\
  heap (snd ph) !! 0 = Some (Some (Act (Effect "slow:3") (Ret tt))) /\
  heap (snd ph) !! 4 = Some (Some (Act (Effect "configure") (Ret tt))).
Proof. vm_compute. repeat split; reflexivity. Qed.

(** * The public phase methods *)

Definition cleanup_start : entry := Status ("phase", "cleanup", "start").

Lemma run_init_raises (w : World) :
  run_init w = (Exc (AttributeError "run_phase"), w).
Proof. reflexivity. Qed.

Lemma run_cleanup_cases (w : World) :
  match _callbacks w with
  | None => run_cleanup w = (Exc (KeyError (PStr "status")), w)
  | Some cb =>
      match cb ("phase", "cleanup", "start") with
      | None =>
          run_cleanup w =
            (Exc (AttributeError "run_phase"), logged cleanup_start w)
      | Some e => run_cleanup w = (Exc e, logged cleanup_start w)
      end
  end.
Proof.
  unfold run_cleanup, bind, status.
  destruct (_callbacks w) as [cb|]; [|reflexivity].
  destruct (cb _); reflexivity.
Qed.

(** C8, counterexample: on a controller without a registered status
    callback [run_cleanup] raises [KeyError] from the callback lookup of
    its first statement, not [AttributeError]. *)
Lemma C8_cleanup_without_callback :
  fst (run_cleanup fresh_controller) = Exc (KeyError (PStr "status")) /\
  ~ (exists attr, fst (run_cleanup fresh_controller) = Exc (AttributeError attr)).
Proof.
  split; [reflexivity|]. intros [attr H]. vm_compute in H. discriminate H.
Qed.

(** C8, as amended: [run_init] always raises [AttributeError] for
    [run_phase] and changes nothing.  [run_cleanup] always raises before
    any step of a phase runs: [KeyError] when no status callback is
    registered, the callback's own exception when it rejects the start
    event, and otherwise [AttributeError] for [run_phase], the start event
    being the only thing that happened. *)
Theorem C8_run_init_run_cleanup_raise (w : World) :
  run_init w = (Exc (AttributeError "run_phase"), w) /\
  match _callbacks w with
  | None => run_cleanup w = (Exc (KeyError (PStr "status")), w)
  | Some cb =>
      match cb ("phase", "cleanup", "start") with
      | None =>
          run_cleanup w =
            (Exc (AttributeError "run_phase"), logged cleanup_start w)
      | Some e => run_cleanup w = (Exc e, logged cleanup_start w)
      end
  end.
Proof. split; [apply run_init_raises | apply run_cleanup_cases]. Qed.

(** C10, counterexample: with a callback that accepts every event,
    [run_cleanup] delivers the start event and nothing else; no event
    named ['cleanuo'] is ever emitted. *)
Lemma C10_no_cleanuo_event :
  entries (snd (run_cleanup sample_controller)) = [cleanup_start] /\
  ~ In (Status ("phase", "cleanuo", "end"))
       (entries (snd (run_cleanup sample_controller))).
Proof.
  split; [reflexivity|]. vm_compute. intros [H | []]. discriminate H.
Qed.

(** C10, as amended: [run_cleanup] emits at most the start event of
    ['cleanup'] and then raises; the statement that would emit the end
    event, written with the unit name ['cleanuo'], is never reached, so no
    end event of the cleanup phase is observed under either name. *)
Theorem C10_cleanup_emits_no_end_event (w : World) :
  (exists e, fst (run_cleanup w) = Exc e) /\
  (log (snd (run_cleanup w)) = log w \/
   log (snd (run_cleanup w)) = log w ++ [(cleanup_start, _plan w)]) /\
  (forall cb, _callbacks w = Some cb ->
     log (snd (run_cleanup w)) = log w ++ [(cleanup_start, _plan w)]) /\
  (forall nm p, ~ In (Status ("phase", nm, "end"), p)
                     (drop (List.length (log w)) (log (snd (run_cleanup w))))).
Proof.
  pose proof (run_cleanup_cases w) as H.
  destruct (_callbacks w) as [cb|] eqn:Hcb.
  - assert (Hlog : log (snd (run_cleanup w)) = log w ++ [(cleanup_start, _plan w)]).
    { destruct (cb _); rewrite H; reflexivity. }
    split; [destruct (cb _); rewrite H; eauto|].
    split; [right; exact Hlog|].
    split; [intros _ _; exact Hlog|].
    intros nm p. rewrite Hlog, drop_app_length. intros [E | []]. discriminate E.
  - rewrite H. simpl. split; [eauto|]. split; [left; reflexivity|].
    split; [intros cb; discriminate|].
    intros nm p. rewrite drop_all. intros [].
Qed.

(** * Controllers that the methods can build *)



Lemma set_in_true x s : set_in x s = true <-> x ∈ s.
Proof. unfold set_in. apply bool_decide_eq_true. Qed.

Lemma set_in_false x s : set_in x s = false <-> x ∉ s.
Proof. unfold set_in. apply bool_decide_eq_false. Qed.

Lemma elem_of_set_add x y s : x ∈ set_add y s <-> x = y \/ x ∈ s.
Proof.
  unfold set_add. destruct (set_in y s) eqn:E.
  - apply set_in_true in E. split; [auto|]. intros [->|]; auto.
  - rewrite elem_of_app, list_elem_of_singleton. tauto.
Qed.

Lemma elem_of_set_remove x y s s' :
  set_remove y s = inr s' -> x ∈ s' <-> x ∈ s /\ x <> y.
Proof.
  unfold set_remove. destruct (set_in y s); [|discriminate].
  intros [= <-]. rewrite list_elem_of_filter. tauto.
Qed.

Lemma set_remove_inr y s s' : set_remove y s = inr s' -> y ∈ s.
Proof.
  unfold set_remove. destruct (set_in y s) eqn:E; [|discriminate].
  intros _. apply set_in_true, E.
Qed.

Lemma elem_of_set_diff x a b : x ∈ set_diff a b <-> x ∈ a /\ x ∉ b.
Proof. unfold set_diff. rewrite list_elem_of_filter. tauto. Qed.





(** ** The executor on a plan built by the methods *)




Definition deployment_start : entry := Status ("phase", "deployment", "start").


Lemma run_deployment_unfold fuel timeout debug w :
  run_deployment fuel timeout debug w =
    match status "phase" "deployment" "start" w with
    | (Val _, w1) =>
        match deployment_loop fuel timeout debug [] w1 with
        | (Val _, w2) => status "phase" "deployment" "end" w2
        | (Exc e, w2) => (Exc e, w2)
        | (Fuel, w2) => (Fuel, w2)
        end
    | (Exc e, w1) => (Exc e, w1)
    | (Fuel, w1) => (Fuel, w1)
    end.
Proof. reflexivity. Qed.








(** * Plans on which no marker can start *)

(** A key of [manifests] that a scan passes over: it unpacks into a
    marker that is finished, or one of whose prerequisites is not. *)
Definition blocked (p : Plan) (key : pyval) : Prop :=
  exists marker mans,
    unpack2 key = inr (marker, mans) /\
    (marker ∈ finished p \/
     exists d deps,
       dependency p = Some d /\ dict_get d marker = Some deps /\
       set_diff deps (finished p) <> []).

(** Work is left and every key is blocked: a dependency cycle, or a
    prerequisite that no marker provides. *)
Definition deadlocked (p : Plan) : Prop :=
  (waiting p <> [] \/ in_progress p <> []) /\
  Forall (blocked p) (dict_keys (manifests p)).

Lemma scan_blocked timeout debug runners key w :
  blocked (_plan w) key ->
  scan timeout debug runners key w = (Val runners, w).
Proof.
  intros (marker & mans & Hu & H). unfold scan, bind, lift. rewrite Hu.
  simpl. destruct (set_in marker (finished (_plan w))) eqn:Hin; [reflexivity|].
  destruct H as [H | (d & deps & Hd & Hg & Hdiff)].
  - apply set_in_false in Hin. contradiction.
  - unfold dependency_of, bind. simpl. rewrite Hd, Hg. simpl.
    destruct (set_diff deps (finished (_plan w))); [congruence | reflexivity].
Qed.

Lemma scan_all_blocked timeout debug keys : forall runners w,
  Forall (blocked (_plan w)) keys ->
  foldM (scan timeout debug) keys runners w = (Val runners, w).
Proof.
  induction keys as [|key keys IH]; intros runners w H.
  - reflexivity.
  - inversion H as [|? ? Hk Hks]; subst. simpl. unfold bind.
    rewrite scan_blocked by exact Hk. apply IH, Hks.
Qed.

Lemma deployment_loop_deadlocked timeout debug w :
  deadlocked (_plan w) ->
  forall fuel runners,
    deployment_loop fuel timeout debug runners w = (Fuel, w).
Proof.
  intros [Hwork Hall]. induction fuel as [|fuel IH]; intros runners.
  - simpl. unfold bind. simpl.
    destruct (waiting (_plan w)); [|reflexivity].
    destruct (in_progress (_plan w)); [|reflexivity].
    destruct Hwork; congruence.
  - simpl. unfold bind at 1. simpl.
    assert (forall k : M unit,
      (match waiting (_plan w), in_progress (_plan w) with
       | [], [] => ret tt
       | _, _ => k
       end) w = k w) as Hk.
    { intros k. destruct (waiting (_plan w)); [|reflexivity].
      destruct (in_progress (_plan w)); [|reflexivity].
      destruct Hwork; congruence. }
    rewrite Hk. unfold bind. rewrite scan_all_blocked by exact Hall.
    apply IH.
Qed.

Lemma run_deployment_deadlocked timeout debug w cb :
  _callbacks w = Some cb ->
  cb ("phase", "deployment", "start") = None ->
  deadlocked (_plan w) ->
  forall fuel,
    run_deployment fuel timeout debug w = (Fuel, logged deployment_start w).
Proof.
  intros Hcb Hok Hd fuel.
  rewrite run_deployment_unfold, status_spec, Hcb, Hok.
  change (logged (Status ("phase", "deployment", "start")) w)
    with (logged deployment_start w).
  rewrite deployment_loop_deadlocked by exact Hd. reflexivity.
Qed.

(** A plan with the cycle [A] requires [B], [B] requires [A], in the
    shape the scan can read: the keys of [manifests] are pairs of a marker
    and its [(host, manifest)] pairs. *)
Definition cyclic_plan : Plan :=
  {| manifests :=
       [(PTuple [PStr "A"; PTuple [PTuple [PStr "host1"; PStr "m1"]]], []);
        (PTuple [PStr "B"; PTuple [PTuple [PStr "host2"; PStr "m2"]]], [])];
     dependecy := [];
     dependency := Some [(PStr "A", [PStr "B"]); (PStr "B", [PStr "A"])];
     waiting := [PStr "A"; PStr "B"]; in_progress := []; finished := [] |}.

Definition cyclic_controller : World := with_plan cyclic_plan sample_controller.

Lemma cyclic_plan_deadlocked : deadlocked cyclic_plan.
Proof.
  split; [left; discriminate|].
  repeat constructor.
  - exists (PStr "A"), (PTuple [PTuple [PStr "host1"; PStr "m1"]]).
    split; [reflexivity|]. right.
    exists [(PStr "A", [PStr "B"]); (PStr "B", [PStr "A"])], [PStr "B"].
    repeat split; try reflexivity. vm_compute. discriminate.
  - exists (PStr "B"), (PTuple [PTuple [PStr "host2"; PStr "m2"]]).
    split; [reflexivity|]. right.
    exists [(PStr "A", [PStr "B"]); (PStr "B", [PStr "A"])], [PStr "A"].
    repeat split; try reflexivity. vm_compute. discriminate.
Qed.

(** C5, counterexample: on the cyclic plan the executor neither returns
    nor raises, however many scans it is given. *)
Lemma C5_cycle_never_ends :
  ~ exists fuel,
      fst (run_deployment fuel None false cyclic_controller) <> Fuel.
Proof.
  intros [fuel H]. apply H.
  rewrite (run_deployment_deadlocked None false cyclic_controller quiet);
    [reflexivity | reflexivity | reflexivity | exact cyclic_plan_deadlocked].
Qed.

(** C5, as amended: the executor has no deadlock detection.  When work
    is left and every key of [manifests] is passed over (its marker is
    finished, or waits for a prerequisite that is not), a scan changes
    nothing and the loop goes on without end: whatever the number of
    scans, [run_deployment] has neither returned nor raised, and the
    world is the one right after the start event. *)
Theorem C5_deadlock_is_not_detected (w : World) (timeout : option Z)
    (debug : bool) (cb : event -> option exn) :
  _callbacks w = Some cb ->
  cb ("phase", "deployment", "start") = None ->
  deadlocked (_plan w) ->
  forall fuel,
    run_deployment fuel timeout debug w = (Fuel, logged deployment_start w).
Proof. apply run_deployment_deadlocked. Qed.

Lemma C5_witness :
  _callbacks cyclic_controller = Some quiet /\
  quiet ("phase", "deployment", "start") = None /\
  deadlocked (_plan cyclic_controller) /\
  run_deployment 7 None false cyclic_controller
    = (Fuel, logged deployment_start cyclic_controller).
Proof.
  split; [reflexivity|]. split; [reflexivity|].
  split; [exact cyclic_plan_deadlocked|].
  apply (C5_deadlock_is_not_detected cyclic_controller None false quiet);
    [reflexivity | reflexivity | exact cyclic_plan_deadlocked].
Defined.

(** * The events of a phase *)



Lemma forM_cons {A} (body : A -> M unit) x l w :
  forM body (x :: l) w = bind (body x) (fun _ => forM body l) w.
Proof.
  unfold forM. simpl. unfold bind.
  destruct (body x w) as [[[] | e |] w']; reflexivity.
Qed.



Lemma statuses_app l1 l2 : statuses (l1 ++ l2) = statuses l1 ++ statuses l2.
Proof.
  induction l1 as [|[] l1 IH]; simpl; rewrite ?IH; reflexivity.
Qed.


(** [w'] comes after [w0] with the same callback, plugins and drones,
    the status events [evs] having been delivered in between. *)
Definition after (w0 : World) (evs : list event) (w' : World) : Prop :=
  _callbacks w' = _callbacks w0 /\ _plugins w' = _plugins w0 /\
  _drones w' = _drones w0 /\
  exists ents, log w' = log w0 ++ ents /\ statuses (map fst ents) = evs.



Lemma statuses_stamp_segment p g t o :
  statuses (map fst (stamp p (segment_log g t ++ [Switch g o]))) = [].
Proof.
  unfold stamp. rewrite map_map. simpl. rewrite map_id.
  rewrite statuses_app. simpl. rewrite app_nil_r.
  induction t as [a | e | k IH | [h f | what] k IH]; simpl; auto.
Qed.










(** * The plan during deployment *)

(** The invariant of the plan: the three sets cover exactly the keys of
    [manifests] and are pairwise disjoint. *)
Definition inv_plan (p : Plan) : Prop :=
  (forall m, m ∈ waiting p \/ m ∈ in_progress p \/ m ∈ finished p
             <-> m ∈ dict_keys (manifests p)) /\
  (forall m, ~ (m ∈ waiting p /\ m ∈ in_progress p)) /\
  (forall m, ~ (m ∈ waiting p /\ m ∈ finished p)) /\
  (forall m, ~ (m ∈ in_progress p /\ m ∈ finished p)).

(** A marker only moves forward: nothing enters [waiting], nothing
    leaves [finished]. *)
Definition mono (q q' : Plan) : Prop :=
  (forall m, m ∈ waiting q' -> m ∈ waiting q) /\
  (forall m, m ∈ finished q -> m ∈ finished q').

(** Every prerequisite recorded for [m] is finished. *)
Definition deps_met (q : Plan) (m : pyval) : Prop :=
  exists d deps,
    dependency q = Some d /\ dict_get d m = Some deps /\
    forall a, a ∈ deps -> a ∈ finished q.

Definition ents (l : list (entry * Plan)) : list entry := map fst l.

(** A deploy greenlet [g] was created for marker [m]. *)
Definition spawned (l : list (entry * Plan)) (g : gid) (m : pyval) : Prop :=
  exists h mf, Spawn g (LDeploy m h mf) ∈ ents l.

(** Greenlet [g] returned. *)
Definition died (l : list (entry * Plan)) (g : gid) : Prop :=
  Switch g Died ∈ ents l.

Lemma mono_refl q : mono q q.
Proof. split; auto. Qed.

Lemma ents_app l1 l2 : ents (l1 ++ l2) = ents l1 ++ ents l2.
Proof. apply map_app. Qed.

Lemma spawned_app_l l1 l2 g m : spawned l1 g m -> spawned (l1 ++ l2) g m.
Proof.
  intros (h & mf & H). exists h, mf. rewrite ents_app, elem_of_app. auto.
Qed.

Lemma died_app_l l1 l2 g : died l1 g -> died (l1 ++ l2) g.
Proof. unfold died. rewrite ents_app, elem_of_app. auto. Qed.

Lemma dict_get_set_eq {V} (d : dict V) k v : dict_get (dict_set d k v) k = Some v.
Proof.
  induction d as [|[k' v'] d IH]; simpl.
  - rewrite decide_True by reflexivity. reflexivity.
  - destruct (decide (k' = k)) as [->|Hne]; simpl.
    + rewrite decide_True by reflexivity. reflexivity.
    + rewrite decide_False by exact Hne. exact IH.
Qed.

Lemma dict_get_set_ne {V} (d : dict V) k k' v :
  k <> k' -> dict_get (dict_set d k v) k' = dict_get d k'.
Proof.
  intros Hne. induction d as [|[k1 v1] d IH]; simpl.
  - rewrite decide_False by exact Hne. reflexivity.
  - destruct (decide (k1 = k)) as [->|Hne1]; simpl.
    + rewrite !decide_False by exact Hne. reflexivity.
    + destruct (decide (k1 = k')); [reflexivity | exact IH].
Qed.

Section Executor.

(** The log and the plan at the moment [run_deployment] is called. *)
Variable l0 : list (entry * Plan).
Variable p0 : Plan.

(** What holds of the plan [p] after the interactions [new]. *)
Record cur (new : list (entry * Plan)) (p : Plan) : Prop := {
  cur_manifests : manifests p = manifests p0;
  cur_dependency : dependency p = dependency p0;
  cur_mono0 : mono p0 p;
  cur_mono : forall e q, (e, q) ∈ new -> mono q p;
  cur_inv : inv_plan p0 -> inv_plan p;
  cur_deps : forall m, m ∈ in_progress p -> m ∉ in_progress p0 -> deps_met p m;
  cur_done : forall m, m ∈ finished p -> m ∉ finished p0 ->
    (exists g, spawned new g m) /\ (forall g, spawned new g m -> died new g);
  cur_seen : forall m, m ∈ finished p -> m ∉ finished p0 ->
    exists e q, (e, q) ∈ new /\ m ∈ in_progress q;
}.

(** A deploy greenlet is created for a marker that is in progress, not
    finished, and whose prerequisites are. *)
Definition ent_ok (e : entry) (q : Plan) : Prop :=
  forall g m h mf, e = Spawn g (LDeploy m h mf) ->
    deps_met q m /\ (m ∉ finished q) /\ m ∈ in_progress q.

(** Every logged interaction saw a plan of which [cur] held. *)
Definition hist (new : list (entry * Plan)) : Prop :=
  forall l1 e q l2, new = l1 ++ (e, q) :: l2 -> cur l1 q /\ ent_ok e q.

(** What holds of the local dictionary [runners] of [run_deployment]. *)
Record loc (R : dict (list gid)) (new : list (entry * Plan)) (w : World)
  : Prop := {
  loc_tracked : forall g m, spawned new g m ->
    exists rs, dict_get R m = Some rs /\ (g ∈ rs \/ died new g);
  loc_alive : forall m rs g, dict_get R m = Some rs -> g ∈ rs ->
    (exists t, heap w !! g = Some (Some t)) \/ died new g;
  loc_started : forall m rs, dict_get R m = Some rs -> exists g, spawned new g m;
  loc_label : forall m rs g, dict_get R m = Some rs -> g ∈ rs -> spawned new g m;
  loc_quiet : forall g e, Switch g (Raised e) ∉ ents new;
  loc_fresh : forall g l, Spawn g l ∈ ents new -> g < List.length (heap w);
  loc_unique : forall g l l',
    Spawn g l ∈ ents new -> Spawn g l' ∈ ents new -> l = l';
  loc_stage : forall m rs, dict_get R m = Some rs ->
    m ∈ in_progress (_plan w) \/ m ∈ finished (_plan w);
}.

(** An exception that a deploy greenlet raised is the one that ends the
    call, and the marker of that greenlet is not finished. *)
Definition raised_last (e : exn) (new : list (entry * Plan)) (p : Plan)
  : Prop :=
  forall g m e', spawned new g m -> Switch g (Raised e') ∈ ents new ->
    e' = e /\ m ∉ finished p.

Definition St (R : dict (list gid)) (w : World) : Prop :=
  exists new, log w = l0 ++ new /\ hist new /\ cur new (_plan w) /\ loc R new w.

Definition Ex (e : exn) (w : World) : Prop :=
  exists new, log w = l0 ++ new /\ hist new /\ cur new (_plan w) /\
              raised_last e new (_plan w).

Definition Fu (w : World) : Prop :=
  exists new, log w = l0 ++ new /\ hist new /\ cur new (_plan w) /\
              forall g e, Switch g (Raised e) ∉ ents new.

Lemma cur_init : cur [] p0.
Proof.
  constructor; auto using mono_refl.
  - intros e q H. inversion H.
  - intros m H1 H2. exists []. contradiction.
  - intros m H1 H2. contradiction.
  - intros m H1 H2. contradiction.
Qed.

Lemma hist_nil : hist [].
Proof. intros [|] e q l2 H; discriminate H. Qed.

Lemma St_init w : log w = l0 -> _plan w = p0 -> St [] w.
Proof.
  intros Hl Hp. exists []. rewrite app_nil_r, Hp.
  split; [exact Hl|]. split; [exact hist_nil|]. split; [exact cur_init|].
  constructor; simpl; try (intros; discriminate).
  - intros g m (h & mf & H). inversion H.
  - intros g e H. inversion H.
  - intros g l H. inversion H.
  - intros g l l' H. inversion H.
Qed.

Lemma St_Ex R e w : St R w -> Ex e w.
Proof.
  intros (new & Hl & Hh & Hc & HL). exists new.
  split; [exact Hl|]. split; [exact Hh|]. split; [exact Hc|].
  intros g m e' _ Hr. exfalso. eapply (loc_quiet _ _ _ HL). eassumption.
Qed.

Lemma St_Fu R w : St R w -> Fu w.
Proof.
  intros (new & Hl & Hh & Hc & HL). exists new.
  split; [exact Hl|]. split; [exact Hh|]. split; [exact Hc|].
  apply (loc_quiet _ _ _ HL).
Qed.

Lemma hist_snoc new e p : hist new -> cur new p -> ent_ok e p ->
  hist (new ++ [(e, p)]).
Proof.
  intros Hh Hc He l1 e1 q l2 Heq.
  destruct l2 as [|x l2 _] using rev_ind.
  - apply app_inj_tail in Heq as [<- [= <- <-]]. auto.
  - rewrite app_comm_cons, app_assoc in Heq.
    apply app_inj_tail in Heq as [-> _]. eapply Hh. reflexivity.
Qed.

(** Logging an interaction that is not the creation of a deploy
    greenlet for a finished marker keeps [cur]. *)
Lemma cur_snoc new e p :
  cur new p ->
  (forall g m h mf, e = Spawn g (LDeploy m h mf) -> m ∉ finished p) ->
  cur (new ++ [(e, p)]) p.
Proof.
  intros Hc He. destruct Hc. constructor; auto.
  - intros e1 q. rewrite elem_of_app, list_elem_of_singleton.
    intros [H | [= -> ->]]; eauto using mono_refl.
  - intros m H1 H2. destruct (cur_done0 m H1 H2) as [[g Hg] Hall]. split.
    + exists g. apply spawned_app_l, Hg.
    + intros g' (h & mf & Hs). rewrite ents_app, elem_of_app in Hs.
      destruct Hs as [Hs | Hs].
      * apply died_app_l, Hall. exists h, mf. exact Hs.
      * simpl in Hs. apply list_elem_of_singleton in Hs.
        exfalso. eapply He; eauto.
  - intros m H1 H2. destruct (cur_seen0 m H1 H2) as (e1 & q & Hq & Hin).
    exists e1, q. rewrite elem_of_app. auto.
Qed.

Definition Stn (R : dict (list gid)) (new : list (entry * Plan)) (w : World)
  : Prop :=
  log w = l0 ++ new /\ hist new /\ cur new (_plan w) /\ loc R new w.

Lemma Stn_St R new w : Stn R new w -> St R w.
Proof. intros H. exists new. exact H. Qed.

(** [loc] only looks up the dictionary. *)
Lemma loc_ext R R' new w :
  (forall k, dict_get R' k = dict_get R k) -> loc R new w -> loc R' new w.
Proof.
  intros HR []. constructor; auto.
  - intros g m H. rewrite HR. auto.
  - intros m rs g. rewrite HR. eauto.
  - intros m rs. rewrite HR. eauto.
  - intros m rs g. rewrite HR. eauto.
  - intros m rs. rewrite HR. eauto.
Qed.

(** An interaction that creates no greenlet and is not the failure of
    one. *)
Definition inert (e : entry) : Prop :=
  (forall g l, e <> Spawn g l) /\ (forall g x, e <> Switch g (Raised x)).

Lemma spawned_snoc_inert new e p g m :
  inert e -> spawned (new ++ [(e, p)]) g m -> spawned new g m.
Proof.
  intros [Hi _] (h & mf & H). rewrite ents_app, elem_of_app in H.
  destruct H as [H | H]; [exists h, mf; exact H|].
  simpl in H. apply list_elem_of_singleton in H. symmetry in H.
  exfalso. eapply Hi, H.
Qed.

(** One more inert interaction, with a heap in which no greenlet of the
    dictionary stopped being alive without the log saying that it
    returned. *)
Lemma loc_step R new e w w' :
  loc R new w -> inert e ->
  _plan w' = _plan w ->
  List.length (heap w') = List.length (heap w) ->
  (forall g, (exists t, heap w !! g = Some (Some t)) ->
             (exists t, heap w' !! g = Some (Some t))
             \/ died (new ++ [(e, _plan w)]) g) ->
  loc R (new ++ [(e, _plan w)]) w'.
Proof.
  intros [] Hi Hp Hlen Hheap. pose proof Hi as [Hi1 Hi2]. constructor.
  - intros g m Hs. apply spawned_snoc_inert in Hs; [|exact Hi].
    destruct (loc_tracked0 g m Hs) as (rs & Hrs & [H | H]);
      exists rs; split; auto. right. apply died_app_l, H.
  - intros m rs g Hrs Hg.
    destruct (loc_alive0 m rs g Hrs Hg) as [H | H]; [apply Hheap, H|].
    right. apply died_app_l, H.
  - intros m rs Hrs. destruct (loc_started0 m rs Hrs) as [g Hg].
    exists g. apply spawned_app_l, Hg.
  - intros m rs g Hrs Hg. apply spawned_app_l. eauto.
  - intros g x H. rewrite ents_app, elem_of_app in H. destruct H as [H | H].
    + eapply loc_quiet0, H.
    + simpl in H. apply list_elem_of_singleton in H. symmetry in H.
      eapply Hi2, H.
  - intros g l H. rewrite Hlen. rewrite ents_app, elem_of_app in H.
    destruct H as [H | H]; [eauto|].
    simpl in H. apply list_elem_of_singleton in H. symmetry in H.
    exfalso. eapply Hi1, H.
  - intros g l l' H H'. rewrite ents_app, elem_of_app in H, H'. simpl in H, H'.
    rewrite list_elem_of_singleton in H, H'.
    destruct H as [H | H]; [|symmetry in H; exfalso; eapply Hi1, H].
    destruct H' as [H' | H']; [|symmetry in H'; exfalso; eapply Hi1, H'].
    eauto.
  - intros m rs Hrs. rewrite Hp. eauto.
Qed.

Lemma Stn_step R new e w w' :
  Stn R new w -> inert e ->
  _plan w' = _plan w ->
  log w' = log w ++ [(e, _plan w)] ->
  List.length (heap w') = List.length (heap w) ->
  (forall g, (exists t, heap w !! g = Some (Some t)) ->
             (exists t, heap w' !! g = Some (Some t))
             \/ died (new ++ [(e, _plan w)]) g) ->
  Stn R (new ++ [(e, _plan w)]) w'.
Proof.
  intros (Hl & Hh & Hc & HL) Hi Hp Hlog Hlen Hheap.
  assert (ent_ok e (_plan w)) as He.
  { intros g m h mf ->. exfalso. eapply (proj1 Hi). reflexivity. }
  split; [rewrite Hlog, Hl, app_assoc; reflexivity|].
  split; [apply hist_snoc; assumption|].
  split.
  - rewrite Hp. apply cur_snoc; [exact Hc|].
    intros g m h mf ->. exfalso. eapply (proj1 Hi). reflexivity.
  - apply loc_step; assumption.
Qed.

Lemma Stn_logged R new e w :
  Stn R new w -> inert e -> Stn R (new ++ [(e, _plan w)]) (logged e w).
Proof.
  intros H Hi. apply Stn_step; auto.
Qed.

Lemma Stn_with_info R new i w : Stn R new w -> Stn R new (with_info i w).
Proof.
  intros (Hl & Hh & Hc & []). split; [exact Hl|]. split; [exact Hh|].
  split; [exact Hc|]. constructor; auto.
Qed.

Lemma spawned_snoc_other new e p g m :
  (forall g' l, e <> Spawn g' l) ->
  spawned (new ++ [(e, p)]) g m -> spawned new g m.
Proof.
  intros Hi (h & mf & H). rewrite ents_app, elem_of_app in H.
  destruct H as [H | H]; [exists h, mf; exact H|].
  simpl in H. apply list_elem_of_singleton in H. symmetry in H.
  exfalso. eapply Hi, H.
Qed.

(** Running a segment of a deploy greenlet of marker [m]. *)
Lemma resume_St R g m t : forall new w,
  Stn R new w -> (exists t0, heap w !! g = Some (Some t0)) ->
  spawned new g m -> m ∉ finished (_plan w) ->
  match resume g t w with
  | (Val _, w') => exists new', Stn R (new ++ new') w' /\ _plan w' = _plan w
  | (Exc e, w') => Ex e w'
  | (Fuel, _) => False
  end.
Proof.
  induction t as [a | e | k IH | a k IH]; intros new w HS [t0 Hg] Hsp Hfin;
    simpl.
  - exists [(Switch g Died, _plan w)]. split; [|reflexivity].
    apply (Stn_step R new (Switch g Died) w); auto.
    + split; intros; discriminate.
    + simpl. apply length_insert.
    + intros g' [t' Hg']. simpl. destruct (decide (g' = g)) as [->|Hne].
      * right. unfold died. rewrite ents_app, elem_of_app. right. left.
      * left. exists t'. rewrite list_lookup_insert_ne by congruence. exact Hg'.
  - destruct HS as (Hl & Hh & Hc & HL).
    exists (new ++ [(Switch g (Raised e), _plan w)]).
    split; [simpl; rewrite Hl, app_assoc; reflexivity|].
    split; [apply hist_snoc; auto; intros ? ? ? ? ?; discriminate|].
    split; [apply cur_snoc; auto; intros ? ? ? ? ?; discriminate|].
    intros g' m' e' Hsp' Hr. simpl.
    apply spawned_snoc_other in Hsp'; [|intros; discriminate].
    rewrite ents_app, elem_of_app in Hr. destruct Hr as [Hr | Hr].
    { exfalso. eapply (loc_quiet _ _ _ HL), Hr. }
    simpl in Hr. apply list_elem_of_singleton in Hr. injection Hr as -> ->.
    split; [reflexivity|].
    destruct Hsp as (h & mf & H1), Hsp' as (h' & mf' & H2).
    pose proof (loc_unique _ _ _ HL _ _ _ H1 H2) as Heq.
    injection Heq as -> _ _. exact Hfin.
  - exists [(Switch g Yielded, _plan w)]. split; [|reflexivity].
    apply (Stn_step R new (Switch g Yielded) w); auto.
    + split; intros; discriminate.
    + simpl. apply length_insert.
    + intros g' [t' Hg']. simpl. left. destruct (decide (g' = g)) as [->|Hne].
      * exists k. apply list_lookup_insert_eq. eapply lookup_lt_Some, Hg.
      * exists t'. rewrite list_lookup_insert_ne by congruence. exact Hg'.
  - destruct a as [h f | what]; simpl.
    + apply (IH new (with_info (info_set (_info w) h f) w)); auto.
      * apply Stn_with_info, HS.
      * eauto.
    + specialize (IH (new ++ [(Did g what, _plan w)]) (logged (Did g what) w)).
      destruct (resume g k (logged (Did g what) w)) as [[[] | e |] w'].
      * destruct IH as (new' & HS' & Hp).
        -- apply Stn_logged; [exact HS | split; intros; discriminate].
        -- eauto.
        -- apply spawned_app_l, Hsp.
        -- exact Hfin.
        -- exists ((Did g what, _plan w) :: new'). split; [|exact Hp].
           rewrite <- app_assoc in HS'. exact HS'.
      * apply IH; auto.
        -- apply Stn_logged; [exact HS | split; intros; discriminate].
        -- eauto.
        -- apply spawned_app_l, Hsp.
      * apply IH; auto.
        -- apply Stn_logged; [exact HS | split; intros; discriminate].
        -- eauto.
        -- apply spawned_app_l, Hsp.
Qed.

Lemma switch_St R g m new w :
  Stn R new w -> spawned new g m -> m ∉ finished (_plan w) ->
  match switch g w with
  | (Val _, w') => exists new', Stn R (new ++ new') w' /\ _plan w' = _plan w
  | (Exc e, w') => Ex e w'
  | (Fuel, _) => False
  end.
Proof.
  intros HS Hsp Hfin. unfold switch.
  destruct (heap w !! g) as [[t|]|] eqn:Hg.
  - eapply resume_St; eauto.
  - exists []. rewrite app_nil_r. auto.
  - exists []. rewrite app_nil_r. auto.
Qed.

Lemma dict_get_set {V} (d : dict V) k k' v :
  dict_get (dict_set d k v) k' =
    if decide (k = k') then Some v else dict_get d k'.
Proof.
  destruct (decide (k = k')) as [->|Hne].
  - apply dict_get_set_eq.
  - apply dict_get_set_ne, Hne.
Qed.

(** Taking greenlets that returned out of the set of a marker. *)
Lemma loc_shrink R m ws ws' new w :
  loc (dict_set R m ws) new w ->
  (forall g, g ∈ ws' -> g ∈ ws) ->
  (forall g, g ∈ ws -> g ∈ ws' \/ died new g) ->
  loc (dict_set R m ws') new w.
Proof.
  intros [] Hsub Hout. constructor; auto.
  - intros g m' Hs. destruct (loc_tracked0 g m' Hs) as (rs & Hrs & H).
    rewrite dict_get_set in Hrs |- *.
    destruct (decide (m = m')) as [->|Hne]; [|eauto].
    injection Hrs as <-. exists ws'. split; [reflexivity|].
    destruct H as [H | H]; [apply Hout, H | auto].
  - intros m' rs g Hrs Hg. rewrite dict_get_set in Hrs.
    destruct (decide (m = m')) as [->|Hne].
    + injection Hrs as <-. apply (loc_alive0 m' ws g); [|auto].
      apply dict_get_set_eq.
    + apply (loc_alive0 m' rs g); [|auto].
      rewrite dict_get_set_ne by exact Hne. exact Hrs.
  - intros m' rs Hrs. rewrite dict_get_set in Hrs.
    destruct (decide (m = m')) as [->|Hne].
    + apply (loc_started0 m' ws), dict_get_set_eq.
    + apply (loc_started0 m' rs). rewrite dict_get_set_ne by exact Hne. exact Hrs.
  - intros m' rs g Hrs Hg. rewrite dict_get_set in Hrs.
    destruct (decide (m = m')) as [->|Hne].
    + injection Hrs as <-. apply (loc_label0 m' ws g); [|auto].
      apply dict_get_set_eq.
    + apply (loc_label0 m' rs g); [|auto].
      rewrite dict_get_set_ne by exact Hne. exact Hrs.
  - intros m' rs Hrs. rewrite dict_get_set in Hrs.
    destruct (decide (m = m')) as [->|Hne].
    + apply (loc_stage0 m' ws), dict_get_set_eq.
    + apply (loc_stage0 m' rs). rewrite dict_get_set_ne by exact Hne. exact Hrs.
Qed.

Lemma spawned_app_r new new' g m : spawned new g m -> spawned (new ++ new') g m.
Proof. apply spawned_app_l. Qed.

(** One pass of [wait_for_runners] over the greenlets of marker [m]. *)
Lemma wait_pass_St R m snap : forall ws new w,
  Stn (dict_set R m ws) new w ->
  (forall g, g ∈ snap -> spawned new g m) ->
  m ∉ finished (_plan w) ->
  match wait_pass snap ws w with
  | (Val ws', w') =>
      exists new', Stn (dict_set R m ws') (new ++ new') w' /\ _plan w' = _plan w
  | (Exc e, w') => Ex e w'
  | (Fuel, _) => False
  end.
Proof.
  induction snap as [|run rest IH]; intros ws new w HS Hsnap Hfin.
  - simpl. exists []. rewrite app_nil_r. auto.
  - simpl. unfold bind at 1. simpl.
    destruct (heap w !! run) as [[t|]|] eqn:Hrun.
    + (* alive: resumed once *)
      unfold bind.
      pose proof (switch_St _ run m new w HS (Hsnap run ltac:(left)) Hfin) as Hsw.
      destruct (switch run w) as [[[] | e |] w1]; [|exact Hsw | exact Hsw].
      destruct Hsw as (new1 & HS1 & Hp1).
      specialize (IH ws (new ++ new1) w1 HS1).
      destruct (wait_pass rest ws w1) as [[ws' | e |] w2].
      * destruct IH as (new2 & HS2 & Hp2).
        -- intros g Hg. apply spawned_app_r, Hsnap. right. exact Hg.
        -- rewrite Hp1. exact Hfin.
        -- exists (new1 ++ new2). rewrite app_assoc. split; [exact HS2|].
           congruence.
      * apply IH; [|rewrite Hp1; exact Hfin].
        intros g Hg. apply spawned_app_r, Hsnap. right. exact Hg.
      * apply IH; [|rewrite Hp1; exact Hfin].
        intros g Hg. apply spawned_app_r, Hsnap. right. exact Hg.
    + (* dead: removed *)
      apply IH; [|intros g Hg; apply Hsnap; right; exact Hg | exact Hfin].
      destruct HS as (Hl & Hh & Hc & HL). repeat (split; [assumption|]).
      eapply loc_shrink; [exact HL | |].
      * intros g Hg. apply list_elem_of_filter in Hg. tauto.
      * intros g Hg. destruct (decide (g = run)) as [->|Hne].
        -- right.
           destruct (loc_alive _ _ _ HL m ws run (dict_get_set_eq _ _ _) Hg)
             as [[t Ht] | Hd]; [congruence | exact Hd].
        -- left. apply list_elem_of_filter. auto.
    + apply IH; [|intros g Hg; apply Hsnap; right; exact Hg | exact Hfin].
      destruct HS as (Hl & Hh & Hc & HL). repeat (split; [assumption|]).
      eapply loc_shrink; [exact HL | |].
      * intros g Hg. apply list_elem_of_filter in Hg. tauto.
      * intros g Hg. destruct (decide (g = run)) as [->|Hne].
        -- right.
           destruct (loc_alive _ _ _ HL m ws run (dict_get_set_eq _ _ _) Hg)
             as [[t Ht] | Hd]; [congruence | exact Hd].
        -- left. apply list_elem_of_filter. auto.
Qed.

Lemma elem_of_ents_split new e :
  e ∈ ents new -> exists l1 q l2, new = l1 ++ (e, q) :: l2.
Proof.
  intros H. apply list_elem_of_fmap in H as ([e' q] & -> & H).
  apply list_elem_of_split in H as (l1 & l2 & ->). exists l1, q, l2. reflexivity.
Qed.

(** The set of a marker after one more greenlet was added to it. *)
Definition added (R : dict (list gid)) (m : pyval) (g : gid) : dict (list gid) :=
  dict_set R m (match dict_get R m with
                | Some s => s ++ [g]
                | None => [g]
                end).

(** Creating a deploy greenlet for a marker in progress. *)
Lemma spawn_St R new w m h mf t :
  Stn R new w ->
  m ∈ in_progress (_plan w) -> m ∉ finished (_plan w) ->
  deps_met (_plan w) m ->
  let g := List.length (heap w) in
  let w' := snd (spawn (LDeploy m h mf) t w) in
  let new' := new ++ [(Spawn g (LDeploy m h mf), _plan w)] in
  Stn (added R m g) new' w' /\ _plan w' = _plan w /\ spawned new' g m.
Proof.
  intros (Hl & Hh & Hc & HL) Hip Hfin Hdeps g w' new'.
  assert (spawned new' g m) as Hsp.
  { exists h, mf. unfold new'. rewrite ents_app, elem_of_app. right. left. }
  split; [|split; [reflexivity | exact Hsp]].
  split; [unfold new'; simpl; rewrite Hl, app_assoc; reflexivity|].
  split.
  { apply hist_snoc; auto. intros g' m' h' mf' [= _ <- _ _]. auto. }
  split.
  { apply cur_snoc; auto. intros g' m' h' mf' [= _ <- _ _]. exact Hfin. }
  assert (forall g' l, Spawn g' l ∈ ents new' ->
            Spawn g' l ∈ ents new \/ (g' = g /\ l = LDeploy m h mf)) as Hcase.
  { intros g' l H. unfold new' in H. rewrite ents_app, elem_of_app in H.
    destruct H as [H | H]; [left; exact H|]. right.
    simpl in H. apply list_elem_of_singleton in H. injection H as -> ->. auto. }
  assert (forall g' m', spawned new' g' m' ->
            spawned new g' m' \/ (g' = g /\ m' = m)) as Hcase'.
  { intros g' m' (h' & mf' & H). apply Hcase in H as [H | [-> [= -> _ _]]].
    - left. exists h', mf'. exact H.
    - right. auto. }
  destruct HL. unfold added. constructor.
  - intros g' m' Hs. apply Hcase' in Hs as [Hs | [-> ->]].
    + destruct (loc_tracked0 g' m' Hs) as (rs & Hrs & H).
      rewrite dict_get_set. destruct (decide (m = m')) as [<-|Hne].
      * rewrite Hrs. eexists. split; [reflexivity|].
        destruct H as [H | H]; [left | right; apply died_app_l, H].
        rewrite elem_of_app. auto.
      * exists rs. split; [exact Hrs|].
        destruct H as [H | H]; [auto | right; apply died_app_l, H].
    + rewrite dict_get_set_eq. eexists. split; [reflexivity|]. left.
      destruct (dict_get R m); [rewrite elem_of_app; right|]; left.
  - intros m' rs g' Hrs Hg. rewrite dict_get_set in Hrs.
    assert ((exists t0, heap w !! g' = Some (Some t0)) \/ died new g' ->
            (exists t0, heap w' !! g' = Some (Some t0)) \/ died new' g') as Hold.
    { intros [[t0 H0] | H0]; [left | right; apply died_app_l, H0].
      exists t0. simpl. apply lookup_app_l_Some, H0. }
    assert (exists t0, heap w' !! g = Some (Some t0)) as Hnew.
    { exists t. simpl. apply list_lookup_middle. reflexivity. }
    destruct (decide (m = m')) as [<-|Hne]; [|eauto].
    injection Hrs as <-. destruct (dict_get R m) as [s|] eqn:Hs.
    + apply elem_of_app in Hg as [Hg | Hg]; [eauto|].
      apply list_elem_of_singleton in Hg as ->. auto.
    + apply list_elem_of_singleton in Hg as ->. auto.
  - intros m' rs Hrs. rewrite dict_get_set in Hrs.
    destruct (decide (m = m')) as [<-|Hne]; [exists g; exact Hsp|].
    destruct (loc_started0 m' rs Hrs) as [g' Hg']. exists g'.
    apply spawned_app_l, Hg'.
  - intros m' rs g' Hrs Hg. rewrite dict_get_set in Hrs.
    destruct (decide (m = m')) as [<-|Hne];
      [|apply spawned_app_l; eauto].
    injection Hrs as <-. destruct (dict_get R m) as [s|] eqn:Hs.
    + apply elem_of_app in Hg as [Hg | Hg]; [apply spawned_app_l; eauto|].
      apply list_elem_of_singleton in Hg as ->. exact Hsp.
    + apply list_elem_of_singleton in Hg as ->. exact Hsp.
  - intros g' x H. unfold new' in H. rewrite ents_app, elem_of_app in H.
    destruct H as [H | H]; [eapply loc_quiet0, H|].
    simpl in H. apply list_elem_of_singleton in H. discriminate H.
  - intros g' l H. simpl. rewrite length_app. simpl.
    apply Hcase in H as [H | [-> _]]; [|unfold g; lia].
    apply loc_fresh0 in H. lia.
  - intros g' l l' H H'. apply Hcase in H, H'.
    destruct H as [H | [-> ->]], H' as [H' | [E ->]]; eauto.
    + subst g'. apply loc_fresh0 in H. unfold g in H. lia.
    + apply loc_fresh0 in H'. unfold g in H'. lia.
  - intros m' rs Hrs. simpl. rewrite dict_get_set in Hrs.
    destruct (decide (m = m')) as [<-|Hne]; eauto.
Qed.

(** The plan after [marker] left [waiting] for [in-progress]. *)
Definition entered (m : pyval) (wt : pyset) (p : Plan) : Plan :=
  with_in_progress (set_add m (in_progress p)) (with_waiting wt p).

Lemma deps_met_mono q q' m :
  dependency q' = dependency q ->
  (forall a, a ∈ finished q -> a ∈ finished q') ->
  deps_met q m -> deps_met q' m.
Proof.
  intros Hd Hf (d & deps & H1 & H2 & H3). exists d, deps.
  rewrite Hd. auto.
Qed.

Lemma inv_plan_entered m wt p :
  set_remove m (waiting p) = inr wt -> m ∉ finished p ->
  inv_plan p -> inv_plan (entered m wt p).
Proof.
  intros Hrm Hfin (Hu & D1 & D2 & D3).
  pose proof (set_remove_inr _ _ _ Hrm) as Hw.
  pose proof (fun x => elem_of_set_remove x _ _ _ Hrm) as Hwt.
  unfold inv_plan, entered. simpl.
  split; [|split; [|split]].
  - intros x. rewrite Hwt, elem_of_set_add, <- Hu.
    destruct (decide (x = m)) as [->|Hne]; tauto.
  - intros x [H1 H2]. apply Hwt in H1 as [H1 Hne].
    apply elem_of_set_add in H2 as [H2 | H2]; [contradiction|].
    apply (D1 x). auto.
  - intros x [H1 H2]. apply Hwt in H1 as [H1 Hne]. apply (D2 x). auto.
  - intros x [H1 H2]. apply elem_of_set_add in H1 as [-> | H1];
      [contradiction|]. apply (D3 x). auto.
Qed.

Lemma Stn_entered R new w m wt d deps :
  Stn R new w ->
  set_remove m (waiting (_plan w)) = inr wt ->
  m ∉ finished (_plan w) ->
  dependency (_plan w) = Some d -> dict_get d m = Some deps ->
  set_diff deps (finished (_plan w)) = [] ->
  Stn R new (with_plan (entered m wt (_plan w)) w) /\
  deps_met (entered m wt (_plan w)) m.
Proof.
  intros (Hl & Hh & Hc & HL) Hrm Hfin Hd Hg Hdiff.
  pose proof (fun x => elem_of_set_remove x _ _ _ Hrm) as Hwt.
  assert (deps_met (entered m wt (_plan w)) m) as Hmet.
  { exists d, deps. repeat split; auto. intros a Ha. simpl.
    destruct (decide (a ∈ finished (_plan w))) as [|Hn]; [assumption|].
    exfalso. apply (not_elem_of_nil a). rewrite <- Hdiff.
    apply elem_of_set_diff. auto. }
  split; [|exact Hmet].
  split; [exact Hl|]. split; [exact Hh|]. split.
  - destruct Hc. constructor; simpl; auto.
    + destruct cur_mono1 as [A B]. split; simpl; auto.
      intros x Hx. apply A, Hwt, Hx.
    + intros e q Hq. destruct (cur_mono2 e q Hq) as [A B]. split; simpl; auto.
      intros x Hx. apply A, Hwt, Hx.
    + intros Hi. apply inv_plan_entered; auto.
    + intros x Hx Hx0. apply elem_of_set_add in Hx as [-> | Hx];
        [exact Hmet|].
      eapply deps_met_mono; [| |apply cur_deps0; eassumption]; auto.
  - destruct HL. constructor; auto. simpl. intros m' rs Hrs.
    destruct (loc_stage0 m' rs Hrs) as [H | H]; [left | right; exact H].
    apply elem_of_set_add. auto.
Qed.

(** The plan after [marker] left [in-progress] for [finished]. *)
Definition ended (m : pyval) (ip : pyset) (p : Plan) : Plan :=
  with_in_progress ip (with_finished (set_add m (finished p)) p).

Lemma inv_plan_ended m ip p :
  set_remove m (in_progress p) = inr ip ->
  inv_plan p -> inv_plan (ended m ip p).
Proof.
  intros Hrm (Hu & D1 & D2 & D3).
  pose proof (set_remove_inr _ _ _ Hrm) as Hw.
  pose proof (fun x => elem_of_set_remove x _ _ _ Hrm) as Hip.
  unfold inv_plan, ended. simpl.
  split; [|split; [|split]].
  - intros x. rewrite Hip, elem_of_set_add, <- Hu.
    destruct (decide (x = m)) as [->|Hne]; tauto.
  - intros x [H1 H2]. apply Hip in H2 as [H2 Hne]. apply (D1 x). auto.
  - intros x [H1 H2]. apply elem_of_set_add in H2 as [-> | H2].
    + apply (D1 m). auto.
    + apply (D2 x). auto.
  - intros x [H1 H2]. apply Hip in H1 as [H1 Hne].
    apply elem_of_set_add in H2 as [-> | H2]; [congruence|].
    apply (D3 x). auto.
Qed.

Lemma Stn_ended R new w m ip :
  Stn (dict_set R m []) new w ->
  set_remove m (in_progress (_plan w)) = inr ip ->
  Stn (dict_set R m []) new (with_plan (ended m ip (_plan w)) w).
Proof.
  intros (Hl & Hh & Hc & HL) Hrm.
  pose proof (fun x => elem_of_set_remove x _ _ _ Hrm) as Hip.
  split; [exact Hl|]. split; [exact Hh|]. split.
  - destruct Hc. constructor; simpl; auto.
    + destruct cur_mono1 as [A B]. split; simpl; auto.
      intros x Hx. apply elem_of_set_add. auto.
    + intros e q Hq. destruct (cur_mono2 e q Hq) as [A B]. split; simpl; auto.
      intros x Hx. apply elem_of_set_add. auto.
    + intros Hi. apply inv_plan_ended; auto.
    + intros x Hx Hx0. apply Hip in Hx as [Hx _].
      eapply deps_met_mono; [| |apply cur_deps0; eassumption]; auto.
      simpl. intros a Ha. apply elem_of_set_add. auto.
    + intros x Hx Hx0. apply elem_of_set_add in Hx as [-> | Hx]; [|auto].
      split.
      * apply (loc_started _ _ _ HL m []), dict_get_set_eq.
      * intros g Hg.
        destruct (loc_tracked _ _ _ HL g m Hg) as (rs & Hrs & [H | H]);
          [|exact H].
        rewrite dict_get_set_eq in Hrs. injection Hrs as <-. inversion H.
    + intros x Hx Hx0. apply elem_of_set_add in Hx as [-> | Hx]; [|auto].
      destruct (loc_started _ _ _ HL m [] (dict_get_set_eq _ _ _))
        as (g & h & mf & Hs).
      apply elem_of_ents_split in Hs as (l1 & q & l2 & Heq).
      destruct (Hh _ _ _ _ Heq) as [_ Hok].
      destruct (Hok g m h mf eq_refl) as (_ & _ & Hin).
      exists (Spawn g (LDeploy m h mf)), q. split; [|exact Hin].
      rewrite Heq, elem_of_app. right. left.
  - destruct HL. constructor; auto. simpl. intros m' rs Hrs.
    destruct (decide (m' = m)) as [->|Hne].
    + right. apply elem_of_set_add. auto.
    + destruct (loc_stage0 m' rs Hrs) as [H | H].
      * left. apply Hip. auto.
      * right. apply elem_of_set_add. auto.
Qed.

Lemma drone_of_val_cases h w :
  (exists d, drone_of_val h w = (Val d, w)) \/
  (exists e, drone_of_val h w = (Exc e, w)).
Proof.
  destruct h; simpl; eauto. unfold drone_of.
  destruct (drone_get _ _); eauto.
Qed.

Variable timeout : option Z.
Variable debug : bool.

Lemma start_deploy_St m p1 R item :
  m ∈ in_progress p1 -> m ∉ finished p1 -> deps_met p1 m ->
  triple (fun w => St R w /\ _plan w = p1)
         (start_deploy m timeout debug R item)
         (fun R' w => St R' w /\ _plan w = p1) Ex Fu.
Proof.
  intros Hip Hfin Hmet w [[new HS] Hp]. subst p1.
  unfold start_deploy, bind, lift.
  destruct (unpack2 item) as [e | [h mf]]; simpl;
    [eapply St_Ex, Stn_St, HS|].
  destruct (drone_of_val_cases h w) as [[d ->] | [e ->]];
    [|eapply St_Ex, Stn_St, HS].
  simpl.
  destruct (spawn_St R new w m h mf (deploy d mf timeout debug) HS Hip Hfin Hmet)
    as (HS' & Hp' & Hsp').
  simpl in HS', Hp', Hsp'.
  pose proof (switch_St _ (List.length (heap w)) m _ _ HS' Hsp') as Hsw.
  simpl in Hsw. specialize (Hsw Hfin).
  unfold added in Hsw.
  destruct (switch _ _) as [[[] | e |] w2]; [|exact Hsw | destruct Hsw].
  destruct Hsw as (new2 & HS2 & Hp2). split; [|exact Hp2].
  eapply Stn_St, HS2.
Qed.

Lemma set_remove_inl y s e : set_remove y s = inl e -> y ∉ s.
Proof.
  unfold set_remove. destruct (set_in y s) eqn:E; [discriminate|].
  intros _. apply set_in_false, E.
Qed.

Lemma initiate_St m mans R p d deps :
  m ∉ finished p -> dependency p = Some d -> dict_get d m = Some deps ->
  set_diff deps (finished p) = [] ->
  triple (fun w => St R w /\ _plan w = p)
         (initiate m mans timeout debug R)
         (fun R' w => St R' w /\ m ∉ finished (_plan w)) Ex Fu.
Proof.
  intros Hfin Hd Hg Hdiff w [[new HS] Hp]. subst p.
  unfold initiate. unfold bind at 1. simpl. unfold bind at 1, lift.
  destruct (set_remove m (waiting (_plan w))) as [e | wt] eqn:Hrm; simpl;
    [eapply St_Ex, Stn_St, HS|].
  destruct (Stn_entered R new w m wt d deps HS Hrm Hfin Hd Hg Hdiff)
    as [HS1 Hmet].
  unfold bind at 1. simpl. unfold bind at 1. simpl. unfold bind at 1. simpl.
  change (with_plan _ (with_plan _ w))
    with (with_plan (entered m wt (_plan w)) w).
  set (w1 := with_plan (entered m wt (_plan w)) w) in *.
  unfold bind at 1, lift.
  destruct (py_iter mans) as [e | items]; simpl;
    [eapply St_Ex, Stn_St, HS1|].
  assert (m ∈ in_progress (_plan w1)) as Hip.
  { simpl. apply elem_of_set_add. auto. }
  assert (m ∉ finished (_plan w1)) as Hfin1 by exact Hfin.
  pose proof (triple_foldM
    (fun R' w' => St R' w' /\ _plan w' = _plan w1)
    (start_deploy m timeout debug) Ex Fu items
    (fun b x _ => start_deploy_St m (_plan w1) b x Hip Hfin1 Hmet) R w1
    (conj (Stn_St _ _ _ HS1) eq_refl)) as H.
  destruct (foldM _ items R w1) as [[R' | e |] w2]; try exact H.
  destruct H as [H1 H2]. split; [exact H1|]. rewrite H2. exact Hfin1.
Qed.

Lemma check_end_St R m rs :
  triple (fun w => St (dict_set R m rs) w /\ m ∉ finished (_plan w))
         (check_end m rs)
         (fun _ w => St (dict_set R m rs) w) Ex Fu.
Proof.
  intros w [[new HS] Hfin]. unfold check_end.
  destruct rs as [|g rs]; [|eapply Stn_St, HS].
  unfold bind at 1. simpl. unfold bind at 1. simpl. unfold bind at 1. simpl.
  unfold bind at 1, lift. simpl.
  destruct (set_remove m (in_progress (_plan w))) as [e | ip] eqn:Hrm; simpl.
  - exfalso. apply set_remove_inl in Hrm.
    destruct HS as (_ & _ & _ & HL).
    destruct (loc_stage _ _ _ HL m [] (dict_get_set_eq _ _ _)); contradiction.
  - change (with_plan _ (with_plan _ w))
      with (with_plan (ended m ip (_plan w)) w).
    eapply Stn_St, Stn_ended; eauto.
Qed.

Lemma dict_set_same {V} (d : dict V) k v :
  dict_get d k = Some v -> forall k', dict_get (dict_set d k v) k' = dict_get d k'.
Proof.
  intros H k'. rewrite dict_get_set.
  destruct (decide (k = k')) as [<-|]; [symmetry; exact H | reflexivity].
Qed.

Lemma wait_for_runners_St R m rs :
  dict_get R m = Some rs ->
  triple (fun w => St R w /\ m ∉ finished (_plan w))
         (wait_for_runners rs)
         (fun rs' w => St (dict_set R m rs') w /\ m ∉ finished (_plan w))
         Ex Fu.
Proof.
  intros Hrs w [[new HS] Hfin]. unfold wait_for_runners.
  assert (Stn (dict_set R m rs) new w) as HS'.
  { destruct HS as (Hl & Hh & Hc & HL). repeat (split; [assumption|]).
    eapply loc_ext; [|exact HL]. apply dict_set_same, Hrs. }
  assert (forall g, g ∈ rs -> spawned new g m) as Hlab.
  { intros g Hg. destruct HS as (_ & _ & _ & HL).
    eapply (loc_label _ _ _ HL); eauto. }
  pose proof (wait_pass_St R m rs rs new w HS' Hlab Hfin) as H.
  destruct (wait_pass rs rs w) as [[rs' | e |] w']; [|exact H | destruct H].
  destruct H as (new' & HS2 & Hp). split; [eapply Stn_St, HS2|].
  rewrite Hp. exact Hfin.
Qed.

Lemma scan_ready_St m mans R p d deps :
  m ∉ finished p -> dependency p = Some d -> dict_get d m = Some deps ->
  set_diff deps (finished p) = [] ->
  triple (fun w => St R w /\ _plan w = p)
         (scan_ready m mans timeout debug R) St Ex Fu.
Proof.
  intros Hfin Hd Hg Hdiff. unfold scan_ready.
  eapply (triple_bind _ _ _ (fun R1 w => St R1 w /\ m ∉ finished (_plan w))).
  { destruct (dict_get R m).
    - apply triple_ret. intros w [HS ->]. auto.
    - eapply initiate_St; eauto. }
  intros R1.
  eapply (triple_bind _ _ _
    (fun rs w => (St R1 w /\ m ∉ finished (_plan w)) /\ dict_get R1 m = Some rs)).
  { destruct (dict_get R1 m) as [rs|].
    - apply triple_ret. auto.
    - apply triple_raise. intros w [HS _]. eapply St_Ex, HS. }
  intros rs.
  eapply (triple_bind _ _ _
    (fun rs' w => St (dict_set R1 m rs') w /\ m ∉ finished (_plan w))).
  { intros w [H Hrs]. apply (wait_for_runners_St R1 m rs Hrs w H). }
  intros rs'.
  eapply (triple_bind _ _ _ (fun _ w => St (dict_set R1 m rs') w)).
  { apply check_end_St. }
  intros _. apply triple_ret. auto.
Qed.

Lemma scan_St R key : triple (St R) (scan timeout debug R key) St Ex Fu.
Proof.
  intros w HS. unfold scan. unfold bind at 1, lift.
  destruct (unpack2 key) as [e | [m mans]]; simpl; [eapply St_Ex, HS|].
  unfold bind at 1. simpl.
  destruct (set_in m (finished (_plan w))) eqn:Hin; [exact HS|].
  apply set_in_false in Hin.
  unfold bind at 1. unfold dependency_of. unfold bind at 1. simpl.
  destruct (dependency (_plan w)) as [d|] eqn:Hd; simpl; [|eapply St_Ex, HS].
  destruct (dict_get d m) as [deps|] eqn:Hg; simpl; [|eapply St_Ex, HS].
  unfold bind at 1. simpl.
  destruct (set_diff deps (finished (_plan w))) as [|x l] eqn:Hdiff;
    [|exact HS].
  apply (scan_ready_St m mans R (_plan w) d deps Hin Hd Hg Hdiff w).
  auto.
Qed.

Lemma deployment_loop_St fuel : forall R,
  triple (St R) (deployment_loop fuel timeout debug R)
         (fun _ w => (exists R', St R' w) /\
                     waiting (_plan w) = [] /\ in_progress (_plan w) = [])
         Ex Fu.
Proof.
  induction fuel as [|fuel IH]; intros R w HS.
  - simpl. unfold bind. simpl.
    destruct (waiting (_plan w)) eqn:Hw;
      [destruct (in_progress (_plan w)) eqn:Hi|]; simpl; eauto using St_Fu.
  - simpl. unfold bind at 1. simpl.
    assert (triple (St R)
              (runners <- foldM (scan timeout debug)
                            (dict_keys (manifests (_plan w))) R ;;
               deployment_loop fuel timeout debug runners)
              (fun _ w => (exists R', St R' w) /\
                          waiting (_plan w) = [] /\ in_progress (_plan w) = [])
              Ex Fu) as Hbody.
    { eapply triple_bind; [|exact IH].
      apply triple_foldM. intros b x _. apply scan_St. }
    destruct (waiting (_plan w)) eqn:Hw;
      [destruct (in_progress (_plan w)) eqn:Hi|]; simpl; eauto.
    + apply (Hbody w HS).
    + apply (Hbody w HS).
Qed.

Lemma run_deployment_St fuel w :
  log w = l0 -> _plan w = p0 ->
  match run_deployment fuel timeout debug w with
  | (Val _, w') =>
      (exists R, St R w') /\
      waiting (_plan w') = [] /\ in_progress (_plan w') = []
  | (Exc e, w') => Ex e w'
  | (Fuel, w') => Fu w'
  end.
Proof.
  intros Hl Hp. pose proof (St_init w Hl Hp) as [new0 HS0].
  rewrite run_deployment_unfold, status_spec.
  destruct (_callbacks w) as [cb|] eqn:Hcb; [|eapply St_Ex, Stn_St, HS0].
  assert (St [] (logged (Status ("phase", "deployment", "start")) w)) as HS1.
  { eapply Stn_St, Stn_logged; [exact HS0|]. split; intros; discriminate. }
  destruct (cb _); [eapply St_Ex, HS1|].
  pose proof (deployment_loop_St fuel [] _ HS1) as Hloop.
  destruct (deployment_loop fuel timeout debug [] _) as [[[] | e |] w2];
    [|exact Hloop | exact Hloop].
  destruct Hloop as ([R [new2 HS2]] & Hw & Hi).
  assert (St R (logged (Status ("phase", "deployment", "end")) w2)) as HS3.
  { eapply Stn_St, Stn_logged; [exact HS2|]. split; intros; discriminate. }
  rewrite status_spec. destruct (_callbacks w2) as [cb2|];
    [|eapply St_Ex, Stn_St, HS2].
  destruct (cb2 _); [eapply St_Ex, HS3|]. eauto.
Qed.

End Executor.

(** * What a call of [run_deployment] guarantees

    The statements of this part hold for every world, that is, for
    every content of the plan dictionary the method may be run on.  On a
    plan built by [_run_phase] the scan ends at its first key (see the
    part on built plans above); the scan goes further on plans whose keys
    unpack into a marker and its pairs, as in [staged_plan] below. *)

(** [q] is the plan seen after the interactions [before]: at a logged
    interaction, or when the call is over. *)
Definition observation (new : list (entry * Plan)) (final : Plan)
    (before : list (entry * Plan)) (q : Plan) : Prop :=
  (exists e after, new = before ++ (e, q) :: after) \/
  (before = new /\ q = final).

Definition no_failure (new : list (entry * Plan)) : Prop :=
  forall g e, Switch g (Raised e) ∉ ents new.

Lemma run_deployment_report fuel timeout debug w :
  let out := run_deployment fuel timeout debug w in
  exists new,
    log (snd out) = log w ++ new /\
    hist (_plan w) new /\
    cur (_plan w) new (_plan (snd out)) /\
    match fst out with
    | Val _ =>
        no_failure new /\
        waiting (_plan (snd out)) = [] /\ in_progress (_plan (snd out)) = []
    | Exc e => raised_last e new (_plan (snd out))
    | Fuel => no_failure new
    end.
Proof.
  intros out.
  pose proof (run_deployment_St (log w) (_plan w) timeout debug fuel w
                eq_refl eq_refl) as H.
  fold out in H. destruct out as [[[] | e |] w']; simpl.
  - destruct H as ([R (new & Hl & Hh & Hc & HL)] & Hw & Hi).
    exists new. repeat (split; [assumption|]). split; [|auto].
    exact (loc_quiet _ _ _ HL).
  - destruct H as (new & Hl & Hh & Hc & Hr). exists new. auto.
  - destruct H as (new & Hl & Hh & Hc & Hr). exists new. auto.
Qed.

Lemma observation_cur p0 new final before q :
  hist p0 new -> cur p0 new final -> observation new final before q ->
  cur p0 before q.
Proof.
  intros Hh Hc [(e & after & ->) | [-> ->]]; [|exact Hc].
  eapply Hh. reflexivity.
Qed.

(** C2: during [run_deployment], a marker that is seen in progress
    without having been so at the start has all its prerequisites
    finished; a deploy task is started only for such a marker; and for a
    prerequisite [A] of [B] that was not finished at the start, when a
    task of [B] starts some task of [A] has been started, every started
    task of [A] has returned, and none is started afterwards. *)
Theorem C2_prerequisites_finish_first (w : World) (fuel : nat)
    (timeout : option Z) (debug : bool) :
  let out := run_deployment fuel timeout debug w in
  exists new,
    log (snd out) = log w ++ new /\
    (forall before q m,
       observation new (_plan (snd out)) before q ->
       m ∈ in_progress q -> m ∉ in_progress (_plan w) -> deps_met q m) /\
    (forall before g B h mf q after,
       new = before ++ (Spawn g (LDeploy B h mf), q) :: after ->
       deps_met q B /\ B ∈ in_progress q /\
       forall d deps A,
         dependency (_plan w) = Some d -> dict_get d B = Some deps ->
         A ∈ deps -> A ∉ finished (_plan w) ->
         A ∈ finished q /\
         (exists ga, spawned before ga A) /\
         (forall ga, spawned before ga A -> died before ga) /\
         (forall ga, ~ spawned after ga A)).
Proof.
  intros out.
  destruct (run_deployment_report fuel timeout debug w)
    as (new & Hl & Hh & Hc & _). fold out in Hl, Hc.
  exists new. split; [exact Hl|]. split.
  - intros before q m Hobs Hin Hnot.
    apply (cur_deps _ _ _ (observation_cur _ _ _ _ _ Hh Hc Hobs)); assumption.
  - intros before g B h mf q after Heq.
    destruct (Hh _ _ _ _ Heq) as [Hcq Hok].
    destruct (Hok g B h mf eq_refl) as (Hmet & HBfin & HBin).
    split; [exact Hmet|]. split; [exact HBin|].
    intros d deps A Hd Hg HA HAfin.
    assert (A ∈ finished q) as HAq.
    { destruct Hmet as (d' & deps' & Hd' & Hg' & Hall).
      rewrite (cur_dependency _ _ _ Hcq), Hd in Hd'. injection Hd' as <-.
      rewrite Hg in Hg'. injection Hg' as <-. auto. }
    split; [exact HAq|].
    destruct (cur_done _ _ _ Hcq A HAq HAfin) as [Hex Hall].
    split; [exact Hex|]. split; [exact Hall|].
    intros ga (h' & mf' & Hs).
    apply elem_of_ents_split in Hs as (a1 & q' & a2 & ->).
    assert (new = (before ++ (Spawn g (LDeploy B h mf), q) :: a1)
                    ++ (Spawn ga (LDeploy A h' mf'), q') :: a2) as Heq'.
    { rewrite Heq, <- app_assoc. reflexivity. }
    destruct (Hh _ _ _ _ Heq') as [Hcq' Hok'].
    destruct (Hok' ga A h' mf' eq_refl) as (_ & HAnot & _).
    apply HAnot.
    apply (cur_mono _ _ _ Hcq' (Spawn g (LDeploy B h mf)) q);
      [|exact HAq].
    rewrite elem_of_app. right. left.
Qed.

(** C6: when a deploy task of marker [m] raises, [run_deployment] ends
    with that very exception, and [m] is in [finished] neither at the end
    nor at any interaction of the call. *)
Theorem C6_deploy_failure_propagates (w : World) (fuel : nat)
    (timeout : option Z) (debug : bool) :
  let out := run_deployment fuel timeout debug w in
  exists new,
    log (snd out) = log w ++ new /\
    forall g m e,
      spawned new g m -> Switch g (Raised e) ∈ ents new ->
      fst out = Exc e /\
      (m ∉ finished (_plan (snd out))) /\
      forall before q,
        observation new (_plan (snd out)) before q -> m ∉ finished q.
Proof.
  intros out.
  destruct (run_deployment_report fuel timeout debug w)
    as (new & Hl & Hh & Hc & Hres). fold out in Hl, Hc, Hres.
  exists new. split; [exact Hl|]. intros g m e Hsp Hr.
  destruct (fst out) as [[] | e0 |] eqn:Hout.
  - exfalso. destruct Hres as [Hq _]. eapply Hq, Hr.
  - destruct (Hres g m e Hsp Hr) as [-> Hfin].
    split; [reflexivity|]. split; [exact Hfin|].
    intros before q [(e1 & after & ->) | [-> ->]]; [|exact Hfin].
    intros Hq. apply Hfin.
    apply (cur_mono _ _ _ Hc e1 q); [|exact Hq].
    rewrite elem_of_app. right. left.
  - exfalso. eapply Hres, Hr.
Qed.

(** ** The executor at work

    Plans in the shape the scan can read: every key of [manifests] is a
    pair of a marker and the tuple of its [(host, manifest)] pairs, and
    the dictionary has the key ['dependency']. *)

Definition key_of (marker : string) (h mf : string) : pyval :=
  PTuple [PStr marker; PTuple [PTuple [PStr h; PStr mf]]].

(** [B] requires [A]. *)
Definition staged_plan : Plan :=
  {| manifests := [(key_of "A" "host1" "m1", []); (key_of "B" "host2" "m2", [])];
     dependecy := [];
     dependency := Some [(PStr "A", []); (PStr "B", [PStr "A"])];
     waiting := [PStr "A"; PStr "B"]; in_progress := []; finished := [] |}.

Definition staged_controller : World := with_plan staged_plan sample_controller.

Lemma staged_run :
  let out := run_deployment 3 None false staged_controller in
  fst out = Val tt /\
  entries (snd out) =
    [Status ("phase", "deployment", "start");
     Spawn 0 (LDeploy (PStr "A") (PStr "host1") (PStr "m1"));
     Did 0 "deploy:1"; Switch 0 Yielded;
     Did 0 "deploy:2"; Switch 0 Died;
     Spawn 1 (LDeploy (PStr "B") (PStr "host2") (PStr "m2"));
     Did 1 "deploy:1"; Switch 1 Yielded;
     Did 1 "deploy:2"; Switch 1 Died;
     Status ("phase", "deployment", "end")] /\
  finished (_plan (snd out)) = [PStr "A"; PStr "B"].
Proof. vm_compute. repeat split; reflexivity. Qed.

(** A host agent whose deploy task fails after handing control back
    once. *)
Definition failing_agent : Drone :=
  {| init_host := Ret tt; discover := Ret "facts"; configure := Ret tt;
     make_build := Ret tt;
     deploy := fun _ _ _ =>
       Act (Effect "deploy:1") (Yield (Raise (ExternalError "deploy failed")));
     clean := None |}.

Definition failing_controller : World :=
  {| _callbacks := Some quiet; _plugins := [];
     _drones := [("host1", failing_agent); ("host2", agent)]; _info := [];
     _plan := staged_plan; heap := []; log := [] |}.

Lemma failing_run :
  let out := run_deployment 3 None false failing_controller in
  fst out = Exc (ExternalError "deploy failed") /\
  entries (snd out) =
    [Status ("phase", "deployment", "start");
     Spawn 0 (LDeploy (PStr "A") (PStr "host1") (PStr "m1"));
     Did 0 "deploy:1"; Switch 0 Yielded;
     Switch 0 (Raised (ExternalError "deploy failed"))] /\
  in_progress (_plan (snd out)) = [PStr "A"] /\
  finished (_plan (snd out)) = [].
Proof. vm_compute. repeat split; reflexivity. Qed.

Lemma C2_witness :
  let out := run_deployment 3 None false staged_controller in
  exists before q after,
    log (snd out) =
      before ++ (Spawn 1 (LDeploy (PStr "B") (PStr "host2") (PStr "m2")), q)
             :: after /\
    PStr "A" ∈ finished q /\
    (exists ga, spawned before ga (PStr "A")) /\
    (forall ga, spawned before ga (PStr "A") -> died before ga) /\
    (forall ga, ~ spawned after ga (PStr "A")).
Proof.
  intros out.
  destruct (C2_prerequisites_finish_first staged_controller 3 None false)
    as (new & Hl & _ & H).
  fold out in Hl. change (log staged_controller) with (@nil (entry * Plan)) in Hl.
  simpl app in Hl. subst new.
  set (before := take 6 (log (snd out))).
  set (after := drop 7 (log (snd out))).
  set (q := with_finished [PStr "A"]
              (with_in_progress [PStr "B"] (with_waiting [] staged_plan))).
  assert (log (snd out) =
            before ++ (Spawn 1 (LDeploy (PStr "B") (PStr "host2") (PStr "m2")), q)
                   :: after) as Heq by (vm_compute; reflexivity).
  exists before, q, after. split; [exact Heq|].
  destruct (H before 1 (PStr "B") (PStr "host2") (PStr "m2") q after Heq)
    as (_ & _ & HA).
  apply (HA [(PStr "A", []); (PStr "B", [PStr "A"])] [PStr "A"] (PStr "A"));
    try reflexivity.
  - left.
  - apply not_elem_of_nil.
Defined.

Lemma C6_witness :
  let out := run_deployment 3 None false failing_controller in
  spawned (log (snd out)) 0 (PStr "A") /\
  Switch 0 (Raised (ExternalError "deploy failed")) ∈ ents (log (snd out)) /\
  fst out = Exc (ExternalError "deploy failed") /\
  PStr "A" ∉ finished (_plan (snd out)).
Proof.
  intros out.
  destruct (C6_deploy_failure_propagates failing_controller 3 None false)
    as (new & Hl & H).
  fold out in Hl, H. change (log failing_controller) with (@nil (entry * Plan)) in Hl.
  simpl app in Hl. subst new.
  assert (spawned (log (snd out)) 0 (PStr "A")) as Hsp.
  { exists (PStr "host1"), (PStr "m1"). vm_compute. right. left. }
  assert (Switch 0 (Raised (ExternalError "deploy failed"))
            ∈ ents (log (snd out))) as Hr.
  { vm_compute. do 4 right. left. }
  destruct (H 0 (PStr "A") (ExternalError "deploy failed") Hsp Hr)
    as (H1 & H2 & _).
  repeat split; assumption.
Defined.

(** * The plan during the phases *)


(** ** A property of the plan at every observation *)

Section Seen.

Variable l0 : list (entry * Plan).

(** [C before q]: what is claimed of the plan [q] seen after the
    interactions [before]; it must survive logging [q] itself. *)
Variable C : list (entry * Plan) -> Plan -> Prop.
Hypothesis C_snoc : forall new e p, C new p -> C (new ++ [(e, p)]) p.







End Seen.














(** * Further properties of the controller *)

(** ** Construction *)

Definition plain (plug : PluginData) : Prop :=
  resources plug = [] /\ modules plug = [].

Lemma foldl_failed {A E B : Type} (f : E + B -> A -> E + B) (xs : list A)
    (e : E) :
  (forall x, f (inl e) x = inl e) -> foldl f (inl e) xs = inl e.
Proof.
  intros Hf. induction xs as [|x xs IH]; simpl; [reflexivity|].
  rewrite Hf. exact IH.
Qed.

Lemma register_resources_spec (ps : list PluginData) (hosts : list host) :
  match register_resources ps hosts with
  | inr _ => hosts = [] \/ Forall plain ps
  | inl e =>
      hosts <> [] /\ ~ Forall plain ps /\
      (e = AttributeError "add_resource" \/ e = AttributeError "add_module")
  end.
Proof.
  unfold register_resources. induction ps as [|p ps IH]; simpl.
  - right. constructor.
  - destruct hosts as [|h hosts].
    + destruct (foldl _ _ ps); [|auto].
      destruct IH as (H & _). congruence.
    + destruct (resources p) as [|r rs] eqn:Hr.
      * destruct (modules p) as [|m ms] eqn:Hm.
        -- destruct (foldl _ _ ps) as [e | u].
           ++ destruct IH as (H1 & H2 & H3). split; [exact H1|].
              split; [|exact H3]. intros H. inversion H; subst. auto.
           ++ destruct IH as [H | H]; [discriminate H|].
              right. constructor; [split; assumption | exact H].
        -- rewrite foldl_failed by reflexivity. split; [discriminate|].
           split; [|auto]. intros H. inversion H as [|? ? [_ Hp] _]; subst.
           congruence.
      * rewrite foldl_failed by reflexivity. split; [discriminate|].
        split; [|auto]. intros H. inversion H as [|? ? [Hp _] _]; subst.
        congruence.
Qed.

(** X1: given the plugins that were loaded and the drone made for each
    deploy host, [Controller.__init__] succeeds exactly when there is no
    host or no plugin declares a resource or a module; otherwise the
    registration loop, which iterates the hosts and not the drones,
    raises [AttributeError] for [add_resource] or [add_module].  A
    constructed controller has the empty plan, no status callback, and
    the given plugins and drones. *)
Theorem init_succeeds_iff_nothing_to_register (ps : list PluginData)
    (ds : list (host * Drone)) :
  ((exists w, __init__ ps ds = inr w) <-> ds = [] \/ Forall plain ps) /\
  (forall w, __init__ ps ds = inr w ->
     _plan w = empty_plan /\ _callbacks w = None /\
     _plugins w = ps /\ _drones w = ds /\ heap w = [] /\ log w = []) /\
  (forall e, __init__ ps ds = inl e ->
     e = AttributeError "add_resource" \/ e = AttributeError "add_module").
Proof.
  unfold __init__.
  pose proof (register_resources_spec ps (map fst ds)) as H.
  destruct (register_resources ps (map fst ds)) as [e | u].
  - destruct H as (H1 & H2 & H3). split; [|split].
    + split; [intros [w Hw]; discriminate Hw|].
      intros [-> | Hp]; [exfalso; apply H1; reflexivity | contradiction].
    + intros w Hw. discriminate Hw.
    + intros e' [= <-]. exact H3.
  - split; [|split].
    + split; [|eauto]. intros _. destruct H as [H | H]; [|auto].
      left. destruct ds; [reflexivity | discriminate H].
    + intros w [= <-]. simpl. auto 10.
    + intros e He. discriminate He.
Qed.

(** ** Phases without a callback, and phases without a name *)

Definition no_callback : exn := KeyError (PStr "status").

(** X2: while no status callback is registered, every phase and the
    deployment raise [KeyError] for ['status'] at their first
    notification and leave the controller exactly as it was: no step is
    run, no greenlet is created, the plan is not read. *)
Theorem phases_need_status_callback (w : World) (phase : string)
    (fuel : nat) (timeout : option Z) (debug : bool) :
  _callbacks w = None ->
  _run_phase phase w = (Exc no_callback, w) /\
  run_deployment fuel timeout debug w = (Exc no_callback, w).
Proof.
  intros Hcb. split.
  - unfold _run_phase. unfold bind at 1. rewrite status_spec, Hcb. reflexivity.
  - rewrite run_deployment_unfold, status_spec, Hcb. reflexivity.
Qed.

Lemma phases_need_status_callback_witness :
  _run_phase "init" fresh_controller = (Exc no_callback, fresh_controller) /\
  run_deployment 1 None false fresh_controller =
    (Exc no_callback, fresh_controller).
Proof.
  apply (phases_need_status_callback fresh_controller "init" 1 None false).
  reflexivity.
Defined.

Definition phase_names : list string := ["init"; "prep"; "plan"; "clean"].

Lemma phase_steps_unknown phase plug :
  phase ∉ phase_names ->
  phase_steps phase plug = inl (AttributeError (phase ++ "_steps")%string).
Proof.
  intros H. unfold phase_steps.
  repeat match goal with
  | |- context [String.eqb phase ?s] =>
      destruct (String.eqb_spec phase s) as [-> | _];
        [exfalso; apply H; unfold phase_names; repeat constructor|]
  end.
  reflexivity.
Qed.

(** X3: a phase name for which [PluginData] has no [<phase>_steps]
    field.  With at least one plugin loaded, [_run_phase] raises
    [AttributeError] for that field right after the phase start event,
    before any step or host is touched; with no plugin the generator
    never looks the field up and the phase ends after its two events. *)
Theorem unknown_phase_needs_no_plugin (w : World) (cb : event -> option exn)
    (phase : string) :
  _callbacks w = Some cb -> (forall e, cb e = None) ->
  phase ∉ phase_names ->
  _run_phase phase w =
    match _plugins w with
    | [] =>
        (Val tt, logged (Status ("phase", phase, "end"))
                   (logged (Status ("phase", phase, "start")) w))
    | _ :: _ =>
        (Exc (AttributeError (phase ++ "_steps")%string),
         logged (Status ("phase", phase, "start")) w)
    end.
Proof.
  intros Hcb Hok Hph. unfold _run_phase.
  unfold bind at 1. rewrite status_spec, Hcb, Hok.
  unfold bind at 1. simpl _plugins.
  destruct (_plugins w) as [|plug ps].
  - assert (String.eqb phase "init" = false) as Hi.
    { apply String.eqb_neq. intros ->. apply Hph. unfold phase_names. repeat constructor. }
    assert (String.eqb phase "plan" = false) as Hp.
    { apply String.eqb_neq. intros ->. apply Hph. unfold phase_names. repeat constructor. }
    assert (forall ds w1, post_run phase ds [] w1 = (Val [], w1)) as Hpost.
    { intros [|[h d] ds] w1; simpl; [reflexivity|]. rewrite Hi, Hp. reflexivity. }
    unfold bind, forM. simpl. rewrite Hpost. simpl.
    rewrite status_spec. simpl. rewrite Hcb, Hok. reflexivity.
  - unfold bind at 1. rewrite forM_cons. unfold bind at 1.
    unfold bind at 1. rewrite phase_steps_unknown by exact Hph. reflexivity.
Qed.

Lemma unknown_phase_needs_no_plugin_witness :
  _run_phase "deploy" sample_controller =
    (Exc (AttributeError "deploy_steps"),
     logged (Status ("phase", "deploy", "start")) sample_controller).
Proof.
  apply (unknown_phase_needs_no_plugin sample_controller quiet "deploy").
  - reflexivity.
  - reflexivity.
  - unfold phase_names. intros H. repeat (apply elem_of_cons in H as [H | H]; [discriminate H|]).
    inversion H.
Defined.

(** ** Deployments with nothing to do *)

Lemma deployment_loop_idle fuel timeout debug runners w :
  waiting (_plan w) = [] -> in_progress (_plan w) = [] ->
  deployment_loop fuel timeout debug runners w = (Val tt, w).
Proof.
  intros Hw Hi. destruct fuel; simpl; unfold bind; simpl; rewrite Hw, Hi;
    reflexivity.
Qed.

(** X4: when nothing is waiting and nothing is in progress,
    [run_deployment] consists of its two notifications, whatever
    [manifests] holds and however few scans it is allowed; this is the
    case on a controller whose plan phase recorded nothing, and after
    every call of [run_deployment] that returned, so a second call
    deploys nothing again. *)
Theorem idle_deployment_only_notifies (w : World) (fuel : nat)
    (timeout : option Z) (debug : bool) :
  (waiting (_plan w) = [] /\ in_progress (_plan w) = []) \/
  (exists w0 fuel0 timeout0 debug0,
     run_deployment fuel0 timeout0 debug0 w0 = (Val tt, w)) ->
  run_deployment fuel timeout debug w =
    (status "phase" "deployment" "start" ;;
     status "phase" "deployment" "end") w.
Proof.
  intros H.
  assert (waiting (_plan w) = [] /\ in_progress (_plan w) = []) as [Hw Hi].
  { destruct H as [H | (w0 & fuel0 & timeout0 & debug0 & H)]; [exact H|].
    destruct (run_deployment_report fuel0 timeout0 debug0 w0)
      as (new & _ & _ & _ & Hres).
    rewrite H in Hres. simpl in Hres. tauto. }
  rewrite run_deployment_unfold. unfold bind.
  destruct (status "phase" "deployment" "start" w) as [[[] | e |] w1] eqn:Hs;
    try reflexivity.
  assert (_plan w1 = _plan w) as Hp.
  { rewrite status_spec in Hs. destruct (_callbacks w); [|discriminate Hs].
    injection Hs as _ <-. reflexivity. }
  rewrite deployment_loop_idle by (rewrite Hp; assumption). reflexivity.
Qed.

Lemma idle_deployment_only_notifies_witness :
  let w := snd (run_deployment 3 None false staged_controller) in
  run_deployment 0 None false w =
    (status "phase" "deployment" "start" ;;
     status "phase" "deployment" "end") w.
Proof.
  intros w. apply idle_deployment_only_notifies. right.
  exists staged_controller, 3, None, false. subst w.
  vm_compute. reflexivity.
Defined.

(** ** One pass of [wait_for_runners] *)

(** [not run.dead] in world [w]. *)
Definition live (w : World) (g : gid) : bool :=
  match heap w !! g with
  | Some (Some _) => true
  | _ => false
  end.

(** What one [switch] leaves of the cell of a greenlet. *)
Definition advance (c : option (task unit)) : option (task unit) :=
  match c with
  | Some t => snd (segment t)
  | None => None
  end.

Lemma filter_all {A} (P : A -> Prop) `{!forall x, Decision (P x)} (l : list A) :
  (forall x, P x) -> filter P l = l.
Proof.
  intros HP. induction l as [|x l IH]; [reflexivity|].
  rewrite filter_cons_True by apply HP. rewrite IH. reflexivity.
Qed.

Lemma live_insert_ne w1 w g run c :
  heap w1 = <[run := c]> (heap w) -> g <> run -> live w1 g = live w g.
Proof.
  intros Hh Hne. unfold live. rewrite Hh, list_lookup_insert_ne by auto.
  reflexivity.
Qed.

Lemma wait_pass_cons run rest runners w :
  wait_pass (run :: rest) runners w =
    match heap w !! run with
    | Some (Some t) =>
        match resume run t w with
        | (Val _, w1) => wait_pass rest runners w1
        | (Exc e, w1) => (Exc e, w1)
        | (Fuel, w1) => (Fuel, w1)
        end
    | _ => wait_pass rest (filter (fun r => r <> run) runners) w
    end.
Proof.
  simpl. unfold bind, is_dead, switch.
  destruct (heap w !! run) as [[t|]|] eqn:E; try reflexivity.
  destruct (heap w !! run) as [[t'|]|] eqn:E'; try discriminate E.
  injection E as ->. reflexivity.
Qed.

(** The pass over [snapshot], started with the set [runners]: the
    runners of the snapshot found dead are removed, the other ones are
    resumed once each; the pass stops at the first one that raises. *)
Lemma wait_pass_spec snapshot : forall runners w,
  NoDup snapshot ->
  match wait_pass snapshot runners w with
  | (Val rs, w') =>
      rs = filter (fun r => ~ (r ∈ snapshot /\ live w r = false)) runners /\
      forall g, heap w' !! g =
        if decide (g ∈ snapshot) then advance <$> (heap w !! g)
        else heap w !! g
  | (Exc e, w') =>
      exists g t, g ∈ snapshot /\ heap w !! g = Some (Some t) /\
                  fst (segment t) = Raised e
  | (Fuel, _) => False
  end.
Proof.
  induction snapshot as [|run rest IH]; intros runners w Hnd.
  - change (wait_pass [] runners w) with (Val runners, w). cbv beta iota.
    split.
    + symmetry. apply filter_all. intros x [H _]. inversion H.
    + intros g. rewrite decide_False; [reflexivity|]. intros H. inversion H.
  - apply NoDup_cons in Hnd as [Hrun Hnd]. rewrite wait_pass_cons.
    assert (forall g, g ∈ rest -> g <> run) as Hne.
    { intros g Hg ->. contradiction. }
    destruct (heap w !! run) as [[t|]|] eqn:Hg.
    + pose proof (resume_spec run t w) as Hres. cbv zeta in Hres.
      destruct (resume run t w) as [r w1]. cbn [fst snd] in Hres.
      destruct Hres as (Hr & _ & _ & _ & _ & Hh & _). subst r.
      assert (run < List.length (heap w)) as Hlt.
      { exact (lookup_lt_Some _ _ _ Hg). }
      destruct (fst (segment t)) as [| |e] eqn:Hseg.
      1, 2:
        specialize (IH runners w1 Hnd);
        destruct (wait_pass rest runners w1) as [[rs | e |] w'];
        [ destruct IH as [Hrs Hheap]; split;
          [ rewrite Hrs; apply list_filter_iff; intros x;
            destruct (decide (x = run)) as [-> | Hx];
            [ split; intros _ [Hin Hl];
              [ unfold live in Hl; rewrite Hg in Hl; discriminate Hl
              | contradiction ]
            | rewrite (live_insert_ne w1 w x run _ Hh Hx), elem_of_cons;
              tauto ]
          | intros g; rewrite Hheap, Hh;
            destruct (decide (g = run)) as [-> | Hx];
            [ rewrite decide_False by exact Hrun;
              rewrite decide_True by left;
              rewrite list_lookup_insert_eq by exact Hlt;
              rewrite Hg; reflexivity
            | rewrite list_lookup_insert_ne by auto;
              destruct (decide (g ∈ rest)) as [Hin | Hin];
              [ rewrite decide_True by (right; exact Hin); reflexivity
              | rewrite decide_False; [reflexivity|];
                intros H; apply elem_of_cons in H as [H | H]; auto ] ] ]
        | destruct IH as (g & t' & Hin & Hgt & Hraise);
          exists g, t'; split; [right; exact Hin|]; split; [|exact Hraise];
          rewrite Hh, list_lookup_insert_ne in Hgt by
            (intros Heq; apply (Hne g Hin); auto);
          exact Hgt
        | exact IH ].
      exists run, t. split; [left|]. split; [exact Hg | exact Hseg].
    + specialize (IH (filter (fun r => r <> run) runners) w Hnd).
      destruct (wait_pass rest _ w) as [[rs | e |] w']; [| |exact IH].
      * destruct IH as [Hrs Hheap]. split.
        -- rewrite Hrs, list_filter_filter. apply list_filter_iff. intros x.
           rewrite elem_of_cons. unfold live at 2.
           destruct (decide (x = run)) as [-> | Hx].
           ++ rewrite Hg. tauto.
           ++ tauto.
        -- intros g. rewrite Hheap.
           destruct (decide (g = run)) as [-> | Hx].
           ++ rewrite decide_False by exact Hrun.
              rewrite decide_True by left. rewrite Hg. reflexivity.
           ++ destruct (decide (g ∈ rest)) as [Hin | Hin].
              ** rewrite decide_True by (right; exact Hin). reflexivity.
              ** rewrite decide_False; [reflexivity|].
                 intros H; apply elem_of_cons in H as [H | H]; auto.
      * destruct IH as (g & t' & Hin & Hgt & Hraise).
        exists g, t'. split; [right; exact Hin | auto].
    + specialize (IH (filter (fun r => r <> run) runners) w Hnd).
      destruct (wait_pass rest _ w) as [[rs | e |] w']; [| |exact IH].
      * destruct IH as [Hrs Hheap]. split.
        -- rewrite Hrs, list_filter_filter. apply list_filter_iff. intros x.
           rewrite elem_of_cons. unfold live at 2.
           destruct (decide (x = run)) as [-> | Hx].
           ++ rewrite Hg. tauto.
           ++ tauto.
        -- intros g. rewrite Hheap.
           destruct (decide (g = run)) as [-> | Hx].
           ++ rewrite decide_False by exact Hrun.
              rewrite decide_True by left. rewrite Hg. reflexivity.
           ++ destruct (decide (g ∈ rest)) as [Hin | Hin].
              ** rewrite decide_True by (right; exact Hin). reflexivity.
              ** rewrite decide_False; [reflexivity|].
                 intros H; apply elem_of_cons in H as [H | H]; auto.
      * destruct IH as (g & t' & Hin & Hgt & Hraise).
        exists g, t'. split; [right; exact Hin | auto].
Qed.

Lemma filter_ext_in {A} (P1 P2 : A -> Prop) `{!forall x, Decision (P1 x)}
    `{!forall x, Decision (P2 x)} (l : list A) :
  (forall x, x ∈ l -> (P1 x <-> P2 x)) -> filter P1 l = filter P2 l.
Proof.
  induction l as [|x l IH]; intros HP; [reflexivity|].
  rewrite !filter_cons.
  rewrite IH by (intros y Hy; apply HP; right; exact Hy).
  destruct (decide (P1 x)) as [H1 | H1], (decide (P2 x)) as [H2 | H2];
    try reflexivity; exfalso; apply (HP x (list_elem_of_here x l)) in H1 || 
    apply (HP x (list_elem_of_here x l)) in H2; contradiction.
Qed.

(** X5: [wait_for_runners] on a set of runners makes one pass.  When
    it returns, the set holds exactly the runners that were alive at the
    call, also those that ended during the pass, each of which was
    resumed exactly once, for one segment; no other greenlet has moved.
    It raises exactly what one of these segments raises. *)
Theorem wait_for_runners_resumes_live_runners_once (runners : list gid)
    (w : World) :
  NoDup runners ->
  match wait_for_runners runners w with
  | (Val rs, w') =>
      rs = filter (fun r => live w r) runners /\
      forall g, heap w' !! g =
        if decide (g ∈ rs) then advance <$> (heap w !! g) else heap w !! g
  | (Exc e, w') =>
      exists g t, g ∈ runners /\ heap w !! g = Some (Some t) /\
                  fst (segment t) = Raised e
  | (Fuel, _) => False
  end.
Proof.
  intros Hnd. unfold wait_for_runners.
  pose proof (wait_pass_spec runners runners w Hnd) as H.
  destruct (wait_pass runners runners w) as [[rs | e |] w']; [|exact H..].
  destruct H as [Hrs Hheap].
  assert (rs = filter (fun r => live w r) runners) as Hrs'.
  { rewrite Hrs. apply filter_ext_in. intros x Hx.
    destruct (live w x); simpl; split.
    - intros _. exact I.
    - intros _ [_ Hl]. discriminate Hl.
    - intros H. apply H. auto.
    - intros []. }
  split; [exact Hrs'|]. intros g. rewrite Hheap.
  destruct (decide (g ∈ runners)) as [Hin | Hin].
  - destruct (decide (g ∈ rs)) as [Hg | Hg]; [reflexivity|].
    rewrite Hrs', list_elem_of_filter in Hg. unfold live in Hg.
    destruct (heap w !! g) as [[t|]|]; try reflexivity.
    exfalso. apply Hg. split; [exact I | exact Hin].
  - rewrite decide_False; [reflexivity|].
    rewrite Hrs', list_elem_of_filter. tauto.
Qed.

Lemma wait_for_runners_resumes_live_runners_once_witness :
  NoDup [0] /\
  fst (wait_for_runners [0] slow_started) = Val [0] /\
  heap (snd (wait_for_runners [0] slow_started)) !! 0 =
    advance <$> (heap slow_started !! 0).
Proof.
  split; [apply NoDup_singleton|].
  pose proof (wait_for_runners_resumes_live_runners_once [0] slow_started
                (NoDup_singleton 0)) as H.
  destruct (wait_for_runners [0] slow_started) as [[rs | e |] w'] eqn:E;
    [|vm_compute in E; discriminate E..].
  destruct H as [Hrs Hheap]. simpl. split.
  - rewrite Hrs. reflexivity.
  - rewrite (Hheap 0), Hrs. reflexivity.
Defined.

(** ** The events of a phase *)

(** The events around one step. *)
Definition step_events (s : Step) : list event :=
  [("step", func_name s, "start"); ("step", func_name s, "end")].

(** The steps that [_iter_phase] yields. *)
Definition steps_of (phase : string) (ps : list PluginData) : list Step :=
  flat_map (fun plug =>
    match phase_steps phase plug with
    | inr steps => steps
    | inl _ => []
    end) ps.

Definition phase_events (phase : string) (ps : list PluginData) : list event :=
  ("phase", phase, "start")
    :: flat_map step_events (steps_of phase ps) ++ [("phase", phase, "end")].

(** What is left of [_run_phase] after the start event, for the plugin
    list [ps]. *)
Definition phase_body (phase : string) (ps : list PluginData) : M unit :=
  forM (fun plug =>
    steps <- lift (phase_steps phase plug) ;;
    forM (run_step phase) steps) ps ;;
  ds <- (fun w => (Val (_drones w), w)) ;;
  runners <- post_run phase ds [] ;;
  _ <- wait_for_runners runners ;;
  status "phase" phase "end".

Lemma run_phase_unfold phase w :
  _run_phase phase w =
    match status "phase" phase "start" w with
    | (Val _, w1) => phase_body phase (_plugins w1) w1
    | (Exc e, w1) => (Exc e, w1)
    | (Fuel, w1) => (Fuel, w1)
    end.
Proof.
  unfold _run_phase, phase_body. unfold bind at 1.
  destruct (status "phase" phase "start" w) as [[[] | e |] w1]; reflexivity.
Qed.

Lemma triple_conseq {A} (P P' : World -> Prop) (m : M A)
    (Q Q' : A -> World -> Prop) (E E' : exn -> World -> Prop)
    (F F' : World -> Prop) :
  triple P m Q E F ->
  (forall w, P' w -> P w) -> (forall a w, Q a w -> Q' a w) ->
  (forall e w, E e w -> E' e w) -> (forall w, F w -> F' w) ->
  triple P' m Q' E' F'.
Proof.
  intros H HP HQ HE HF w Hw. specialize (H w (HP w Hw)).
  destruct (m w) as [[a | e |] w']; auto.
Qed.

Section Events.

(** The log when the phase is entered. *)
Variable l0 : list (entry * Plan).

(** The callback has been told [evs] since. *)
Definition told (evs : list event) (w : World) : Prop :=
  exists new, log w = l0 ++ new /\ statuses (map fst new) = evs.

(** A computation that tells the callback nothing, and ends. *)
Definition silent {A} (m : M A) : Prop :=
  forall evs,
    triple (told evs) m (fun _ => told evs) (fun _ => told evs)
           (fun _ => False).

Lemma told_logged evs e w :
  (forall ev, e <> Status ev) -> told evs w -> told evs (logged e w).
Proof.
  intros He (new & Hl & Hs). exists (new ++ [(e, _plan w)]). split.
  - simpl. rewrite Hl, app_assoc. reflexivity.
  - rewrite map_app, statuses_app, Hs. simpl.
    destruct e; try apply app_nil_r. exfalso. eapply He. reflexivity.
Qed.

Lemma told_status evs ev w : told evs w -> told (evs ++ [ev]) (logged (Status ev) w).
Proof.
  intros (new & Hl & Hs). exists (new ++ [(Status ev, _plan w)]). split.
  - simpl. rewrite Hl, app_assoc. reflexivity.
  - rewrite map_app, statuses_app, Hs. reflexivity.
Qed.

Lemma told_same evs w w' : log w' = log w -> told evs w -> told evs w'.
Proof. intros Hl (new & H). exists new. rewrite Hl. exact H. Qed.

Lemma silent_ret {A} (a : A) : silent (ret a).
Proof. intros evs. apply triple_ret. auto. Qed.

Lemma silent_lift {A} (r : exn + A) : silent (lift r).
Proof.
  intros evs. destruct r; [apply triple_raise | apply triple_ret]; auto.
Qed.

Lemma silent_read {A} (f : World -> A) : silent (fun w => (Val (f w), w)).
Proof. intros evs w H. exact H. Qed.

Lemma silent_bind {A B} (m : M A) (k : A -> M B) :
  silent m -> (forall a, silent (k a)) -> silent (bind m k).
Proof.
  intros Hm Hk evs. eapply triple_bind; [apply Hm|]. intros a. apply Hk.
Qed.

Lemma silent_foldM {A B} (body : B -> A -> M B) l :
  (forall b x, silent (body b x)) -> forall b, silent (foldM body l b).
Proof.
  intros Hb b evs.
  apply (triple_foldM (fun _ => told evs) body (fun _ => told evs)
           (fun _ => False) l).
  intros b' x _. apply Hb.
Qed.

Lemma silent_set_plan p : silent (set_plan p).
Proof. intros evs w H. simpl. eapply told_same; [|exact H]. reflexivity. Qed.

Lemma silent_emit e : (forall ev, e <> Status ev) -> silent (emit e).
Proof. intros He evs w H. simpl. apply told_logged; assumption. Qed.

Lemma silent_spawn l t : silent (spawn l t).
Proof.
  intros evs w H. simpl. apply told_logged; [discriminate|].
  eapply told_same; [|exact H]. reflexivity.
Qed.

Lemma silent_switch g : silent (switch g).
Proof.
  intros evs w H. unfold switch.
  destruct (heap w !! g) as [[t|]|]; try exact H.
  pose proof (resume_spec g t w) as Hres. cbv zeta in Hres.
  destruct (resume g t w) as [r w']. cbn [fst snd] in Hres.
  destruct Hres as (Hr & _ & _ & _ & _ & _ & Hl).
  assert (told evs w') as Ht.
  { destruct H as (new & Hl0 & Hs). eexists. split.
    - rewrite Hl, Hl0, <- app_assoc. reflexivity.
    - rewrite map_app, statuses_app, Hs, statuses_stamp_segment.
      apply app_nil_r. }
  subst r. destruct (fst (segment t)); exact Ht.
Qed.

Lemma silent_wait_pass snapshot : forall runners, silent (wait_pass snapshot runners).
Proof.
  induction snapshot as [|run rest IH]; intros runners; simpl.
  - apply silent_ret.
  - apply silent_bind; [apply (silent_read (fun w => _))|].
    intros [|]; [apply IH|].
    apply silent_bind; [apply silent_switch | intros _; apply IH].
Qed.

Lemma silent_run_step_on_hosts step : silent (run_step_on_hosts step).
Proof.
  unfold run_step_on_hosts.
  apply silent_bind; [apply silent_read|]. intros ds.
  apply silent_bind.
  - apply silent_foldM. intros b x.
    apply silent_bind; [apply silent_spawn|]. intros run.
    apply silent_bind; [apply silent_switch|]. intros _. apply silent_ret.
  - intros rs. apply silent_bind; [apply silent_wait_pass|].
    intros _. apply silent_ret.
Qed.

Lemma silent_post_run phase ds : forall runners, silent (post_run phase ds runners).
Proof.
  induction ds as [|[h d] ds IH]; intros runners; simpl.
  - apply silent_ret.
  - destruct (String.eqb phase "init").
    + apply silent_bind; [apply silent_spawn|]. intros run.
      apply silent_bind; [apply silent_switch|]. intros _. apply IH.
    + destruct (String.eqb phase "plan").
      * apply silent_bind; [apply silent_spawn|]. intros run.
        apply silent_bind; [apply silent_switch|]. intros _. apply IH.
      * apply silent_ret.
Qed.

Lemma silent_plan_record r : silent (plan_record r).
Proof.
  unfold plan_record.
  apply silent_bind.
  { intros evs w H. unfold drone_of.
    destruct (drone_get (_drones w) (r_host r)); exact H. }
  intros _. apply silent_bind; [apply silent_emit; discriminate|]. intros _.
  apply silent_bind; [apply (silent_read _plan)|]. intros p.
  apply silent_bind; [apply silent_set_plan|]. intros _.
  apply silent_bind; [apply (silent_read _plan)|]. intros p1.
  apply silent_bind; [apply silent_set_plan|]. intros _.
  apply silent_bind; [apply (silent_read _plan)|]. intros p2.
  destruct (dependency p2); [apply silent_set_plan|].
  intros evs. apply triple_raise. auto.
Qed.

Lemma silent_run_plan_step step : silent (run_plan_step step).
Proof.
  unfold run_plan_step.
  apply silent_bind; [apply silent_read|]. intros i.
  apply silent_bind; [apply silent_lift|]. intros rs.
  apply silent_foldM. intros _ r. apply silent_plan_record.
Qed.

(** All the events the phase can deliver. *)
Variable full : list event.

(** The callback has been told a first part of [full]. *)
Definition upto (w : World) : Prop :=
  exists evs, evs `prefix_of` full /\ told evs w.

Lemma prefix_app_l (a b : list event) : (a ++ b) `prefix_of` full -> a `prefix_of` full.
Proof. intros [k Hk]. exists (b ++ k). rewrite Hk, app_assoc. reflexivity. Qed.

Lemma silent_upto {A} (m : M A) evs :
  silent m -> evs `prefix_of` full ->
  triple (told evs) m (fun _ => told evs) (fun _ => upto) (fun _ => False).
Proof.
  intros Hm Hp. eapply triple_conseq; [apply (Hm evs) | auto ..].
  intros e w H. exists evs. auto.
Qed.

Lemma status_upto ty nm st evs :
  (evs ++ [(ty, nm, st)]) `prefix_of` full ->
  triple (told evs) (status ty nm st) (fun _ => told (evs ++ [(ty, nm, st)]))
         (fun _ => upto) (fun _ => False).
Proof.
  intros Hp w H. rewrite status_spec.
  destruct (_callbacks w) as [cb|].
  - destruct (cb _).
    + exists (evs ++ [(ty, nm, st)]). split; [exact Hp|]. apply told_status, H.
    + apply told_status, H.
  - exists evs. split; [|exact H]. eapply prefix_app_l, Hp.
Qed.

Lemma run_step_upto phase step evs :
  (evs ++ step_events step) `prefix_of` full ->
  triple (told evs) (run_step phase step)
         (fun _ => told (evs ++ step_events step))
         (fun _ => upto) (fun _ => False).
Proof.
  intros Hp. unfold run_step, step_events in *.
  change (evs ++ [("step", func_name step, "start"); ("step", func_name step, "end")])
    with (evs ++ [("step", func_name step, "start")] ++ [("step", func_name step, "end")])
    in *.
  rewrite app_assoc in *.
  eapply triple_bind; [apply status_upto; eapply prefix_app_l, Hp|].
  intros u. cbv beta.
  eapply triple_bind; [|intros u'; cbv beta; apply status_upto, Hp].
  apply silent_upto; [|eapply prefix_app_l, Hp].
  destruct (String.eqb phase "plan");
    [apply silent_run_plan_step | apply silent_run_step_on_hosts].
Qed.

Lemma steps_upto phase steps : forall evs,
  (evs ++ flat_map step_events steps) `prefix_of` full ->
  triple (told evs) (forM (run_step phase) steps)
         (fun _ => told (evs ++ flat_map step_events steps))
         (fun _ => upto) (fun _ => False).
Proof.
  induction steps as [|step steps IH]; intros evs Hp.
  - simpl. rewrite app_nil_r. apply triple_ret. auto.
  - change (flat_map step_events (step :: steps))
      with (step_events step ++ flat_map step_events steps) in *.
    rewrite app_assoc in *.
    unfold forM. simpl foldM. eapply triple_bind.
    + apply run_step_upto. eapply prefix_app_l, Hp.
    + intros []. apply IH, Hp.
Qed.

Lemma plugins_upto phase ps : forall evs,
  (evs ++ flat_map step_events (steps_of phase ps)) `prefix_of` full ->
  triple (told evs)
         (forM (fun plug =>
            steps <- lift (phase_steps phase plug) ;;
            forM (run_step phase) steps) ps)
         (fun _ => told (evs ++ flat_map step_events (steps_of phase ps)))
         (fun _ => upto) (fun _ => False).
Proof.
  induction ps as [|plug ps IH]; intros evs Hp.
  - simpl. rewrite app_nil_r. apply triple_ret. auto.
  - change (steps_of phase (plug :: ps))
      with (match phase_steps phase plug with
            | inr steps => steps
            | inl _ => []
            end ++ steps_of phase ps) in *.
    rewrite flat_map_app, app_assoc in Hp.
    rewrite flat_map_app, app_assoc.
    unfold forM at 1. simpl foldM.
    eapply (triple_bind _ _ _
      (fun _ => told (evs ++ flat_map step_events
         match phase_steps phase plug with
         | inr steps => steps
         | inl _ => []
         end))).
    + destruct (phase_steps phase plug) as [e | steps].
      * simpl. unfold bind, raise. intros w H.
        exists evs. split; [|exact H].
        eapply prefix_app_l, prefix_app_l, Hp.
      * intros w H.
        change ((steps0 <- lift (inr steps) ;; forM (run_step phase) steps0) w)
          with (forM (run_step phase) steps w).
        apply (steps_upto phase steps evs); [eapply prefix_app_l, Hp | exact H].
    + intros []. apply IH, Hp.
Qed.

End Events.

Lemma phase_body_upto l0 phase ps :
  triple (told l0 [("phase", phase, "start")]) (phase_body phase ps)
         (fun _ => told l0 (phase_events phase ps))
         (fun _ => upto l0 (phase_events phase ps)) (fun _ => False).
Proof.
  unfold phase_body, phase_events.
  set (steps := flat_map step_events (steps_of phase ps)).
  set (full := ("phase", phase, "start") :: steps ++ [("phase", phase, "end")]).
  assert (([("phase", phase, "start")] ++ steps) ++ [("phase", phase, "end")]
          = full) as Hfull by reflexivity.
  assert (([("phase", phase, "start")] ++ steps) `prefix_of` full) as Hp.
  { eexists. symmetry. exact Hfull. }
  eapply triple_bind; [apply plugins_upto, Hp|]. intros u. cbv beta.
  eapply triple_bind;
    [apply silent_upto; [apply (silent_read l0 _drones) | exact Hp]|].
  intros ds. cbv beta.
  eapply triple_bind;
    [apply silent_upto; [apply silent_post_run | exact Hp]|].
  intros rs. cbv beta.
  eapply triple_bind;
    [apply silent_upto; [apply silent_wait_pass | exact Hp]|].
  intros rs'. cbv beta.
  eapply triple_conseq;
    [apply (status_upto l0 full "phase" phase "end"
              ([("phase", phase, "start")] ++ steps)) | auto ..].
  rewrite Hfull. reflexivity.
Qed.

(** X6: the order of the status events of a phase.  Whatever the phase,
    the plugins, the hosts and the callback, and however the phase ends,
    the events delivered are a first part of: phase start, then for each
    step in the order of the plugins and of their step lists its start and
    its end, then phase end; when the phase returns they are all of
    them.  Steps, greenlets and plan records deliver no event. *)
Theorem phase_events_in_registration_order (w : World) (phase : string) :
  let out := _run_phase phase w in
  exists new,
    log (snd out) = log w ++ new /\
    statuses (map fst new) `prefix_of` phase_events phase (_plugins w) /\
    (fst out = Val tt ->
     statuses (map fst new) = phase_events phase (_plugins w)) /\
    fst out <> Fuel.
Proof.
  intros out. unfold out. rewrite run_phase_unfold, status_spec.
  destruct (_callbacks w) as [cb|].
  - destruct (cb _) as [e|].
    + exists [(Status ("phase", phase, "start"), _plan w)].
      split; [reflexivity|]. split; [|split; discriminate].
      eexists. reflexivity.
    + set (w1 := logged (Status ("phase", phase, "start")) w).
      assert (told (log w) [("phase", phase, "start")] w1) as H1.
      { exists [(Status ("phase", phase, "start"), _plan w)].
        split; reflexivity. }
      pose proof (phase_body_upto (log w) phase (_plugins w) w1 H1) as H.
      change (_plugins w1) with (_plugins w).
      destruct (phase_body phase (_plugins w) w1) as [[[] | e |] w2];
        [| |destruct H].
      * destruct H as (new & Hl & Hs). exists new. simpl.
        split; [exact Hl|]. split; [rewrite Hs; reflexivity|].
        split; [auto | discriminate].
      * destruct H as (evs & Hp & new & Hl & Hs). exists new. simpl.
        split; [exact Hl|]. split; [rewrite Hs; exact Hp|].
        split; discriminate.
  - exists []. simpl. rewrite app_nil_r. split; [reflexivity|].
    split; [apply prefix_nil|]. split; discriminate.
Qed.

(** ** What the init phase leaves of the installation *)

(** The result of an operation that neither hands control back nor
    raises. *)
Fixpoint result {A} (t : task A) : option A :=
  match t with
  | Ret a => Some a
  | Act _ k => result k
  | _ => None
  end.

(** [_install_puppet] after its first [parent.switch()]. *)
Definition discovering (h : host) (d : Drone) : task unit :=
  task_bind (discover d) (fun f => Act (SetInfo h f) (Yield (configure d))).

Lemma segment_task_bind {A} (t : task A) (f : A -> task unit) a :
  result t = Some a -> segment (task_bind t f) = segment (f a).
Proof.
  induction t as [a' | e | k IH | act k IH]; simpl; intros H;
    try discriminate H; auto.
  injection H as ->. reflexivity.
Qed.

Lemma bind_inv {A B} (m : M A) (k : A -> M B) w b w' :
  bind m k w = (Val b, w') ->
  exists a w1, m w = (Val a, w1) /\ k a w1 = (Val b, w').
Proof.
  unfold bind. destruct (m w) as [[a | e |] w1]; intros H;
    try discriminate H. eauto.
Qed.

(** Creating a greenlet and switching to it, when its first segment
    ends with [parent.switch()]. *)
Lemma spawn_switch_yield l t k w :
  segment t = (Yielded, Some k) ->
  exists w1,
    heap w1 = heap w ++ [Some k] /\ _drones w1 = _drones w /\
    forall B (f : gid -> M B),
      (run <- spawn l t ;; switch run ;; f run) w
        = f (List.length (heap w)) w1.
Proof.
  intros Hseg.
  set (g := List.length (heap w)).
  set (w0 := logged (Spawn g l) (with_heap (heap w ++ [Some t]) w)).
  assert (heap w0 !! g = Some (Some t)) as Hg.
  { simpl. apply list_lookup_middle. reflexivity. }
  pose proof (resume_spec g t w0) as Hres. cbv zeta in Hres.
  destruct (resume g t w0) as [r w1] eqn:Hrun. cbn [fst snd] in Hres.
  destruct Hres as (Hr & _ & _ & _ & Hd & Hh & _).
  rewrite Hseg in Hr, Hh. simpl in Hr, Hh. subst r.
  exists w1. split; [|split; [exact Hd|]].
  - rewrite Hh. replace g with (List.length (heap w) + 0) by (unfold g; lia).
    rewrite insert_app_r. reflexivity.
  - intros B f. unfold bind at 1. change (spawn l t w) with (Val g, w0).
    cbv beta iota. unfold bind at 1. unfold switch. rewrite Hg, Hrun.
    reflexivity.
Qed.

Lemma post_run_init ds : forall runners w,
  (forall h d, (h, d) ∈ ds -> is_Some (result (init_host d))) ->
  exists w1,
    post_run "init" ds runners w
      = (Val (runners ++ seq (List.length (heap w)) (List.length ds)), w1) /\
    heap w1 = heap w ++ map (fun hd => Some (discovering (fst hd) (snd hd))) ds.
Proof.
  induction ds as [|[h d] ds IH]; intros runners w Hds.
  - exists w. simpl. rewrite !app_nil_r. split; reflexivity.
  - destruct (Hds h d (list_elem_of_here _ _)) as [u Hu].
    destruct (spawn_switch_yield (LInstallPuppet h) (_install_puppet h d)
                (discovering h d) w) as (w1 & Hh1 & _ & Hrun).
    { unfold _install_puppet, task_seq.
      rewrite (segment_task_bind _ _ u Hu). reflexivity. }
    destruct (IH (runners ++ [List.length (heap w)]) w1) as (w2 & Hpost & Hh2).
    { intros h' d' Hin. apply (Hds h' d'). right. exact Hin. }
    exists w2. split.
    + change (post_run "init" ((h, d) :: ds) runners w)
        with ((run <- spawn (LInstallPuppet h) (_install_puppet h d) ;;
               switch run ;; post_run "init" ds (runners ++ [run])) w).
      rewrite (Hrun _ (fun run => post_run "init" ds (runners ++ [run]))).
      rewrite Hpost, Hh1, length_app, <- app_assoc. simpl.
      replace (List.length (heap w) + 1) with (S (List.length (heap w))) by lia.
      reflexivity.
    + rewrite Hh2, Hh1, <- app_assoc. reflexivity.
Qed.

(** The course of an init phase that returns: the steps lead to a
    world [w2]; the installation greenlets are created on top of its
    heap and left at their first [parent.switch()], in [w3]; one pass of
    [wait_for_runners] over them leads to [w4], which differs from the
    final world by the end event only. *)
Lemma init_phase_anatomy (w w' : World) :
  (forall h d, (h, d) ∈ _drones w -> is_Some (result (init_host d))) ->
  _run_phase "init" w = (Val tt, w') ->
  exists w2 w3 rs w4,
    heap w3 = heap w2 ++
      map (fun hd => Some (discovering (fst hd) (snd hd))) (_drones w) /\
    wait_pass (seq (List.length (heap w2)) (List.length (_drones w)))
              (seq (List.length (heap w2)) (List.length (_drones w))) w3
      = (Val rs, w4) /\
    heap w' = heap w4 /\ _info w' = _info w4.
Proof.
  intros Hds Hrun. rewrite run_phase_unfold in Hrun.
  destruct (status "phase" "init" "start" w) as [[[] | e |] w1] eqn:Hst;
    try discriminate Hrun.
  assert (_drones w1 = _drones w) as Hd1.
  { rewrite status_spec in Hst. destruct (_callbacks w); [|discriminate Hst].
    injection Hst as _ <-. reflexivity. }
  unfold phase_body in Hrun.
  apply bind_inv in Hrun as ([] & w2 & Hsteps & Hrun).
  assert (_drones w2 = _drones w) as Hd2.
  { assert (preserved (fun x => _drones x = _drones w)
              (forM (fun plug =>
                 steps <- lift (phase_steps "init" plug) ;;
                 forM (run_step "init") steps) (_plugins w1))) as Hpres.
    { apply preserved_foldM; try (intros; assumption). intros _ plug.
      apply preserved_bind; [apply preserved_lift|]. intros steps.
      apply preserved_foldM; try (intros; assumption). intros _ step.
      unfold run_step.
      apply preserved_bind; [apply preserved_status; intros; assumption|].
      intros _. apply preserved_bind;
        [|intros _; apply preserved_status; intros; assumption].
      apply preserved_run_step_on_hosts; intros; assumption. }
    specialize (Hpres w1 Hd1). rewrite Hsteps in Hpres. exact Hpres. }
  apply bind_inv in Hrun as (ds & w2' & Hread & Hrun).
  injection Hread as <- <-. rewrite Hd2 in Hrun.
  destruct (post_run_init (_drones w) [] w2 Hds) as (w3 & Hpost & Hh3).
  apply bind_inv in Hrun as (rs & w3' & Hpost' & Hrun).
  rewrite Hpost in Hpost'. injection Hpost' as <- <-.
  apply bind_inv in Hrun as (rs' & w4 & Hwait & Hend).
  exists w2, w3, rs', w4. split; [exact Hh3|]. split; [exact Hwait|].
  rewrite status_spec in Hend. destruct (_callbacks w4); [|discriminate Hend].
  injection Hend as _ <-. split; reflexivity.
Qed.

(** X7: the init phase never configures a host.  When the drones'
    [init_host] and [discover] run straight through and the init phase
    returns, the installation greenlets, the last ones created, one per
    host in the order of the hosts, are all alive: each one stands at
    its second [parent.switch()], with the call of [drone.configure()]
    still to come, and nothing resumes it any more. *)
Theorem init_phase_leaves_configure_pending (w w' : World) :
  (forall h d, (h, d) ∈ _drones w ->
     is_Some (result (init_host d)) /\ is_Some (result (discover d))) ->
  _run_phase "init" w = (Val tt, w') ->
  exists started,
    heap w' = started ++ map (fun hd => Some (configure (snd hd))) (_drones w).
Proof.
  intros Hds Hrun.
  destruct (init_phase_anatomy w w' (fun h d Hin => proj1 (Hds h d Hin)) Hrun)
    as (w2 & w3 & rs & w4 & Hh3 & Hwait & Hh' & _).
  exists (heap w2). rewrite Hh'.
  set (n := List.length (heap w2)) in *.
  set (k := List.length (_drones w)) in *.
  pose proof (wait_pass_spec (seq n k) (seq n k) w3 (NoDup_seq n k)) as Hspec.
  rewrite Hwait in Hspec.
  destruct Hspec as [_ Hheap].
  apply list_eq. intros i. rewrite Hheap, Hh3.
  change (map (fun hd : host * Drone => Some (discovering (fst hd) (snd hd)))
              (_drones w))
    with ((fun hd : host * Drone => Some (discovering (fst hd) (snd hd)))
            <$> _drones w).
  change (map (fun hd : host * Drone => Some (configure (snd hd))) (_drones w))
    with ((fun hd : host * Drone => Some (configure (snd hd))) <$> _drones w).
  destruct (decide (i ∈ seq n k)) as [Hin | Hin].
  - apply elem_of_seq in Hin as [Hlo Hhi].
    rewrite !lookup_app_r by (fold n; lia). fold n.
    rewrite !list_lookup_fmap.
    destruct (_drones w !! (i - n)) as [[h d]|] eqn:Hi; [|reflexivity].
    simpl. f_equal. f_equal.
    destruct (Hds h d (list_elem_of_lookup_2 _ _ _ Hi)) as [_ [f Hf]].
    unfold discovering. rewrite (segment_task_bind _ _ f Hf). reflexivity.
  - rewrite elem_of_seq in Hin.
    destruct (decide (i < n)) as [Hlt | Hge].
    + rewrite !lookup_app_l by (fold n; lia). reflexivity.
    + rewrite !lookup_app_r by (fold n; lia). fold n.
      rewrite !list_lookup_fmap.
      rewrite (lookup_ge_None_2 (_drones w) (i - n)) by (fold k; lia).
      reflexivity.
Qed.

Lemma init_phase_leaves_configure_pending_witness :
  exists started,
    heap (snd (_run_phase "init" sample_controller)) =
      started ++ [Some (configure agent); Some (configure agent)].
Proof.
  apply (init_phase_leaves_configure_pending sample_controller
           (snd (_run_phase "init" sample_controller))).
  - intros h d Hin. unfold sample_controller, sample_drones in Hin. simpl in Hin.
    assert (d = agent) as ->.
    { repeat (apply elem_of_cons in Hin as [Hin | Hin];
                [injection Hin as _ ->; reflexivity|]).
      inversion Hin. }
    split; eexists; reflexivity.
  - vm_compute. reflexivity.
Defined.

(** ** The facts the init phase collects *)

(** [self._info[h]] *)
Fixpoint info_get (i : list (host * facts)) (h : host) : option facts :=
  match i with
  | [] => None
  | (h', f) :: i' => if String.eqb h' h then Some f else info_get i' h
  end.

(** The result of an operation that has external effects only: it
    neither hands control back, nor raises, nor writes host facts. *)
Fixpoint pure_result {A} (t : task A) : option A :=
  match t with
  | Ret a => Some a
  | Act (Effect _) k => pure_result k
  | _ => None
  end.

(** What the first segment of a task does to [self._info]. *)
Fixpoint segment_info (t : task unit) (i : list (host * facts))
  : list (host * facts) :=
  match t with
  | Act (SetInfo h f) k => segment_info k (info_set i h f)
  | Act (Effect _) k => segment_info k i
  | _ => i
  end.

Lemma info_get_set_eq i h f : info_get (info_set i h f) h = Some f.
Proof.
  induction i as [|[h' f'] i IH]; simpl.
  - rewrite String.eqb_refl. reflexivity.
  - destruct (String.eqb h' h) eqn:E; simpl; rewrite E; auto.
Qed.

Lemma info_get_set_ne i h h' f :
  h <> h' -> info_get (info_set i h f) h' = info_get i h'.
Proof.
  intros Hne. induction i as [|[h1 f1] i IH]; simpl.
  - apply String.eqb_neq in Hne. rewrite Hne. reflexivity.
  - destruct (String.eqb_spec h1 h) as [-> | Hh]; simpl.
    + apply String.eqb_neq in Hne. rewrite Hne. reflexivity.
    + destruct (String.eqb h1 h'); [reflexivity | exact IH].
Qed.

Lemma resume_info g t : forall w,
  _info (snd (resume g t w)) = segment_info t (_info w).
Proof.
  induction t as [a | e | k IH | [h f | what] k IH]; intros w; simpl;
    try reflexivity; rewrite IH; reflexivity.
Qed.

Lemma segment_info_bind {A} (t : task A) (k : A -> task unit) a i :
  pure_result t = Some a ->
  segment_info (task_bind t k) i = segment_info (k a) i.
Proof.
  induction t as [a' | e | t IH | [h f | what] t IH]; simpl; intros H;
    try discriminate H; auto.
  injection H as ->. reflexivity.
Qed.

Lemma pure_result_result {A} (t : task A) a :
  pure_result t = Some a -> result t = Some a.
Proof.
  induction t as [a' | e | t IH | [h f | what] t IH]; simpl; intros H;
    try discriminate H; auto.
Qed.

Lemma foldl_ext_in {A B} (f g : B -> A -> B) (l : list A) : forall b,
  (forall b x, x ∈ l -> f b x = g b x) -> foldl f b l = foldl g b l.
Proof.
  induction l as [|x l IH]; intros b H; [reflexivity|]. simpl.
  rewrite (H b x) by left. apply IH. intros b' y Hy. apply H. right. exact Hy.
Qed.

(** What one pass of [wait_for_runners] does to [self._info]. *)
Lemma wait_pass_info snapshot : forall runners w,
  NoDup snapshot ->
  match wait_pass snapshot runners w with
  | (Val _, w') =>
      _info w' =
        foldl (fun i g =>
                 match heap w !! g with
                 | Some (Some t) => segment_info t i
                 | _ => i
                 end) (_info w) snapshot
  | _ => True
  end.
Proof.
  induction snapshot as [|run rest IH]; intros runners w Hnd.
  - reflexivity.
  - apply NoDup_cons in Hnd as [Hrun Hnd]. rewrite wait_pass_cons.
    simpl foldl.
    destruct (heap w !! run) as [[t|]|] eqn:Hg.
    + pose proof (resume_spec run t w) as Hres. cbv zeta in Hres.
      pose proof (resume_info run t w) as Hinfo.
      destruct (resume run t w) as [r w1]. cbn [fst snd] in Hres, Hinfo.
      destruct Hres as (_ & _ & _ & _ & _ & Hh & _).
      destruct r as [[] | e |]; [|exact I..].
      specialize (IH runners w1 Hnd).
      destruct (wait_pass rest runners w1) as [[rs | e |] w']; [|exact I..].
      rewrite IH, Hinfo. apply foldl_ext_in. intros i g Hin.
      rewrite Hh, list_lookup_insert_ne; [reflexivity|].
      intros ->. contradiction.
    + apply IH, Hnd.
    + apply IH, Hnd.
Qed.

(** The pass over the installation greenlets, seen from the hosts. *)
Lemma foldl_installed (c : host * Drone -> task unit) ds : forall pre i0,
  foldl (fun i g =>
           match (pre ++ map (fun hd => Some (c hd)) ds) !! g with
           | Some (Some t) => segment_info t i
           | _ => i
           end) i0 (seq (List.length pre) (List.length ds))
  = foldl (fun i hd => segment_info (c hd) i) i0 ds.
Proof.
  induction ds as [|hd ds IH]; intros pre i0; [reflexivity|].
  simpl seq. simpl foldl.
  rewrite list_lookup_middle by reflexivity.
  specialize (IH (pre ++ [Some (c hd)]) (segment_info (c hd) i0)).
  rewrite length_app in IH. simpl in IH.
  replace (List.length pre + 1) with (S (List.length pre)) in IH by lia.
  rewrite <- IH. apply foldl_ext_in. intros i g _.
  rewrite <- app_assoc. reflexivity.
Qed.

Lemma info_get_foldl_other (F : host * Drone -> facts) ds h : forall i0,
  h ∉ map fst ds ->
  info_get (foldl (fun i hd => info_set i (fst hd) (F hd)) i0 ds) h
    = info_get i0 h.
Proof.
  induction ds as [|hd ds IH]; intros i0 Hh; [reflexivity|]. simpl.
  rewrite IH.
  - apply info_get_set_ne. intros Heq. apply Hh. rewrite <- Heq. left.
  - intros Hin. apply Hh. right. exact Hin.
Qed.

Lemma info_get_foldl (F : host * Drone -> facts) ds hd : forall i0,
  NoDup (map fst ds) -> hd ∈ ds ->
  info_get (foldl (fun i hd => info_set i (fst hd) (F hd)) i0 ds) (fst hd)
    = Some (F hd).
Proof.
  induction ds as [|x ds IH]; intros i0 Hnd Hin; [inversion Hin|].
  simpl in Hnd. apply NoDup_cons in Hnd as [Hx Hnd]. simpl.
  apply elem_of_cons in Hin as [-> | Hin].
  - rewrite info_get_foldl_other by exact Hx. apply info_get_set_eq.
  - apply IH; assumption.
Qed.

(** X14: the init phase stores the facts of every host.  With hosts
    whose [init_host] runs straight through and whose [discover] has
    external effects only, [self._info] maps every host to the result of
    its [discover] when the phase returns, although the installation is
    not completed. *)
Theorem init_phase_discovers_every_host (w w' : World) :
  NoDup (map fst (_drones w)) ->
  (forall h d, (h, d) ∈ _drones w ->
     is_Some (result (init_host d)) /\ is_Some (pure_result (discover d))) ->
  _run_phase "init" w = (Val tt, w') ->
  forall h d, (h, d) ∈ _drones w ->
    info_get (_info w') h = pure_result (discover d).
Proof.
  intros Hnd Hds Hrun h d Hin.
  destruct (init_phase_anatomy w w' (fun h d Hin => proj1 (Hds h d Hin)) Hrun)
    as (w2 & w3 & rs & w4 & Hh3 & Hwait & _ & Hi').
  rewrite Hi'.
  pose proof (wait_pass_info _
                (seq (List.length (heap w2)) (List.length (_drones w))) w3
                (NoDup_seq (List.length (heap w2))
                           (List.length (_drones w)))) as Hinfo.
  rewrite Hwait in Hinfo. rewrite Hinfo, Hh3.
  rewrite (foldl_installed (fun hd => discovering (fst hd) (snd hd))).
  set (F := fun hd : host * Drone =>
              match pure_result (discover (snd hd)) with
              | Some f => f
              | None => ""
              end).
  rewrite (foldl_ext_in _ (fun i hd => info_set i (fst hd) (F hd))).
  - rewrite (info_get_foldl F (_drones w) (h, d) _ Hnd Hin).
    destruct (Hds h d Hin) as [_ [f Hf]]. unfold F. simpl. rewrite Hf.
    reflexivity.
  - intros i [h1 d1] Hin1. destruct (Hds h1 d1 Hin1) as [_ [f Hf]].
    unfold discovering, F. simpl.
    rewrite (segment_info_bind _ _ f _ Hf), Hf. reflexivity.
Qed.

Lemma init_phase_discovers_every_host_witness :
  info_get (_info (snd (_run_phase "init" sample_controller))) "host2"
    = Some "facts".
Proof.
  assert (NoDup (map fst (_drones sample_controller))) as Hnd.
  { simpl. repeat constructor; intros H;
      repeat (apply elem_of_cons in H as [H | H]; [discriminate H|]);
      inversion H. }
  assert (forall h d, (h, d) ∈ _drones sample_controller ->
            is_Some (result (init_host d)) /\
            is_Some (pure_result (discover d))) as Hds.
  { intros h d Hin. unfold sample_controller, sample_drones in Hin.
    simpl in Hin.
    assert (d = agent) as ->.
    { repeat (apply elem_of_cons in Hin as [Hin | Hin];
                [injection Hin as _ ->; reflexivity|]).
      inversion Hin. }
    split; eexists; reflexivity. }
  assert (_run_phase "init" sample_controller =
            (Val tt, snd (_run_phase "init" sample_controller))) as Hrun
    by (vm_compute; reflexivity).
  apply (init_phase_discovers_every_host sample_controller _ Hnd Hds Hrun
           "host2" agent).
  right. left.
Defined.

(** ** The greenlets of a phase *)

(** The labels of the greenlets created, in the order of creation. *)
Fixpoint labels (l : list entry) : list label :=
  match l with
  | [] => []
  | Spawn _ lb :: l' => lb :: labels l'
  | _ :: l' => labels l'
  end.

(** The greenlets of one step: one per host, except in the plan phase,
    where the step is called directly. *)
Definition step_labels (phase : string) (ds : list (host * Drone))
    (s : Step) : list label :=
  if String.eqb phase "plan" then []
  else map (fun hd => LStep (func_name s) (fst hd)) ds.

(** The greenlets of the post-run loop. *)
Definition post_labels (phase : string) (ds : list (host * Drone))
  : list label :=
  if String.eqb phase "init" then map (fun hd => LInstallPuppet (fst hd)) ds
  else if String.eqb phase "plan" then map (fun hd => LMakeBuild (fst hd)) ds
  else [].

Definition phase_labels (phase : string) (ps : list PluginData)
    (ds : list (host * Drone)) : list label :=
  flat_map (step_labels phase ds) (steps_of phase ps) ++ post_labels phase ds.

Lemma labels_app l1 l2 : labels (l1 ++ l2) = labels l1 ++ labels l2.
Proof.
  induction l1 as [|[] l1 IH]; simpl; rewrite ?IH; reflexivity.
Qed.

Lemma labels_stamp_segment p g t o :
  labels (map fst (stamp p (segment_log g t ++ [Switch g o]))) = [].
Proof.
  unfold stamp. rewrite map_map. simpl. rewrite map_id.
  rewrite labels_app. simpl. rewrite app_nil_r.
  induction t as [a | e | k IH | [h f | what] k IH]; simpl; auto.
Qed.

Lemma prefix_of_app_l {A} (a b full : list A) :
  (a ++ b) `prefix_of` full -> a `prefix_of` full.
Proof. intros [k Hk]. exists (b ++ k). rewrite Hk, app_assoc. reflexivity. Qed.

Section Started.

(** The log and the drones when the phase is entered. *)
Variable l0 : list (entry * Plan).
Variable ds0 : list (host * Drone).

(** The greenlets [ls] have been created since. *)
Definition started (ls : list label) (w : World) : Prop :=
  _drones w = ds0 /\
  exists new, log w = l0 ++ new /\ labels (map fst new) = ls.

(** A computation that creates no greenlet, and ends. *)
Definition idle {A} (m : M A) : Prop :=
  forall ls,
    triple (started ls) m (fun _ => started ls) (fun _ => started ls)
           (fun _ => False).

Lemma started_logged ls e w :
  (forall g lb, e <> Spawn g lb) -> started ls w -> started ls (logged e w).
Proof.
  intros He (Hd & new & Hl & Hs). split; [exact Hd|].
  exists (new ++ [(e, _plan w)]). split.
  - simpl. rewrite Hl, app_assoc. reflexivity.
  - rewrite map_app, labels_app, Hs. simpl.
    destruct e; try apply app_nil_r. exfalso. eapply He. reflexivity.
Qed.

Lemma started_same ls w w' :
  log w' = log w -> _drones w' = _drones w -> started ls w -> started ls w'.
Proof.
  intros Hl Hd' (Hd & new & H). split; [congruence|].
  exists new. rewrite Hl. exact H.
Qed.

Lemma idle_ret {A} (a : A) : idle (ret a).
Proof. intros ls. apply triple_ret. auto. Qed.

Lemma idle_lift {A} (r : exn + A) : idle (lift r).
Proof.
  intros ls. destruct r; [apply triple_raise | apply triple_ret]; auto.
Qed.

Lemma idle_read {A} (f : World -> A) : idle (fun w => (Val (f w), w)).
Proof. intros ls w H. exact H. Qed.

Lemma idle_bind {A B} (m : M A) (k : A -> M B) :
  idle m -> (forall a, idle (k a)) -> idle (bind m k).
Proof.
  intros Hm Hk ls. eapply triple_bind; [apply Hm|]. intros a. apply Hk.
Qed.

Lemma idle_foldM {A B} (body : B -> A -> M B) l :
  (forall b x, idle (body b x)) -> forall b, idle (foldM body l b).
Proof.
  intros Hb b ls.
  apply (triple_foldM (fun _ => started ls) body (fun _ => started ls)
           (fun _ => False) l).
  intros b' x _. apply Hb.
Qed.

Lemma idle_set_plan p : idle (set_plan p).
Proof.
  intros ls w H. simpl. eapply started_same; [| |exact H]; reflexivity.
Qed.

Lemma idle_status ty nm st : idle (status ty nm st).
Proof.
  intros ls w H. rewrite status_spec.
  destruct (_callbacks w) as [cb|]; [|exact H].
  destruct (cb _); apply started_logged; try exact H; discriminate.
Qed.

Lemma idle_switch g : idle (switch g).
Proof.
  intros ls w H. unfold switch.
  destruct (heap w !! g) as [[t|]|]; try exact H.
  pose proof (resume_spec g t w) as Hres. cbv zeta in Hres.
  destruct (resume g t w) as [r w']. cbn [fst snd] in Hres.
  destruct Hres as (Hr & _ & _ & _ & Hd' & _ & Hl).
  assert (started ls w') as Ht.
  { destruct H as (Hd & new & Hl0 & Hs). split; [congruence|].
    eexists. split.
    - rewrite Hl, Hl0, <- app_assoc. reflexivity.
    - rewrite map_app, labels_app, Hs, labels_stamp_segment.
      apply app_nil_r. }
  rewrite Hr. destruct (fst (segment t)); exact Ht.
Qed.

Lemma idle_wait_pass snapshot : forall runners, idle (wait_pass snapshot runners).
Proof.
  induction snapshot as [|run rest IH]; intros runners; simpl.
  - apply idle_ret.
  - apply idle_bind; [apply (idle_read (fun w => _))|].
    intros [|]; [apply IH|].
    apply idle_bind; [apply idle_switch | intros _; apply IH].
Qed.

Lemma idle_plan_record r : idle (plan_record r).
Proof.
  unfold plan_record.
  apply idle_bind.
  { intros ls w H. unfold drone_of.
    destruct (drone_get (_drones w) (r_host r)); exact H. }
  intros _. apply idle_bind.
  { intros ls w H. simpl. apply started_logged; [discriminate | exact H]. }
  intros _.
  apply idle_bind; [apply (idle_read _plan)|]. intros p.
  apply idle_bind; [apply idle_set_plan|]. intros _.
  apply idle_bind; [apply (idle_read _plan)|]. intros p1.
  apply idle_bind; [apply idle_set_plan|]. intros _.
  apply idle_bind; [apply (idle_read _plan)|]. intros p2.
  destruct (dependency p2); [apply idle_set_plan|].
  intros ls. apply triple_raise. auto.
Qed.

Lemma idle_run_plan_step step : idle (run_plan_step step).
Proof.
  unfold run_plan_step.
  apply idle_bind; [apply idle_read|]. intros i.
  apply idle_bind; [apply idle_lift|]. intros rs.
  apply idle_foldM. intros _ r. apply idle_plan_record.
Qed.

(** All the greenlets the phase can create. *)
Variable full : list label.

Definition within (w : World) : Prop :=
  exists ls, ls `prefix_of` full /\ started ls w.

Lemma idle_within {A} (m : M A) ls :
  idle m -> ls `prefix_of` full ->
  triple (started ls) m (fun _ => started ls) (fun _ => within)
         (fun _ => False).
Proof.
  intros Hm Hp. eapply triple_conseq; [apply (Hm ls) | auto ..].
  intros e w H. exists ls. auto.
Qed.

Lemma hosts_loop_within {B} (lb : host -> label) (t : host -> task unit)
    (next : B -> gid -> B) ds : forall ls acc,
  (ls ++ map (fun hd => lb (fst hd)) ds) `prefix_of` full ->
  triple (started ls)
         (foldM (fun acc (hd : host * Drone) =>
            run <- spawn (lb (fst hd)) (t (fst hd)) ;;
            switch run ;; ret (next acc run)) ds acc)
         (fun _ => started (ls ++ map (fun hd => lb (fst hd)) ds))
         (fun _ => within) (fun _ => False).
Proof.
  induction ds as [|hd ds IH]; intros ls acc Hp.
  - simpl. rewrite app_nil_r. apply triple_ret. auto.
  - change (map (fun hd => lb (fst hd)) (hd :: ds))
      with ([lb (fst hd)] ++ map (fun hd => lb (fst hd)) ds) in *.
    rewrite app_assoc in *. simpl foldM.
    eapply (triple_bind _ _ _ (fun _ => started (ls ++ [lb (fst hd)]))).
    + eapply (triple_bind _ _ _ (fun _ => started (ls ++ [lb (fst hd)]))).
      * intros w (Hd & new & Hl & Hs). simpl. split; [exact Hd|].
        exists (new ++ [(Spawn (List.length (heap w)) (lb (fst hd)), _plan w)]).
        split.
        -- simpl. rewrite Hl, app_assoc. reflexivity.
        -- rewrite map_app, labels_app, Hs. reflexivity.
      * intros run. apply idle_within; [|eapply prefix_of_app_l, Hp].
        apply idle_bind; [apply idle_switch | intros _; apply idle_ret].
    + intros acc'. apply IH, Hp.
Qed.

End Started.

Lemma triple_pure {A} (phi : Prop) (P : World -> Prop) (m : M A)
    (Q : A -> World -> Prop) (E : exn -> World -> Prop) (F : World -> Prop) :
  (phi -> triple P m Q E F) -> triple (fun w => phi /\ P w) m Q E F.
Proof. intros H w [Hphi Hw]. apply (H Hphi w Hw). Qed.

Lemma read_drones_started l0 ds0 full ls :
  triple (started l0 ds0 ls) (fun w => (Val (_drones w), w))
         (fun ds w => ds = ds0 /\ started l0 ds0 ls w)
         (fun _ => within l0 ds0 full) (fun _ => False).
Proof. intros w H. split; [apply H | exact H]. Qed.

Lemma spawn_started l0 ds0 full lb t ls :
  triple (started l0 ds0 ls) (spawn lb t)
         (fun _ => started l0 ds0 (ls ++ [lb]))
         (fun _ => within l0 ds0 full) (fun _ => False).
Proof.
  intros w (Hd & new & Hl & Hs). simpl. split; [exact Hd|].
  exists (new ++ [(Spawn (List.length (heap w)) lb, _plan w)]). split.
  - simpl. rewrite Hl, app_assoc. reflexivity.
  - rewrite map_app, labels_app, Hs. reflexivity.
Qed.

Lemma run_step_on_hosts_within l0 ds0 full step ls :
  (ls ++ map (fun hd => LStep (func_name step) (fst hd)) ds0)
    `prefix_of` full ->
  triple (started l0 ds0 ls) (run_step_on_hosts step)
         (fun _ => started l0 ds0
            (ls ++ map (fun hd => LStep (func_name step) (fst hd)) ds0))
         (fun _ => within l0 ds0 full) (fun _ => False).
Proof.
  intros Hp. unfold run_step_on_hosts.
  eapply triple_bind; [apply read_drones_started|]. intros ds. cbv beta.
  apply triple_pure. intros ->.
  eapply triple_bind.
  - apply (hosts_loop_within l0 ds0 full (fun h => LStep (func_name step) h)
             (host_call step) (fun runners run => runners ++ [run]) ds0 ls []).
    exact Hp.
  - intros rs. cbv beta.
    apply idle_within; [|exact Hp].
    apply idle_bind; [apply idle_wait_pass | intros _; apply idle_ret].
Qed.

Lemma run_step_within l0 ds0 full phase step ls :
  (ls ++ step_labels phase ds0 step) `prefix_of` full ->
  triple (started l0 ds0 ls) (run_step phase step)
         (fun _ => started l0 ds0 (ls ++ step_labels phase ds0 step))
         (fun _ => within l0 ds0 full) (fun _ => False).
Proof.
  intros Hp. unfold run_step.
  eapply triple_bind;
    [apply idle_within; [apply idle_status | eapply prefix_of_app_l, Hp]|].
  intros u. cbv beta.
  eapply triple_bind;
    [|intros u'; cbv beta; apply idle_within; [apply idle_status | exact Hp]].
  unfold step_labels in *. destruct (String.eqb phase "plan").
  - rewrite app_nil_r in *. apply idle_within; [|exact Hp].
    apply idle_run_plan_step.
  - apply run_step_on_hosts_within, Hp.
Qed.

Lemma steps_within l0 ds0 full phase steps : forall ls,
  (ls ++ flat_map (step_labels phase ds0) steps) `prefix_of` full ->
  triple (started l0 ds0 ls) (forM (run_step phase) steps)
         (fun _ => started l0 ds0 (ls ++ flat_map (step_labels phase ds0) steps))
         (fun _ => within l0 ds0 full) (fun _ => False).
Proof.
  induction steps as [|step steps IH]; intros ls Hp.
  - simpl. rewrite app_nil_r. apply triple_ret. auto.
  - change (flat_map (step_labels phase ds0) (step :: steps))
      with (step_labels phase ds0 step ++ flat_map (step_labels phase ds0) steps)
      in *.
    rewrite app_assoc in *.
    unfold forM. simpl foldM. eapply triple_bind.
    + apply run_step_within. eapply prefix_of_app_l, Hp.
    + intros []. apply IH, Hp.
Qed.

Lemma plugins_within l0 ds0 full phase ps : forall ls,
  (ls ++ flat_map (step_labels phase ds0) (steps_of phase ps))
    `prefix_of` full ->
  triple (started l0 ds0 ls)
         (forM (fun plug =>
            steps <- lift (phase_steps phase plug) ;;
            forM (run_step phase) steps) ps)
         (fun _ => started l0 ds0
            (ls ++ flat_map (step_labels phase ds0) (steps_of phase ps)))
         (fun _ => within l0 ds0 full) (fun _ => False).
Proof.
  induction ps as [|plug ps IH]; intros ls Hp.
  - simpl. rewrite app_nil_r. apply triple_ret. auto.
  - change (steps_of phase (plug :: ps))
      with (match phase_steps phase plug with
            | inr steps => steps
            | inl _ => []
            end ++ steps_of phase ps) in *.
    rewrite flat_map_app, app_assoc in Hp.
    rewrite flat_map_app, app_assoc.
    unfold forM at 1. simpl foldM.
    eapply (triple_bind _ _ _
      (fun _ => started l0 ds0 (ls ++ flat_map (step_labels phase ds0)
         match phase_steps phase plug with
         | inr steps => steps
         | inl _ => []
         end))).
    + destruct (phase_steps phase plug) as [e | steps].
      * simpl. unfold bind, raise. intros w H.
        exists ls. split; [|exact H].
        eapply prefix_of_app_l, prefix_of_app_l, Hp.
      * intros w H.
        change ((steps0 <- lift (inr steps) ;; forM (run_step phase) steps0) w)
          with (forM (run_step phase) steps w).
        apply (steps_within l0 ds0 full phase steps ls);
          [eapply prefix_of_app_l, Hp | exact H].
    + intros []. apply IH, Hp.
Qed.

Lemma post_run_within l0 ds0 full phase ds : forall runners ls,
  (ls ++ post_labels phase ds) `prefix_of` full ->
  triple (started l0 ds0 ls) (post_run phase ds runners)
         (fun _ => started l0 ds0 (ls ++ post_labels phase ds))
         (fun _ => within l0 ds0 full) (fun _ => False).
Proof.
  unfold post_labels.
  induction ds as [|[h d] ds IH]; intros runners ls Hp; simpl post_run.
  - apply triple_ret. intros w H.
    destruct (String.eqb phase "init"); [|destruct (String.eqb phase "plan")];
      simpl; rewrite app_nil_r; exact H.
  - destruct (String.eqb phase "init"); [|destruct (String.eqb phase "plan")].
    + simpl map in *.
      change (ls ++ LInstallPuppet h :: map (fun hd => LInstallPuppet (fst hd)) ds)
        with (ls ++ [LInstallPuppet h] ++ map (fun hd => LInstallPuppet (fst hd)) ds)
        in *.
      rewrite app_assoc in *.
      eapply triple_bind; [apply spawn_started|]. intros run. cbv beta.
      eapply triple_bind;
        [apply idle_within; [apply idle_switch | eapply prefix_of_app_l, Hp]|].
      intros u. cbv beta. apply IH, Hp.
    + simpl map in *.
      change (ls ++ LMakeBuild h :: map (fun hd => LMakeBuild (fst hd)) ds)
        with (ls ++ [LMakeBuild h] ++ map (fun hd => LMakeBuild (fst hd)) ds)
        in *.
      rewrite app_assoc in *.
      eapply triple_bind; [apply spawn_started|]. intros run. cbv beta.
      eapply triple_bind;
        [apply idle_within; [apply idle_switch | eapply prefix_of_app_l, Hp]|].
      intros u. cbv beta. apply IH, Hp.
    + apply triple_ret. intros w H. rewrite app_nil_r. exact H.
Qed.

Lemma phase_body_within l0 ds0 phase ps :
  triple (started l0 ds0 []) (phase_body phase ps)
         (fun _ => started l0 ds0 (phase_labels phase ps ds0))
         (fun _ => within l0 ds0 (phase_labels phase ps ds0))
         (fun _ => False).
Proof.
  unfold phase_body, phase_labels.
  set (steps := flat_map (step_labels phase ds0) (steps_of phase ps)).
  set (full := steps ++ post_labels phase ds0).
  assert (steps `prefix_of` full) as Hp by (eexists; reflexivity).
  eapply triple_bind; [apply (plugins_within l0 ds0 full phase ps []), Hp|].
  intros u. cbv beta. change ([] ++ steps) with steps.
  eapply triple_bind; [apply read_drones_started|]. intros ds. cbv beta.
  apply triple_pure. intros ->.
  eapply triple_bind; [apply post_run_within; reflexivity|].
  intros rs. cbv beta. fold full.
  apply idle_within; [|reflexivity].
  apply idle_bind; [apply idle_wait_pass | intros _; apply idle_status].
Qed.

(** X12: the greenlets of a phase.  However the phase ends, the
    greenlets created are a first part of: for each step in the order of
    the plugins, one greenlet per host in the order of the hosts (none in
    the plan phase, whose steps are called directly), then one
    installation greenlet per host in the init phase, one build greenlet
    per host in the plan phase, none in any other phase; when the phase
    returns they are all of them, so no step and no host is left out. *)
Theorem phase_greenlets_cover_steps_and_hosts (w : World) (phase : string) :
  let out := _run_phase phase w in
  exists new,
    log (snd out) = log w ++ new /\
    labels (map fst new)
      `prefix_of` phase_labels phase (_plugins w) (_drones w) /\
    (fst out = Val tt ->
     labels (map fst new) = phase_labels phase (_plugins w) (_drones w)).
Proof.
  intros out. unfold out. rewrite run_phase_unfold, status_spec.
  destruct (_callbacks w) as [cb|].
  - destruct (cb _) as [e|].
    + exists [(Status ("phase", phase, "start"), _plan w)].
      split; [reflexivity|]. split; [apply prefix_nil | discriminate].
    + set (w1 := logged (Status ("phase", phase, "start")) w).
      assert (started (log w1) (_drones w) [] w1) as H1.
      { split; [reflexivity|]. exists []. rewrite app_nil_r.
        split; reflexivity. }
      pose proof (phase_body_within (log w1) (_drones w) phase (_plugins w)
                    w1 H1) as H.
      change (_plugins w1) with (_plugins w).
      destruct (phase_body phase (_plugins w) w1) as [[[] | e |] w2];
        [| |destruct H].
      * destruct H as (_ & new & Hl & Hs).
        exists ((Status ("phase", phase, "start"), _plan w) :: new). simpl.
        split; [rewrite Hl; simpl; rewrite <- app_assoc; reflexivity|].
        split; [rewrite Hs; reflexivity | auto].
      * destruct H as (ls & Hp & _ & new & Hl & Hs).
        exists ((Status ("phase", phase, "start"), _plan w) :: new). simpl.
        split; [rewrite Hl; simpl; rewrite <- app_assoc; reflexivity|].
        split; [rewrite Hs; exact Hp | discriminate].
  - exists []. simpl. rewrite app_nil_r. split; [reflexivity|].
    split; [apply prefix_nil | discriminate].
Qed.

(** ** A marker left in progress *)

Lemma initiate_unfold marker mans timeout debug R w :
  initiate marker mans timeout debug R w =
    match set_remove marker (waiting (_plan w)) with
    | inl e => (Exc e, w)
    | inr wt =>
        let w2 :=
          with_plan (with_in_progress
                       (set_add marker (in_progress (_plan w)))
                       (with_waiting wt (_plan w))) w in
        match py_iter mans with
        | inl e => (Exc e, w2)
        | inr items => foldM (start_deploy marker timeout debug) items R w2
        end
    end.
Proof.
  unfold initiate, bind, get_plan, set_plan, lift.
  destruct (set_remove marker (waiting (_plan w))); simpl; [reflexivity|].
  destruct (py_iter mans); reflexivity.
Qed.

Lemma check_end_unfold marker w :
  check_end marker [] w =
    let w1 :=
      with_plan (with_finished (set_add marker (finished (_plan w))) (_plan w))
                w in
    match set_remove marker (in_progress (_plan w)) with
    | inl e => (Exc e, w1)
    | inr ip => (Val tt, with_plan (with_in_progress ip (_plan w1)) w1)
    end.
Proof.
  unfold check_end, bind, get_plan, set_plan, lift. simpl.
  destruct (set_remove marker (in_progress (_plan w))); reflexivity.
Qed.

Section Stuck.

(** A marker that is in progress without waiting, as a call of
    [run_deployment] that raised leaves the marker it was deploying. *)
Variable m : pyval.
Variable timeout : option Z.
Variable debug : bool.

Definition stuck (w : World) : Prop :=
  m ∈ in_progress (_plan w) /\ m ∉ waiting (_plan w).

(** The local dictionary [runners] has no entry for the marker. *)
Definition untracked (R : dict (list gid)) : Prop := dict_get R m = None.

Lemma stuck_logged e w : stuck w -> stuck (logged e w).
Proof. intros H. exact H. Qed.

Lemma stuck_heap h w : stuck w -> stuck (with_heap h w).
Proof. intros H. exact H. Qed.

Lemma stuck_info i w : stuck w -> stuck (with_info i w).
Proof. intros H. exact H. Qed.

Lemma kept_triple {A} (x : M A) :
  preserved stuck x ->
  triple stuck x (fun _ => stuck) (fun _ _ => True) (fun _ => True).
Proof.
  intros H w Hw. specialize (H w Hw).
  destruct (x w) as [[a | e |] w']; auto.
Qed.

Lemma untracked_set R marker rs :
  untracked R -> marker <> m -> untracked (dict_set R marker rs).
Proof.
  intros HR Hne. unfold untracked. rewrite dict_get_set.
  rewrite decide_False by exact Hne. exact HR.
Qed.

Lemma start_deploy_stuck marker R item :
  untracked R -> marker <> m ->
  triple stuck (start_deploy marker timeout debug R item)
         (fun R' w => untracked R' /\ stuck w)
         (fun _ _ => True) (fun _ => True).
Proof.
  intros HR Hne. unfold start_deploy.
  eapply triple_bind; [apply kept_triple, preserved_lift|]. intros hm.
  cbv beta.
  eapply triple_bind.
  { apply kept_triple. intros w Hw.
    destruct (drone_of_val_cases (fst hm) w) as [[d ->] | [e ->]]; exact Hw. }
  intros dr. cbv beta.
  eapply triple_bind;
    [apply kept_triple, preserved_spawn; [apply stuck_logged | apply stuck_heap]|].
  intros run. cbv beta zeta.
  eapply triple_bind;
    [apply kept_triple, preserved_switch;
     [apply stuck_logged | apply stuck_heap | apply stuck_info]|].
  intros u. cbv beta. apply triple_ret. intros w Hw.
  split; [|exact Hw]. apply untracked_set; assumption.
Qed.

Lemma initiate_stuck marker mans R :
  untracked R ->
  triple stuck (initiate marker mans timeout debug R)
         (fun R' w => (untracked R' /\ marker <> m) /\ stuck w)
         (fun _ _ => True) (fun _ => True).
Proof.
  intros HR w [Hin Hnw]. rewrite initiate_unfold.
  destruct (set_remove marker (waiting (_plan w))) as [e | wt] eqn:Hrm;
    [exact I|].
  assert (marker <> m) as Hne.
  { intros ->. apply Hnw. eapply set_remove_inr, Hrm. }
  cbv zeta. destruct (py_iter mans) as [e | items]; [exact I|].
  set (w2 := with_plan _ w).
  assert (stuck w2) as H2.
  { split; simpl.
    - apply elem_of_set_add. right. exact Hin.
    - intros Hwt. apply (elem_of_set_remove m marker _ _ Hrm) in Hwt as [Hwt _].
      contradiction. }
  pose proof (triple_foldM (fun R' w' => untracked R' /\ stuck w')
                (start_deploy marker timeout debug)
                (fun _ _ => True) (fun _ => True) items) as Hfold.
  specialize (Hfold (fun b x _ =>
    triple_pure _ _ _ _ _ _ (fun Hb => start_deploy_stuck marker b x Hb Hne))).
  specialize (Hfold R w2 (conj HR H2)).
  destruct (foldM (start_deploy marker timeout debug) items R w2)
    as [[R' | e |] w3]; [|exact I..].
  destruct Hfold as [HR' H3]. auto.
Qed.

Lemma check_end_stuck marker rs :
  marker <> m ->
  triple stuck (check_end marker rs) (fun _ => stuck)
         (fun _ _ => True) (fun _ => True).
Proof.
  intros Hne w [Hin Hnw]. destruct rs as [|r rs]; [|split; assumption].
  rewrite check_end_unfold. cbv zeta. simpl _plan.
  destruct (set_remove marker (in_progress (_plan w))) as [e | ip] eqn:Hrm;
    [exact I|].
  split; simpl; [|exact Hnw].
  apply (elem_of_set_remove m marker _ _ Hrm). auto.
Qed.

Lemma scan_ready_stuck marker mans R :
  untracked R ->
  triple stuck (scan_ready marker mans timeout debug R)
         (fun R' w => untracked R' /\ stuck w)
         (fun _ _ => True) (fun _ => True).
Proof.
  intros HR. unfold scan_ready.
  eapply (triple_bind _ _ _
            (fun R1 w => (untracked R1 /\ marker <> m) /\ stuck w)).
  { destruct (dict_get R marker) as [rs|] eqn:Hg.
    - apply triple_ret. intros w Hw. split; [|exact Hw]. split; [exact HR|].
      intros ->. unfold untracked in HR. congruence.
    - apply initiate_stuck, HR. }
  intros R1. cbv beta. apply triple_pure. intros [HR1 Hne].
  eapply triple_bind.
  { apply kept_triple. intros w Hw.
    destruct (dict_get R1 marker); exact Hw. }
  intros rs. cbv beta.
  eapply triple_bind.
  { apply kept_triple, preserved_wait_pass;
      [apply stuck_logged | apply stuck_heap | apply stuck_info]. }
  intros rs'. cbv beta.
  eapply triple_bind; [apply check_end_stuck, Hne|]. intros u. cbv beta.
  apply triple_ret. intros w Hw. split; [|exact Hw].
  apply untracked_set; assumption.
Qed.

Lemma scan_stuck R key :
  untracked R ->
  triple stuck (scan timeout debug R key)
         (fun R' w => untracked R' /\ stuck w)
         (fun _ _ => True) (fun _ => True).
Proof.
  intros HR. unfold scan.
  eapply triple_bind; [apply kept_triple, preserved_lift|]. intros mm.
  cbv beta zeta.
  eapply triple_bind; [apply kept_triple, (preserved_read stuck _plan)|].
  intros p. cbv beta.
  destruct (set_in (fst mm) (finished p)).
  { apply triple_ret. auto. }
  eapply triple_bind.
  { apply kept_triple. intros w Hw. unfold dependency_of, bind, get_plan.
    destruct (dependency (_plan w)) as [d|]; [|exact Hw].
    destruct (dict_get d (fst mm)); exact Hw. }
  intros deps. cbv beta.
  eapply triple_bind; [apply kept_triple, (preserved_read stuck _plan)|].
  intros p'. cbv beta.
  destruct (set_diff deps (finished p')).
  - apply scan_ready_stuck, HR.
  - apply triple_ret. auto.
Qed.

Lemma deployment_loop_stuck fuel : forall R w,
  stuck w -> untracked R ->
  fst (deployment_loop fuel timeout debug R w) <> Val tt.
Proof.
  induction fuel as [|fuel IH]; intros R w Hw HR.
  - simpl. unfold bind. simpl.
    destruct (waiting (_plan w)); [|discriminate].
    destruct (in_progress (_plan w)) eqn:Hip; [|discriminate].
    destruct Hw as [Hin _]. rewrite Hip in Hin. inversion Hin.
  - simpl. unfold bind at 1. simpl.
    assert (forall k : M unit,
      (match waiting (_plan w), in_progress (_plan w) with
       | [], [] => ret tt
       | _, _ => k
       end) w = k w) as Hk.
    { intros k. destruct (waiting (_plan w)); [|reflexivity].
      destruct (in_progress (_plan w)) eqn:Hip; [|reflexivity].
      destruct Hw as [Hin _]. rewrite Hip in Hin. inversion Hin. }
    rewrite Hk. unfold bind.
    pose proof (triple_foldM (fun R' w' => untracked R' /\ stuck w')
                  (scan timeout debug)
                  (fun _ _ => True) (fun _ => True)
                  (dict_keys (manifests (_plan w)))
                  (fun b x _ => triple_pure _ _ _ _ _ _ (scan_stuck b x))
                  R w (conj HR Hw)) as Hfold.
    destruct (foldM (scan timeout debug) (dict_keys (manifests (_plan w))) R w)
      as [[R' | e |] w']; [|discriminate..].
    destruct Hfold as [HR' Hw']. apply IH; assumption.
Qed.


End Stuck.

(** X13: a marker that is in progress but not waiting when
    [run_deployment] is called, as a call that raised leaves the marker it
    was deploying, is never finished: the dictionary of runners starts
    empty, so the marker would have to be initiated again, and removing it
    from [waiting] raises [KeyError].  Such a call never returns; it
    raises, or scans for ever. *)
Theorem marker_left_in_progress_blocks_deployment (w : World) (m : pyval)
    (fuel : nat) (timeout : option Z) (debug : bool) :
  m ∈ in_progress (_plan w) -> m ∉ waiting (_plan w) ->
  fst (run_deployment fuel timeout debug w) <> Val tt.
Proof.
  intros Hin Hnw. rewrite run_deployment_unfold, status_spec.
  destruct (_callbacks w) as [cb|]; [|discriminate].
  destruct (cb _); [discriminate|].
  pose proof (deployment_loop_stuck m timeout debug fuel []
                (logged (Status ("phase", "deployment", "start")) w)
                (conj Hin Hnw) eq_refl) as H.
  destruct (deployment_loop fuel timeout debug [] _) as [[[] | e |] w2];
    [|discriminate..].
  exfalso. apply H. reflexivity.
Qed.

Lemma marker_left_in_progress_blocks_deployment_witness :
  fst (run_deployment 3 None false
         (snd (run_deployment 3 None false failing_controller))) <> Val tt.
Proof.
  apply (marker_left_in_progress_blocks_deployment _ (PStr "A")).
  - destruct failing_run as (_ & _ & -> & _). left.
  - assert (waiting (_plan (snd (run_deployment 3 None false
                                   failing_controller))) = [PStr "B"]) as ->
      by (vm_compute; reflexivity).
    intros H. apply elem_of_cons in H as [H | H]; [discriminate H | inversion H].
Defined.

(** * Strings ([kanzo/utils/strings.py]) *)

Module Strings.

(** A Python string, as the list of its characters. *)
Definition str : Type := list ascii.

Definition STR_MASK : str := replicate 8 "*"%char.

Definition ESC : ascii := "027"%char.

Definition COLORS : dict str :=
  [(PStr "nocolor", ESC :: list_ascii_of_string "[0m");
   (PStr "red", ESC :: list_ascii_of_string "[0;31m");
   (PStr "green", ESC :: list_ascii_of_string "[32m");
   (PStr "blue", ESC :: list_ascii_of_string "[34m");
   (PStr "yellow", ESC :: list_ascii_of_string "[33m")].

(** [COLORS[color]] *)
Definition color_code (color : pyval) : exn + str :=
  match dict_get COLORS color with
  | Some code => inr code
  | None => inl (KeyError color)
  end.

Definition color_text (text : str) (color : pyval) : exn + str :=
  match color_code color with
  | inl e => inl e
  | inr code =>
      match color_code (PStr "nocolor") with
      | inl e => inl e
      | inr reset => inr (code ++ text ++ reset)
      end
  end.

(** [s.startswith(p)] *)
Fixpoint startswith (p s : str) : bool :=
  match p, s with
  | [], _ => true
  | _ :: _, [] => false
  | c :: p', d :: s' => if Ascii.eqb c d then startswith p' s' else false
  end.

(** [s.replace(old, new)] for a non-empty [old]: the scan goes from the
    left, and over a replaced occurrence without looking into it;
    [skip] is the number of its characters that are still to pass. *)
Fixpoint replace_from (old new : str) (skip : nat) (s : str) : str :=
  match s with
  | [] => []
  | c :: s' =>
      match skip with
      | S k => replace_from old new k s'
      | O =>
          if startswith old s
          then new ++ replace_from old new (List.length old - 1) s'
          else c :: replace_from old new 0 s'
      end
  end.

(** [s.replace(old, new)]; with an empty [old], [new] is put before
    every character and at the end. *)
Definition replace (s old new : str) : str :=
  match old with
  | [] => new ++ flat_map (fun c => c :: new) s
  | _ :: _ => replace_from old new 0 s
  end.

(** The inner loop of [mask_string]:
    [for before, after in replace_list: word = word.replace(before, after)] *)
Definition transform (replace_list : list (str * str)) (word : str) : str :=
  foldl (fun word ba => replace word (fst ba) (snd ba)) word replace_list.

(** [x or []] for an argument that is [None] or a list. *)
Definition or_empty {A} (x : option (list A)) : list A :=
  match x with
  | Some l => l
  | None => []
  end.

(** The body of the loop over [mask_list]. *)
Definition mask_word (replace_list : list (str * str)) (masked word : str)
  : str :=
  match word with
  | [] => masked
  | _ :: _ => replace masked (transform replace_list word) STR_MASK
  end.

(** [mask_string(unmasked, mask_list=None, replace_list=None)] *)
Definition mask_string (unmasked : str) (mask_list : option (list str))
    (replace_list : option (list (str * str))) : str :=
  let mask_list := or_empty mask_list in
  let replace_list := or_empty replace_list in
  foldl (mask_word replace_list) unmasked mask_list.

(** [u] occurs in [s] as a substring. *)
Definition occurs (u s : str) : Prop := exists a b, s = a ++ u ++ b.

(** [u in s] *)
Fixpoint contains (u s : str) : bool :=
  startswith u s ||
  match s with
  | [] => false
  | _ :: s' => contains u s'
  end.

(** No character of [u] is a character of [v]. *)
Definition apart (u v : str) : Prop := forall c, c ∈ u -> c ∉ v.

End Strings.

Section StringFacts.

Import Strings.

Example replace_examples :
  replace (list_ascii_of_string "abc") [] (list_ascii_of_string "-")
    = list_ascii_of_string "-a-b-c-" /\
  replace (list_ascii_of_string "aaa") (list_ascii_of_string "aa")
    (list_ascii_of_string "b") = list_ascii_of_string "ba" /\
  replace (list_ascii_of_string "abab") (list_ascii_of_string "ab") [] = [] /\
  replace [] [] (list_ascii_of_string "-") = list_ascii_of_string "-".
Proof. repeat split; reflexivity. Qed.

Lemma startswith_spec p : forall s,
  startswith p s = true <-> exists r, s = p ++ r.
Proof.
  induction p as [|c p IH]; intros s; simpl.
  - split; eauto.
  - destruct s as [|d s].
    + split; [discriminate | intros [r Hr]; discriminate Hr].
    + destruct (Ascii.eqb_spec c d) as [-> | Hne].
      * rewrite IH. split; intros [r Hr]; exists r; congruence.
      * split; [discriminate | intros [r Hr]; congruence].
Qed.

Lemma startswith_app p r : startswith p (p ++ r) = true.
Proof. apply startswith_spec. eauto. Qed.

Lemma replace_from_skip old new a : forall r,
  replace_from old new (List.length a) (a ++ r) = replace_from old new 0 r.
Proof.
  induction a as [|c a IH]; intros r; simpl; [|apply IH].
  destruct r; reflexivity.
Qed.

Lemma replace_from_hit old new r :
  old <> [] ->
  replace_from old new 0 (old ++ r) = new ++ replace_from old new 0 r.
Proof.
  intros Hne. destruct old as [|c o]; [congruence|].
  change ((c :: o) ++ r) with (c :: (o ++ r)).
  change (replace_from (c :: o) new 0 (c :: o ++ r))
    with (if startswith (c :: o) (c :: o ++ r)
          then new ++ replace_from (c :: o) new (List.length (c :: o) - 1) (o ++ r)
          else c :: replace_from (c :: o) new 0 (o ++ r)).
  pose proof (startswith_app (c :: o) r) as Hs.
  change ((c :: o) ++ r) with (c :: (o ++ r)) in Hs. rewrite Hs.
  replace (List.length (c :: o) - 1) with (List.length o) by (simpl; lia).
  rewrite replace_from_skip. reflexivity.
Qed.

Lemma replace_from_miss old new c s :
  startswith old (c :: s) = false ->
  replace_from old new 0 (c :: s) = c :: replace_from old new 0 s.
Proof. intros H. simpl replace_from. rewrite H. reflexivity. Qed.

(** The two ways a scan step goes. *)
Lemma scan_cases old (s : str) :
  (exists r, s = old ++ r) \/
  s = [] \/ exists c s', s = c :: s' /\ startswith old s = false.
Proof.
  destruct (startswith old s) eqn:H.
  - left. apply startswith_spec, H.
  - right. destruct s as [|c s']; eauto.
Qed.

Lemma occurs_nil_l s : occurs [] s.
Proof. exists [], s. reflexivity. Qed.

Lemma occurs_nil_r u : occurs u [] -> u = [].
Proof.
  intros (a & b & H). symmetry in H.
  apply app_eq_nil in H as [_ H]. apply app_eq_nil in H as [H _]. exact H.
Qed.

Lemma occurs_app_r u a s : occurs u s -> occurs u (a ++ s).
Proof.
  intros (x & y & ->). exists (a ++ x), y. rewrite <- app_assoc. reflexivity.
Qed.

Lemma occurs_cons u c s :
  occurs u (c :: s) -> (exists r, c :: s = u ++ r) \/ occurs u s.
Proof.
  intros ([|x a] & b & H).
  - left. exists b. exact H.
  - right. injection H as _ ->. exists a, b. reflexivity.
Qed.

(** An occurrence in [v ++ s] of a string that shares no character
    with [v] lies in [s]. *)
Lemma occurs_past u v s :
  apart u v -> occurs u (v ++ s) -> u = [] \/ occurs u s.
Proof.
  intros Hap. induction v as [|x v IH]; intros H; [right; exact H|].
  change ((x :: v) ++ s) with (x :: (v ++ s)) in H.
  apply occurs_cons in H as [[r Hr] | H].
  - destruct u as [|c u]; [left; reflexivity|]. exfalso.
    injection Hr as Hx _. apply (Hap c); [left | rewrite Hx; left].
  - apply IH; [|exact H]. intros c Hc Hin. apply (Hap c Hc). right. exact Hin.
Qed.

Lemma prefix_past u v s :
  apart u v -> v <> [] -> (exists r, v ++ s = u ++ r) -> u = [].
Proof.
  intros Hap Hv [r Hr]. destruct u as [|c u]; [reflexivity|]. exfalso.
  destruct v as [|x v]; [congruence|]. injection Hr as Hx _.
  apply (Hap c); [left | rewrite Hx; left].
Qed.

Lemma apart_tail c u v : apart (c :: u) v -> apart u v.
Proof. intros H x Hx. apply H. right. exact Hx. Qed.

(** A first part of the result that shares no character with [new] is
    a first part of the text. *)
Lemma replace_from_prefix old new u : forall s,
  old <> [] -> new <> [] -> apart u new ->
  (exists r, replace_from old new 0 s = u ++ r) -> exists r, s = u ++ r.
Proof.
  intros s Hold Hnew. revert u. induction s as [|c s IH]; intros u Hap [r Hr].
  - simpl in Hr. symmetry in Hr. apply app_eq_nil in Hr as [-> _]. eauto.
  - destruct (scan_cases old (c :: s)) as [[t Ht] | [Hnil | (c' & s' & Heq & Hmiss)]];
      [|discriminate Hnil|].
    + rewrite Ht, replace_from_hit in Hr by exact Hold.
      rewrite (prefix_past u new _ Hap Hnew (ex_intro _ r Hr)). eauto.
    + injection Heq as <- <-. rewrite replace_from_miss in Hr by exact Hmiss.
      destruct u as [|x u]; [eauto|]. injection Hr as <- Hr.
      destruct (IH u (apart_tail _ _ _ Hap) (ex_intro _ r Hr)) as [r' ->].
      eauto.
Qed.

Lemma replace_from_occurs old new u : forall s,
  old <> [] -> new <> [] -> apart u new ->
  occurs u (replace_from old new 0 s) -> occurs u s.
Proof.
  intros s Hold Hnew Hap.
  induction s as [s IH] using (induction_ltof1 _ (@List.length ascii)).
  unfold ltof in IH. intros H.
  destruct (scan_cases old s) as [[t Ht] | [-> | (c & s' & -> & Hmiss)]].
  - subst s. rewrite replace_from_hit in H by exact Hold.
    apply occurs_past in H as [-> | H]; [apply occurs_nil_l | | exact Hap].
    apply occurs_app_r, IH; [|exact H].
    rewrite length_app. destruct old; [congruence | simpl; lia].
  - exact H.
  - rewrite replace_from_miss in H by exact Hmiss.
    apply occurs_cons in H as [[r Hr] | H].
    + destruct u as [|x u]; [apply occurs_nil_l|]. injection Hr as <- Hr.
      destruct (replace_from_prefix old new u s' Hold Hnew
                  (apart_tail _ _ _ Hap) (ex_intro _ r Hr)) as [r' ->].
      exists [], r'. reflexivity.
    + apply (occurs_app_r u [c] s'), IH; [simpl; lia | exact H].
Qed.

Lemma replace_from_clean old new : forall s,
  old <> [] -> new <> [] -> apart old new ->
  ~ occurs old (replace_from old new 0 s).
Proof.
  intros s Hold Hnew Hap.
  induction s as [s IH] using (induction_ltof1 _ (@List.length ascii)).
  unfold ltof in IH. intros H.
  destruct (scan_cases old s) as [[t Ht] | [-> | (c & s' & -> & Hmiss)]].
  - subst s. rewrite replace_from_hit in H by exact Hold.
    apply occurs_past in H as [H | H]; [congruence | | exact Hap].
    revert H. apply IH.
    rewrite length_app. destruct old; [congruence | simpl; lia].
  - apply occurs_nil_r in H. congruence.
  - rewrite replace_from_miss in H by exact Hmiss.
    apply occurs_cons in H as [[r Hr] | H].
    + destruct old as [|x o]; [congruence|]. injection Hr as <- Hr.
      destruct (replace_from_prefix (c :: o) new o s' Hold Hnew
                  (apart_tail _ _ _ Hap) (ex_intro _ r Hr)) as [r' ->].
      pose proof (startswith_app (c :: o) r') as Hs.
      change ((c :: o) ++ r') with (c :: (o ++ r')) in Hs. congruence.
    + revert H. apply IH. simpl. lia.
Qed.

Lemma replace_from_absent old new : forall s,
  ~ occurs old s -> replace_from old new 0 s = s.
Proof.
  induction s as [|c s IH]; intros H; [reflexivity|].
  rewrite replace_from_miss.
  - rewrite IH; [reflexivity|]. intros Ho. apply H.
    apply (occurs_app_r old [c] s), Ho.
  - destruct (startswith old (c :: s)) eqn:E; [|reflexivity].
    exfalso. apply H. apply startswith_spec in E as [r ->].
    exists [], r. reflexivity.
Qed.

Lemma interleave_occurs new u : forall s,
  new <> [] -> apart u new ->
  occurs u (flat_map (fun c => c :: new) s) -> occurs u s.
Proof.
  intros s Hnew Hap. induction s as [|c s IH]; intros H; [exact H|].
  change (flat_map (fun c => c :: new) (c :: s))
    with (c :: (new ++ flat_map (fun c => c :: new) s)) in H.
  apply occurs_cons in H as [[r Hr] | H].
  - destruct u as [|x u]; [apply occurs_nil_l|]. injection Hr as <- Hr.
    rewrite (prefix_past u new _ (apart_tail _ _ _ Hap) Hnew (ex_intro _ r Hr)).
    exists [], s. reflexivity.
  - apply occurs_past in H as [-> | H]; [apply occurs_nil_l | | exact Hap].
    apply (occurs_app_r u [c] s), IH, H.
Qed.

(** Replacing by [new] creates no occurrence of a string that shares
    no character with [new]. *)
Lemma replace_occurs s old new u :
  new <> [] -> apart u new -> occurs u (replace s old new) -> occurs u s.
Proof.
  intros Hnew Hap H. destruct old as [|c o]; simpl in H.
  - apply occurs_past in H as [-> | H]; [apply occurs_nil_l | | exact Hap].
    apply (interleave_occurs new u s Hnew Hap H).
  - apply (replace_from_occurs (c :: o) new u s); auto.
Qed.

Lemma replace_clean s old new :
  old <> [] -> new <> [] -> apart old new -> ~ occurs old (replace s old new).
Proof.
  intros Hold Hnew Hap. destruct old as [|c o]; [congruence|].
  apply (replace_from_clean (c :: o) new s); assumption.
Qed.

Lemma replace_absent s old new : ~ occurs old s -> replace s old new = s.
Proof.
  intros H. destruct old as [|c o].
  - exfalso. apply H, occurs_nil_l.
  - apply replace_from_absent, H.
Qed.

Lemma contains_spec u : forall s, contains u s = true <-> occurs u s.
Proof.
  induction s as [|c s IH]; simpl contains; rewrite orb_true_iff.
  - rewrite startswith_spec. split.
    + intros [[r Hr] | H]; [|discriminate H].
      exists [], r. exact Hr.
    + intros H. apply occurs_nil_r in H as ->. left. exists []. reflexivity.
  - rewrite startswith_spec, IH. split.
    + intros [[r Hr] | H]; [exists [], r; exact Hr|].
      apply (occurs_app_r u [c] s), H.
    + apply occurs_cons.
Qed.

Lemma mask_nonempty : STR_MASK <> [].
Proof. discriminate. Qed.

Lemma apart_mask u : "*"%char ∉ u -> apart u STR_MASK.
Proof.
  intros Hu c Hc Hin. unfold STR_MASK in Hin.
  apply elem_of_replicate in Hin as [-> _]. contradiction.
Qed.

Lemma mask_word_keeps rl u masked word :
  "*"%char ∉ u -> ~ occurs u masked -> ~ occurs u (mask_word rl masked word).
Proof.
  intros Hu Hno H. apply Hno. destruct word as [|c word]; [exact H|].
  apply (replace_occurs masked _ STR_MASK u mask_nonempty (apart_mask u Hu) H).
Qed.

Lemma mask_words_keep rl u words : forall masked,
  "*"%char ∉ u -> ~ occurs u masked ->
  ~ occurs u (foldl (mask_word rl) masked words).
Proof.
  induction words as [|word words IH]; intros masked Hu Hno; [exact Hno|].
  simpl. apply IH; [exact Hu|]. apply mask_word_keeps; assumption.
Qed.

Lemma mask_words_clean rl words word text :
  word ∈ words -> word <> [] -> transform rl word <> [] ->
  "*"%char ∉ transform rl word ->
  ~ occurs (transform rl word) (foldl (mask_word rl) text words).
Proof.
  intros Hin Hword Hne Hstar.
  apply list_elem_of_split in Hin as (pre & post & ->).
  rewrite foldl_app. simpl foldl.
  apply mask_words_keep; [exact Hstar|].
  destruct word as [|c word]; [congruence|]. unfold mask_word at 1.
  apply replace_clean; [exact Hne | exact mask_nonempty|].
  apply apart_mask, Hstar.
Qed.

Lemma mask_words_absent rl words : forall text,
  (forall word, word ∈ words -> word <> [] ->
     ~ occurs (transform rl word) text) ->
  foldl (mask_word rl) text words = text.
Proof.
  induction words as [|word words IH]; intros text H; [reflexivity|].
  simpl foldl.
  assert (mask_word rl text word = text) as ->.
  { destruct word as [|c word]; [reflexivity|]. unfold mask_word.
    apply replace_absent, H; [left | discriminate]. }
  apply IH. intros w Hw. apply H. right. exact Hw.
Qed.

(** X8: [mask_string] hides every listed word.  For a non-empty word
    of [mask_list] whose transformed form is not empty and has no ['*']
    in it, the result of [mask_string] has no occurrence of the
    transformed word, wherever the word stands in the list and whatever
    is masked after it. *)
Theorem mask_string_hides_listed_words (text : str) (mask_list : list str)
    (replace_list : option (list (str * str))) (word : str) :
  word ∈ mask_list -> word <> [] ->
  transform (or_empty replace_list) word <> [] ->
  "*"%char ∉ transform (or_empty replace_list) word ->
  ~ occurs (transform (or_empty replace_list) word)
      (mask_string text (Some mask_list) replace_list).
Proof.
  intros Hin Hword Hne Hstar. unfold mask_string. cbv zeta.
  change (or_empty (Some mask_list)) with mask_list.
  apply mask_words_clean; assumption.
Qed.

Lemma mask_string_hides_listed_words_witness :
  ~ occurs (list_ascii_of_string "secret")
      (mask_string (list_ascii_of_string "pw=secret;user=admin")
         (Some [list_ascii_of_string "admin"; list_ascii_of_string "secret"])
         None).
Proof.
  apply (mask_string_hides_listed_words
           (list_ascii_of_string "pw=secret;user=admin")
           [list_ascii_of_string "admin"; list_ascii_of_string "secret"]
           None (list_ascii_of_string "secret")).
  - right. left.
  - discriminate.
  - discriminate.
  - simpl. intros H.
    repeat (apply elem_of_cons in H as [H | H]; [discriminate H|]).
    inversion H.
Defined.

(** X9: [mask_string] leaves a text alone in which no listed word
    occurs in its transformed form; in particular with no list, or an
    empty one. *)
Theorem mask_string_keeps_clean_text (text : str)
    (mask_list : option (list str))
    (replace_list : option (list (str * str))) :
  (forall word, word ∈ or_empty mask_list -> word <> [] ->
     ~ occurs (transform (or_empty replace_list) word) text) ->
  mask_string text mask_list replace_list = text.
Proof. unfold mask_string. apply mask_words_absent. Qed.

Lemma mask_string_keeps_clean_text_witness :
  mask_string (list_ascii_of_string "user=admin")
    (Some [list_ascii_of_string "secret"; []; list_ascii_of_string "it's"])
    (Some [(list_ascii_of_string "'", list_ascii_of_string "'\''")])
  = list_ascii_of_string "user=admin".
Proof.
  apply mask_string_keeps_clean_text.
  intros word Hin Hne Hocc. apply contains_spec in Hocc.
  simpl or_empty in Hin.
  repeat (apply elem_of_cons in Hin as [-> | Hin];
            [first [congruence | vm_compute in Hocc; discriminate Hocc]|]).
  inversion Hin.
Defined.

(** X15: masking twice is masking once.  When every non-empty word
    of [mask_list] has a transformed form that is not empty and has no
    ['*'] in it, [mask_string] changes nothing in a text it has
    produced with the same arguments. *)
Theorem mask_string_is_idempotent (text : str)
    (mask_list : option (list str))
    (replace_list : option (list (str * str))) :
  (forall word, word ∈ or_empty mask_list -> word <> [] ->
     transform (or_empty replace_list) word <> [] /\
     "*"%char ∉ transform (or_empty replace_list) word) ->
  mask_string (mask_string text mask_list replace_list) mask_list replace_list
  = mask_string text mask_list replace_list.
Proof.
  intros H. unfold mask_string at 1. apply mask_words_absent.
  intros word Hin Hne. destruct (H word Hin Hne) as [Ht Hstar].
  unfold mask_string. apply mask_words_clean; assumption.
Qed.

Lemma mask_string_is_idempotent_witness :
  let masked :=
    mask_string (list_ascii_of_string "pw=secret;user=admin")
      (Some [list_ascii_of_string "admin"; list_ascii_of_string "secret"])
      None in
  mask_string masked
    (Some [list_ascii_of_string "admin"; list_ascii_of_string "secret"]) None
  = masked.
Proof.
  intros masked. apply mask_string_is_idempotent.
  intros word Hin _. simpl or_empty in Hin. simpl or_empty.
  repeat (apply elem_of_cons in Hin as [-> | Hin];
    [split; [discriminate|]; simpl; intros H;
     repeat (apply elem_of_cons in H as [H | H]; [discriminate H|]);
     inversion H|]).
  inversion Hin.
Defined.

Lemma color_code_known color :
  match dict_get COLORS color with
  | Some _ => color ∈ dict_keys COLORS
  | None => color ∉ dict_keys COLORS
  end.
Proof.
  unfold COLORS, dict_get, dict_keys. simpl map.
  repeat case_decide; subst; try (repeat constructor; fail).
  intros Hin.
  repeat (apply elem_of_cons in Hin as [Hin | Hin]; [congruence|]).
  inversion Hin.
Qed.

(** X10: [color_text] accepts exactly the five keys of [COLORS] and
    raises [KeyError] for any other colour; no colour code begins
    another one, so the coloured string determines both the colour and
    the text. *)
Theorem color_text_determines_color_and_text (text1 text2 : str)
    (color1 color2 : pyval) :
  (color1 ∈ dict_keys COLORS -> exists r, color_text text1 color1 = inr r) /\
  (color1 ∉ dict_keys COLORS ->
     color_text text1 color1 = inl (KeyError color1)) /\
  (forall r, color_text text1 color1 = inr r -> color_text text2 color2 = inr r ->
     color1 = color2 /\ text1 = text2).
Proof.
  pose proof (color_code_known color1) as Hk. unfold color_text, color_code.
  change (dict_get COLORS (PStr "nocolor"))
    with (Some (ESC :: list_ascii_of_string "[0m")).
  destruct (dict_get COLORS color1) as [c1|] eqn:E1; cbv beta iota.
  - split; [eauto|]. split; [intros H; contradiction|].
    intros r H1 H2.
    destruct (dict_get COLORS color2) as [c2|] eqn:E2; [|discriminate H2].
    injection H1 as <-. injection H2 as H2.
    unfold COLORS, dict_get in E1, E2.
    repeat case_decide; simplify_eq/=;
      (split; [reflexivity | symmetry; eapply app_inv_tail; eassumption]).
  - split; [intros H; contradiction|]. split; [reflexivity|].
    intros r H1. discriminate H1.
Qed.

End StringFacts.

(** * The example plugin ([tests/plugins/sql.py]) *)

Module Sql.

(** [len(value)] *)
Definition py_len (value : pyval) : exn + nat :=
  match value with
  | PStr s => inr (String.length s)
  | PTuple l => inr (List.length l)
  | PNone => inl (TypeError "object of type 'NoneType' has no len()")
  | PInt _ => inl (TypeError "object of type 'int' has no len()")
  end.

(** [not value] *)
Definition falsy (value : pyval) : bool :=
  match value with
  | PNone => true
  | PInt z => Z.eqb z 0
  | PStr s => String.eqb s ""
  | PTuple l => match l with [] => true | _ :: _ => false end
  end.

Definition length_validator (value key config : pyval) : exn + unit :=
  match py_len value with
  | inl e => inl e
  | inr n =>
      if Nat.ltb n 8 then inl (ValueError "Password is too short.")
      else inr tt
  end.

(** [hex] is the value of [uuid.uuid4().hex] at the call, a string of
    32 hexadecimal digits. *)
Definition password_processor (hex : string) (value key config : pyval)
  : pyval :=
  if falsy value then PStr (substring 0 8 hex) else value.

End Sql.

Section SqlFacts.

Import Sql.

Lemma length_substring m : forall s,
  String.length (substring 0 m s) = Nat.min m (String.length s).
Proof.
  induction m as [|m IH]; intros [|c s]; simpl; auto.
Qed.

(** X11: the processor and the validator of [sql/admin_password] fit
    together.  A missing password is replaced by one of exactly eight
    characters, which the validator accepts; a password that is given
    is kept as it is, and accepted exactly when it has eight characters
    or more. *)
Theorem password_processor_result_validates (hex : string)
    (value key config : pyval) :
  String.length hex = 32 ->
  (falsy value = true ->
     exists p, password_processor hex value key config = PStr p /\
               String.length p = 8 /\
               length_validator (PStr p) key config = inr tt) /\
  (forall s, value = PStr s -> s <> "" ->
     password_processor hex value key config = value /\
     (length_validator value key config = inr tt <-> 8 <= String.length s) /\
     (length_validator value key config = inr tt \/
      length_validator value key config =
        inl (ValueError "Password is too short."))).
Proof.
  intros Hhex. split.
  - intros Hf. exists (substring 0 8 hex). unfold password_processor.
    rewrite Hf. split; [reflexivity|].
    assert (String.length (substring 0 8 hex) = 8) as Hl.
    { rewrite length_substring, Hhex. reflexivity. }
    split; [exact Hl|]. unfold length_validator, py_len. rewrite Hl.
    reflexivity.
  - intros s -> Hs. unfold password_processor, falsy.
    destruct (String.eqb_spec s "") as [-> | _]; [congruence|].
    split; [reflexivity|]. unfold length_validator, py_len.
    destruct (Nat.ltb_spec (String.length s) 8) as [Hlt | Hge].
    + split; [|right; reflexivity]. split; [discriminate | lia].
    + split; [|left; reflexivity]. split; [lia | reflexivity].
Qed.

Lemma password_processor_result_validates_witness :
  exists p,
    password_processor "0123456789abcdef0123456789abcdef" (PStr "") PNone PNone
      = PStr p /\
    String.length p = 8 /\
    length_validator (PStr p) PNone PNone = inr tt.
Proof.
  apply (password_processor_result_validates
           "0123456789abcdef0123456789abcdef" (PStr "") PNone PNone).
  - reflexivity.
  - reflexivity.
Defined.

End SqlFacts.
